(** * Simulation de trafic : modèle Rocq de [simulation_trafic.py]

    Shallow embedding of the simulation core: the grid and its obstacles,
    the A* planner, the traffic lights, the pedestrian crossings and the
    per-tick movement scheduler.

    Conventions.
    - Python [int] is [Z]; a cell [(x, y)] or [[x, y]] is a pair [Z * Z].
    - Python [float] (timestamps, durations, pedestrian progress) is the
      binary64 type [float] of the kernel, with the same rounding; a decimal
      literal stands for the nearest binary64 value, as in Python.
    - A [dict] used as a map is a [gmap]; a [set] is a [gset]; a [None]
      sentinel is [option].
    - [time.time()] and the [random] module are inputs of the functions
      that read them.
    - A list of car dictionaries is a store [list Voiture.t]; the auxiliary
      lists of the scheduler, which alias the same dictionaries, are lists
      of indices into the store. *)

From Stdlib Require Import Floats.PrimFloat.
From stdpp Require Import gmap strings list.

Set Warnings "-inexact-float".
Local Open Scope Z_scope.

(** ** Grille *)

Module Grille.

Definition Position : Type := Z * Z.

Definition NON_ROUTIER : string := "N".
Definition ROUTE : string := " ".
Definition OBSTACLE_MANUEL : string := "X".
Definition OBSTACLE_AUTO_SYM : string := "A".
Definition SYMBOLES_NON_PRATICABLES : list string :=
  [NON_ROUTIER; OBSTACLE_MANUEL; OBSTACLE_AUTO_SYM].

(** [grille[y][x]]: a list of rows. *)
Abbreviation Grille := (list (list string)).

(** [len(grille[0])] and [len(grille)]. *)
Definition largeur (g : Grille) : Z := Z.of_nat (length (hd [] g)).
Definition hauteur (g : Grille) : Z := Z.of_nat (length g).

(** [0 <= x < taille_x and 0 <= y < taille_y]. *)
Definition dans_limites (taille_x taille_y : Z) (p : Position) : bool :=
  (0 <=? p.1) && (p.1 <? taille_x) && (0 <=? p.2) && (p.2 <? taille_y).

(** [grille[y][x]] for non-negative indices; [None] where Python raises
    [IndexError]. Every access of the planner and of the scheduler is
    guarded by [dans_limites], so on a rectangular grid it is [Some]. *)
Definition case_grille (g : Grille) (p : Position) : option string :=
  if (0 <=? p.1) && (0 <=? p.2)
  then row ← g !! Z.to_nat p.2; row !! Z.to_nat p.1
  else None.

Definition est_route (g : Grille) (p : Position) : bool :=
  bool_decide (case_grille g p = Some ROUTE).

(** The shape [creer_grille] builds: at least one row, all rows as long as
    the first. *)
Definition grille_rect (g : Grille) : Prop :=
  g ≠ [] ∧ Forall (λ row, length row = length (hd [] g)) g.

(** [creer_grille(taille_x, taille_y)]. *)
Definition creer_grille (taille_x taille_y : nat) : Grille :=
  replicate taille_y (replicate taille_x NON_ROUTIER).

(** [grille[y][x] = s] for an in-range cell. *)
Definition ecrire_case (g : Grille) (p : Position) (s : string) : Grille :=
  match g !! Z.to_nat p.2 with
  | Some row => <[Z.to_nat p.2 := <[Z.to_nat p.1 := s]> row]> g
  | None => g
  end.

Definition cardinal_directions : list (Z * Z) :=
  [(0, 1); (0, -1); (1, 0); (-1, 0)].

(** [est_case_escapable(pos, taille_x, taille_y, grille)]. *)
Definition est_case_escapable (pos : Position) (taille_x taille_y : Z)
    (g : Grille) : bool :=
  if negb (dans_limites taille_x taille_y pos && est_route g pos) then false
  else existsb (λ d : Z * Z,
                  let n := (pos.1 + d.1, pos.2 + d.2) in
                  dans_limites taille_x taille_y n && est_route g n)
               cardinal_directions.

End Grille.
Export Grille.

(** ** Planificateur A* *)

Module Planificateur.

(** An entry of the priority queue: [(f_cost, position)]. *)
Definition Entree : Type := Z * Position.

Definition heuristique (a b : Position) : Z :=
  Z.abs (a.1 - b.1) + Z.abs (a.2 - b.2).

(** Python's ordering of the tuples [(f, (x, y))]. *)
Definition entree_le (a b : Entree) : bool :=
  (a.1 <? b.1)
  || ((a.1 =? b.1)
      && ((a.2.1 <? b.2.1) || ((a.2.1 =? b.2.1) && (a.2.2 <=? b.2.2)))).

Definition plus_petite (a b : Entree) : Entree :=
  if entree_le a b then a else b.

Fixpoint retirer_un (m : Entree) (l : list Entree) : list Entree :=
  match l with
  | [] => []
  | a :: l' => if decide (a = m) then l' else a :: retirer_un m l'
  end.

(** [heapq]: the queue holds a multiset of entries, totally ordered by
    [entree_le]; [heappop] returns the least one and leaves the others. The
    array layout of the binary heap is not observable through push and pop. *)
Definition heappush (l : list Entree) (e : Entree) : list Entree := e :: l.

Definition heappop (l : list Entree) : option (Entree * list Entree) :=
  match l with
  | [] => None
  | a :: l' => let m := foldl plus_petite a l' in Some (m, retirer_un m l)
  end.

Record EtatRecherche := {
  ouverte : list Entree;
  precedent : gmap Position (option Position);
  cout_g : gmap Position Z
}.

(** The outcome of [trouver_chemin]: a path, [None], or the budget of the
    model spent. The two [while] loops of the source carry no bound; the
    model gives them one, in numbers of rounds, and [boucle_correcte] shows
    that it is never spent. *)
Inductive Resultat :=
| Chemin (l : list Position)
| AucunChemin
| BudgetEpuise.

Section Recherche.
Variable grille : Grille.
Variables directions_lignes directions_colonnes : gmap Z string.
Variable arrivee : Position.

(** The [move_is_allowed] flag for the step [(dx, dy)] out of [(cx, cy)]. *)
Definition mouvement_autorise (courant : Position) (d : Z * Z) : bool :=
  let '(cx, cy) := courant in
  let '(dx, dy) := d in
  if (dy =? 0) && negb (dx =? 0) then
    (bool_decide (directions_lignes !! cy = Some "droite") && (dx =? 1))
    || (bool_decide (directions_lignes !! cy = Some "gauche") && (dx =? -1))
  else if (dx =? 0) && negb (dy =? 0) then
    (bool_decide (directions_colonnes !! cx = Some "bas") && (dy =? 1))
    || (bool_decide (directions_colonnes !! cx = Some "haut") && (dy =? -1))
  else false.

(** The three [continue] tests of the neighbour loop. *)
Definition voisin_admis (courant : Position) (d : Z * Z) : bool :=
  let voisin := (courant.1 + d.1, courant.2 + d.2) in
  dans_limites (largeur grille) (hauteur grille) voisin
  && est_route grille voisin
  && mouvement_autorise courant d.

(** One turn of [for dx, dy in cardinal_directions]. [courant] was pushed
    when its cost was set, so [cout_g[courant]] is always there. *)
Definition explorer_voisin (courant : Position) (st : EtatRecherche)
    (d : Z * Z) : EtatRecherche :=
  let voisin := (courant.1 + d.1, courant.2 + d.2) in
  if negb (voisin_admis courant d) then st
  else
    let n_cout_g := default 0 (cout_g st !! courant) + 1 in
    let meilleur := match cout_g st !! voisin with
                    | None => true
                    | Some c => n_cout_g <? c
                    end in
    if meilleur then
      {| ouverte := heappush (ouverte st)
                      (n_cout_g + heuristique voisin arrivee, voisin);
         precedent := <[voisin := Some courant]> (precedent st);
         cout_g := <[voisin := n_cout_g]> (cout_g st) |}
    else st.

Definition explorer (courant : Position) (st : EtatRecherche)
  : EtatRecherche :=
  foldl (explorer_voisin courant) st cardinal_directions.

(** [while temp is not None: chemin.append(temp); temp = precedent.get(temp)]. *)
Fixpoint remonter (budget : nat) (prec : gmap Position (option Position))
    (temp : option Position) (chemin : list Position)
  : option (list Position) :=
  match temp with
  | None => Some chemin
  | Some t =>
      match budget with
      | O => None
      | S b => remonter b prec (mjoin (prec !! t)) (chemin ++ [t])
      end
  end.

(** [while ouverte: ...]. *)
Fixpoint boucle (budget : nat) (st : EtatRecherche) : Resultat :=
  match budget with
  | O => BudgetEpuise
  | S b =>
      match heappop (ouverte st) with
      | None => AucunChemin
      | Some ((_, courant), reste) =>
          if decide (courant = arrivee) then
            match remonter (length grille * length (hd [] grille))
                    (precedent st) (Some courant) [] with
            | Some chemin => Chemin (reverse chemin)
            | None => BudgetEpuise
            end
          else
            boucle b (explorer courant
                        {| ouverte := reste;
                           precedent := precedent st;
                           cout_g := cout_g st |})
      end
  end.
End Recherche.

Definition etat_initial (depart arrivee : Position) : EtatRecherche :=
  {| ouverte := [(heuristique depart arrivee, depart)];
     precedent := {[depart := None]};
     cout_g := {[depart := 0]} |}.

(** [trouver_chemin(grille, depart, arrivee, directions_lignes,
    directions_colonnes)]. *)
Definition trouver_chemin (grille : Grille) (depart arrivee : Position)
    (directions_lignes directions_colonnes : gmap Z string) : Resultat :=
  let taille_x := largeur grille in
  let taille_y := hauteur grille in
  if negb (dans_limites taille_x taille_y depart
           && dans_limites taille_x taille_y arrivee) then AucunChemin
  else if negb (est_route grille depart) || negb (est_route grille arrivee)
  then AucunChemin
  else if decide (depart = arrivee) then Chemin [depart]
  else
    let n := (length grille * length (hd [] grille))%nat in
    boucle grille directions_lignes directions_colonnes arrivee
      (S (n * n)) (etat_initial depart arrivee).

End Planificateur.
Export Planificateur.


(** ** Feux et obstacles *)

Module Feu.
(** A traffic light dictionary. *)
Record t := mk {
  position : Position;
  etat : string;
  duree_vert : float;
  duree_orange : float;
  duree_rouge : float;
  duree_actuelle : float;
  dernier_changement : float
}.
End Feu.

Module Obstacles.

(** [{feu["position"] for feu in feux}]. *)
Definition positions_feux (feux : list Feu.t) : gset Position :=
  list_to_set (Feu.position <$> feux).

(** [ajouter_obstacle_manuel(grille, x, y, feux)]: the flag returned and the
    grid after the call. For a cell outside the grid Python raises
    [IndexError] (or wraps a negative index); the callers test the bounds
    first, and the model leaves the grid as it is. *)
Definition ajouter_obstacle_manuel (g : Grille) (x y : Z) (feux : list Feu.t)
  : bool * Grille :=
  match case_grille g (x, y) with
  | Some c =>
      if bool_decide (c = ROUTE)
         && bool_decide ((x, y) ∉ positions_feux feux)
         && bool_decide (c ∉ SYMBOLES_NON_PRATICABLES)
      then (true, ecrire_case g (x, y) OBSTACLE_MANUEL)
      else (false, g)
  | None => (false, g)
  end.

(** [ajouter_obstacle_auto(grille, x, y, feux)]. *)
Definition ajouter_obstacle_auto (g : Grille) (x y : Z) (feux : list Feu.t)
  : bool * Grille :=
  match case_grille g (x, y) with
  | Some c =>
      if bool_decide (c = ROUTE)
         && bool_decide ((x, y) ∉ positions_feux feux)
         && bool_decide (c ∉ SYMBOLES_NON_PRATICABLES)
      then (true, ecrire_case g (x, y) OBSTACLE_AUTO_SYM)
      else (false, g)
  | None => (false, g)
  end.

End Obstacles.
Export Obstacles.

(** ** Automate des feux *)

Module Feux.
Import Feu.

Definition changer (feu : Feu.t) (e : string) (d : float) (t : float)
  : Feu.t :=
  {| position := position feu; etat := e;
     duree_vert := duree_vert feu; duree_orange := duree_orange feu;
     duree_rouge := duree_rouge feu;
     duree_actuelle := d; dernier_changement := t |}.

(** The dictionary [initialiser_feux_repartis_sur_routes] appends for the
    cell [pos]. [temps_depuis_debut_cycle] is the value of
    [(time.time() - offset) % temps_total_cycle] for the random [offset], and
    [temps_actuel] the clock read for [dernier_changement]. *)
Definition nouveau_feu (pos : Position)
    (temps_actuel temps_depuis_debut_cycle : float) : Feu.t :=
  let duree_vert := 10%float in
  let duree_orange := 3%float in
  let duree_rouge := 7%float in
  let dernier_changement_initial :=
    (temps_actuel - temps_depuis_debut_cycle)%float in
  if (temps_depuis_debut_cycle <=? duree_vert)%float then
    Feu.mk pos "vert" duree_vert duree_orange duree_rouge
      (duree_vert - temps_depuis_debut_cycle)%float
      dernier_changement_initial
  else if (temps_depuis_debut_cycle <=? duree_vert + duree_orange)%float then
    Feu.mk pos "orange" duree_vert duree_orange duree_rouge
      (duree_orange - (temps_depuis_debut_cycle - duree_vert))%float
      dernier_changement_initial
  else
    Feu.mk pos "rouge" duree_vert duree_orange duree_rouge
      (duree_rouge
       - (temps_depuis_debut_cycle - (duree_vert + duree_orange)))%float
      dernier_changement_initial.

(** The body of [for feu in feux] in [mettre_a_jour_feux]. *)
Definition mettre_a_jour_feu (temps_actuel : float) (feu : Feu.t) : Feu.t :=
  if (duree_actuelle feu <? temps_actuel - dernier_changement feu)%float then
    if bool_decide (etat feu = "vert") then
      changer feu "orange" (duree_orange feu) temps_actuel
    else if bool_decide (etat feu = "orange") then
      changer feu "rouge" (duree_rouge feu) temps_actuel
    else if bool_decide (etat feu = "rouge") then
      changer feu "vert" (duree_vert feu) temps_actuel
    else
      changer feu (etat feu) (duree_actuelle feu) temps_actuel
  else feu.

(** [mettre_a_jour_feux(feux)], with [time.time()] as [temps_actuel]. *)
Definition mettre_a_jour_feux (temps_actuel : float) (feux : list Feu.t)
  : list Feu.t :=
  mettre_a_jour_feu temps_actuel <$> feux.

End Feux.
Export Feux.

(** ** Voitures *)

Module Voiture.
(** A car dictionary; the rendering fields (colour, image) are left out. *)
Record t := mk {
  id : Z;
  position : Position;
  destination : Position;
  chemin : list Position;
  temps_arrivee : option float;
  dernier_deplacement : float;
  orientation : Z;
  bloquee_depuis : option float;
  recalcul_echecs : Z
}.

(** [v.get("temps_arrivee") is None]. *)
Definition en_route (v : t) : bool :=
  match temps_arrivee v with None => true | Some _ => false end.

(** Assignments to one key of the dictionary. *)
Definition set_position (p : Position) (v : t) : t :=
  mk (id v) p (destination v) (chemin v) (temps_arrivee v)
     (dernier_deplacement v) (orientation v) (bloquee_depuis v)
     (recalcul_echecs v).
Definition set_chemin (c : list Position) (v : t) : t :=
  mk (id v) (position v) (destination v) c (temps_arrivee v)
     (dernier_deplacement v) (orientation v) (bloquee_depuis v)
     (recalcul_echecs v).
Definition set_temps_arrivee (a : option float) (v : t) : t :=
  mk (id v) (position v) (destination v) (chemin v) a
     (dernier_deplacement v) (orientation v) (bloquee_depuis v)
     (recalcul_echecs v).
Definition set_dernier_deplacement (d : float) (v : t) : t :=
  mk (id v) (position v) (destination v) (chemin v) (temps_arrivee v)
     d (orientation v) (bloquee_depuis v) (recalcul_echecs v).
Definition set_orientation (o : Z) (v : t) : t :=
  mk (id v) (position v) (destination v) (chemin v) (temps_arrivee v)
     (dernier_deplacement v) o (bloquee_depuis v) (recalcul_echecs v).
Definition set_bloquee_depuis (b : option float) (v : t) : t :=
  mk (id v) (position v) (destination v) (chemin v) (temps_arrivee v)
     (dernier_deplacement v) (orientation v) b (recalcul_echecs v).
Definition set_recalcul_echecs (n : Z) (v : t) : t :=
  mk (id v) (position v) (destination v) (chemin v) (temps_arrivee v)
     (dernier_deplacement v) (orientation v) (bloquee_depuis v) n.
End Voiture.

(** [forcer_recalcul_si_affecte(obstacle_x, obstacle_y, voitures)]. *)
Definition forcer_recalcul_si_affecte (obstacle_x obstacle_y : Z)
    (voitures : list Voiture.t) : list Voiture.t :=
  let obstacle_pos := (obstacle_x, obstacle_y) in
  (λ v : Voiture.t,
     if Voiture.en_route v
        && bool_decide (Voiture.position v ≠ obstacle_pos) then
       if bool_decide (obstacle_pos ∈ Voiture.chemin v)
          || bool_decide (Voiture.destination v = obstacle_pos) then
         Voiture.set_recalcul_echecs 0 (Voiture.set_chemin [] v)
       else v
     else v) <$> voitures.

(** ** Piétons *)

Module Passage.
Record t := mk { position : Position; orientation : string }.
End Passage.

Module Pieton.
Record t := mk {
  id : Z;
  passage_pos : Position;
  orientation : string;
  progres : float
}.
End Pieton.

Module Pietons.

Definition VITESSE_PIETON : float := 0.02%float.
Definition PROBA_APPARITION_PIETON : float := 0.005%float.

(** [any(tuple(v['position']) == pos_passage
         for v in voitures if v.get('temps_arrivee') is None)]. *)
Definition voiture_presente_sur_passage (voitures : list Voiture.t)
    (pos_passage : Position) : bool :=
  existsb (λ v, bool_decide (Voiture.position v = pos_passage))
          (filter (λ v, Voiture.en_route v) voitures).

(** [pieton['progres'] += VITESSE_PIETON] unless a car is on the crossing. *)
Definition avancer (voitures : list Voiture.t) (p : Pieton.t) : Pieton.t :=
  if negb (voiture_presente_sur_passage voitures (Pieton.passage_pos p)) then
    {| Pieton.id := Pieton.id p;
       Pieton.passage_pos := Pieton.passage_pos p;
       Pieton.orientation := Pieton.orientation p;
       Pieton.progres := (Pieton.progres p + VITESSE_PIETON)%float |}
  else p.

(** [pieton['progres'] < 1.0]. *)
Definition en_traversee (p : Pieton.t) : bool :=
  (Pieton.progres p <? 1)%float.

(** Part 1 of [mettre_a_jour_pietons]: the list [pietons_termines]. *)
Definition faire_avancer (pietons_actifs : list Pieton.t)
    (voitures : list Voiture.t) : list Pieton.t :=
  filter (λ p, en_traversee p) (avancer voitures <$> pietons_actifs).

(** [float(len(l))], exact below 2^53. *)
Definition float_of_nat (n : nat) : float :=
  Nat.iter n (λ f, (f + 1)%float) 0%float.

(** Part 2 of [mettre_a_jour_pietons]. [alea] is the value of
    [random.random()] and [choix] the index [random.choice] picks. *)
Definition faire_apparaitre (alea : float) (choix : nat)
    (prochain_id_pieton : Z) (passages_pietons : list Passage.t)
    (pietons_actifs : list Pieton.t) (voitures : list Voiture.t)
  : list Pieton.t * Z :=
  if negb (bool_decide (passages_pietons = []))
     && (alea <? PROBA_APPARITION_PIETON
                 * float_of_nat (length passages_pietons))%float then
    match passages_pietons !! choix with
    | Some passage_choisi =>
        let pos_passage_cible := Passage.position passage_choisi in
        let passage_deja_occupe_par_pieton :=
          existsb (λ p, bool_decide (Pieton.passage_pos p = pos_passage_cible))
                  pietons_actifs in
        let passage_deja_occupe_par_voiture :=
          existsb (λ v, bool_decide (Voiture.position v = pos_passage_cible))
                  voitures in
        if negb passage_deja_occupe_par_pieton
           && negb passage_deja_occupe_par_voiture then
          (pietons_actifs
             ++ [ {| Pieton.id := prochain_id_pieton;
                     Pieton.passage_pos := pos_passage_cible;
                     Pieton.orientation := Passage.orientation passage_choisi;
                     Pieton.progres := 0%float |} ],
           prochain_id_pieton + 1)
        else (pietons_actifs, prochain_id_pieton)
    | None => (pietons_actifs, prochain_id_pieton)
    end
  else (pietons_actifs, prochain_id_pieton).

(** [mettre_a_jour_pietons(passages_pietons, pietons_actifs, voitures)]: the
    new list of active pedestrians and the new value of the global
    [prochain_id_pieton]. *)
Definition mettre_a_jour_pietons (alea : float) (choix : nat)
    (prochain_id_pieton : Z) (passages_pietons : list Passage.t)
    (pietons_actifs : list Pieton.t) (voitures : list Voiture.t)
  : list Pieton.t * Z :=
  faire_apparaitre alea choix prochain_id_pieton passages_pietons
    (faire_avancer pietons_actifs voitures) voitures.

End Pietons.
Export Pietons.

(** ** Ordonnanceur des mouvements *)

Module Ordonnanceur.
Import Voiture.

Definition VITESSE_VOITURE : float := 1.5%float.
Definition DELAI_MIN_MOUVEMENT : float := (1 / VITESSE_VOITURE)%float.
Definition SEUIL_BLOCAGE : float := 1%float.
(** Two thresholds the source declares and no function reads. *)
Definition MAX_RECALCUL_ECHECS : Z := 6.
Definition SEUIL_BLOCAGE_PERMANENT : float := 10%float.
Definition DELAI_DISPARITION_APRES_ARRIVEE : float := 1%float.

(** [est_deplacement_valide(pos, feux, pietons, grille)]. *)
Definition est_deplacement_valide (pos : Position) (feux : list Feu.t)
    (pietons : list Pieton.t) (g : Grille) : bool :=
  if negb (dans_limites (largeur g) (hauteur g) pos) || negb (est_route g pos)
  then false
  else if existsb (λ feu, bool_decide (Feu.position feu = pos)
                          && negb (bool_decide (Feu.etat feu = "vert"))) feux
  then false
  else if existsb (λ p, bool_decide (Pieton.passage_pos p = pos)
                        && (Pieton.progres p <? 1)%float) pietons
  then false
  else true.

(** *** Phase 0 : arrivées *)

Definition marquer_arrivee (temps_actuel : float) (v : Voiture.t)
  : Voiture.t :=
  if en_route v && bool_decide (position v = destination v) then
    set_recalcul_echecs 0
      (set_bloquee_depuis None
         (set_chemin [] (set_temps_arrivee (Some temps_actuel) v)))
  else v.

Definition a_conserver (temps_actuel : float) (v : Voiture.t) : bool :=
  match temps_arrivee v with
  | None => true
  | Some ta => (temps_actuel - ta <? DELAI_DISPARITION_APRES_ARRIVEE)%float
  end.

(** The list [voitures_restantes], which replaces [voitures]. *)
Definition phase_arrivees (temps_actuel : float) (voitures : list Voiture.t)
  : list Voiture.t :=
  filter (λ v, a_conserver temps_actuel v)
         (marquer_arrivee temps_actuel <$> voitures).

(** A list comprehension [[v for v in l if cond(v)]] over aliases of the
    dictionaries of the store. *)
Definition verifie (cond : Voiture.t → bool) (voitures : list Voiture.t)
    (i : nat) : bool :=
  match voitures !! i with
  | Some v => cond v
  | None => false
  end.

Definition selectionner (cond : Voiture.t → bool) (voitures : list Voiture.t)
    (l : list nat) : list nat :=
  filter (λ i, verifie cond voitures i) l.

Definition voitures_en_route (voitures : list Voiture.t) : list nat :=
  selectionner en_route voitures (seq 0 (length voitures)).

(** *** Phase 1 : recalcul des chemins *)

Definition a_besoin_de_chemin (temps_actuel : float) (v : Voiture.t) : bool :=
  bool_decide (chemin v = [])
  || match bloquee_depuis v with
     | Some b => (SEUIL_BLOCAGE <? temps_actuel - b)%float
     | None => false
     end.

(** The body of [for v in cars_needing_pathfind]. *)
Definition recalculer (temps_actuel : float) (g : Grille)
    (directions_lignes colonnes_directions : gmap Z string) (v : Voiture.t)
  : Voiture.t :=
  match trouver_chemin g (position v) (destination v)
          directions_lignes colonnes_directions with
  | Chemin (_ :: p :: reste) =>
      set_recalcul_echecs 0 (set_bloquee_depuis None (set_chemin (p :: reste) v))
  | _ =>
      let v' := set_chemin [] v in
      match bloquee_depuis v with
      | None => set_bloquee_depuis (Some temps_actuel) v'
      | Some _ => v'
      end
  end.

Definition phase_recalcul (temps_actuel : float) (g : Grille)
    (directions_lignes colonnes_directions : gmap Z string)
    (en_route : list nat) (voitures : list Voiture.t) : list Voiture.t :=
  let cars_needing_pathfind :=
    selectionner (a_besoin_de_chemin temps_actuel) voitures en_route in
  foldl (λ vs i,
           match vs !! i with
           | Some v => <[i := recalculer temps_actuel g directions_lignes
                                colonnes_directions v]> vs
           | None => vs
           end)
        voitures cars_needing_pathfind.

(** *** Phase 2 : résolution des mouvements *)

Record Resolution := {
  projected_occupied_cells : gset Position;
  approved_moves : gmap Z Position;
  voitures_res : list Voiture.t
}.

Definition eligible (temps_actuel : float) (v : Voiture.t) : bool :=
  negb (bool_decide (chemin v = []))
  && (DELAI_MIN_MOUVEMENT <=? temps_actuel - dernier_deplacement v)%float.

Definition est_bloquee (v : Voiture.t) : bool :=
  match bloquee_depuis v with Some _ => true | None => false end.

(** [car["bloquee_depuis"]], the sort key of the prioritised cars. *)
Definition cle_blocage (voitures : list Voiture.t) (i : nat) : float :=
  default 0%float (voitures !! i ≫= bloquee_depuis).

Fixpoint inserer (voitures : list Voiture.t) (i : nat) (l : list nat)
  : list nat :=
  match l with
  | [] => [i]
  | j :: l' =>
      if (cle_blocage voitures j <? cle_blocage voitures i)%float
      then j :: inserer voitures i l'
      else i :: j :: l'
  end.

(** [prioritized_cars.sort(key=...)]: the stable ascending sort. *)
Definition trier_par_blocage (voitures : list Voiture.t) (l : list nat)
  : list nat :=
  foldr (inserer voitures) [] l.

(** The body of [for v in voitures_a_resoudre_mouvement]. A car of that list
    has a path; on an empty one Python would raise. *)
Definition resoudre_un (feux : list Feu.t) (pietons : list Pieton.t)
    (g : Grille) (r : Resolution) (i : nat) : Resolution :=
  match voitures_res r !! i with
  | Some v =>
      match chemin v with
      | next_pos :: _ =>
          if bool_decide (next_pos ∉ projected_occupied_cells r)
             && est_deplacement_valide next_pos feux pietons g then
            {| projected_occupied_cells :=
                 projected_occupied_cells r ∪ {[next_pos]};
               approved_moves := <[id v := next_pos]> (approved_moves r);
               voitures_res :=
                 <[i := set_bloquee_depuis None v]> (voitures_res r) |}
          else r
      | [] => r
      end
  | None => r
  end.

Section Resolution.
(** [random.shuffle]: the order it leaves the list in. *)
Variable shuffle : list nat → list nat.

Definition phase_resolution (temps_actuel : float) (feux : list Feu.t)
    (pietons : list Pieton.t) (g : Grille) (en_route : list nat)
    (voitures : list Voiture.t) : Resolution :=
  let voitures_eligibles_pour_mouvement :=
    selectionner (eligible temps_actuel) voitures en_route in
  let prioritized_cars :=
    selectionner est_bloquee voitures voitures_eligibles_pour_mouvement in
  let remaining_cars :=
    selectionner (λ v, negb (est_bloquee v)) voitures
      voitures_eligibles_pour_mouvement in
  let voitures_a_resoudre_mouvement :=
    trier_par_blocage voitures prioritized_cars ++ shuffle remaining_cars in
  foldl (resoudre_un feux pietons g)
    {| projected_occupied_cells :=
         list_to_set (position <$> filter (λ v, Voiture.en_route v) voitures);
       approved_moves := ∅;
       voitures_res := voitures |}
    voitures_a_resoudre_mouvement.

(** *** Phase 3 : application *)

Definition appliquer (temps_actuel : float) (approved : gmap Z Position)
    (v : Voiture.t) : Voiture.t :=
  match approved !! id v with
  | Some new_pos =>
      let dx := new_pos.1 - (position v).1 in
      let dy := new_pos.2 - (position v).2 in
      let o :=
        if (dx =? 1) && (dy =? 0) then 0
        else if (dx =? -1) && (dy =? 0) then 180
        else if (dx =? 0) && (dy =? 1) then 270
        else if (dx =? 0) && (dy =? -1) then 90
        else orientation v in
      let c :=
        match chemin v with
        | p :: reste => if bool_decide (p = new_pos) then reste else chemin v
        | [] => []
        end in
      set_dernier_deplacement temps_actuel
        (set_chemin c (set_position new_pos (set_orientation o v)))
  | None => v
  end.

(** Phases 0 to 2 of [mettre_a_jour_voitures]: the reserved cells, the
    approved moves and the cars when the apply phase starts. *)
Definition resolution_du_tick (temps_actuel : float)
    (voitures : list Voiture.t) (g : Grille) (feux : list Feu.t)
    (directions_lignes colonnes_directions : gmap Z string)
    (pietons : list Pieton.t) : Resolution :=
  let voitures0 := phase_arrivees temps_actuel voitures in
  let en_route := voitures_en_route voitures0 in
  let voitures1 :=
    phase_recalcul temps_actuel g directions_lignes colonnes_directions
      en_route voitures0 in
  phase_resolution temps_actuel feux pietons g en_route voitures1.

(** [mettre_a_jour_voitures(voitures, grille, feux, directions_lignes,
    colonnes_directions, taille_x, taille_y, pietons)], with [time.time()]
    as [temps_actuel]: the list [voitures] after the call. *)
Definition mettre_a_jour_voitures (temps_actuel : float)
    (voitures : list Voiture.t) (g : Grille) (feux : list Feu.t)
    (directions_lignes colonnes_directions : gmap Z string)
    (taille_x taille_y : Z) (pietons : list Pieton.t) : list Voiture.t :=
  let r := resolution_du_tick temps_actuel voitures g feux
             directions_lignes colonnes_directions pietons in
  appliquer temps_actuel (approved_moves r) <$> voitures_res r.
End Resolution.

(** *** Recherche d'une nouvelle destination *)

Definition toutes_positions (taille_x taille_y : Z) : list Position :=
  y ← seqZ 0 taille_y; (λ x, (x, y)) <$> seqZ 0 taille_x.

(** [grille[y][x] in SYMBOLES_NON_PRATICABLES]. *)
Definition non_praticable (g : Grille) (p : Position) : bool :=
  match case_grille g p with
  | Some s => bool_decide (s ∈ SYMBOLES_NON_PRATICABLES)
  | None => false
  end.

Definition positions_interdites_perm (taille_x taille_y : Z)
    (feux : list Feu.t) (g : Grille) : gset Position :=
  positions_feux feux
  ∪ list_to_set (filter (λ p, non_praticable g p)
                        (toutes_positions taille_x taille_y)).

(** The [while tentatives < max_tentatives] loop; [tirage k] is the cell the
    two [random.randrange] calls of round [k] draw. *)
Fixpoint chercher_destination (tentatives : nat) (tirage : nat → Position)
    (k : nat) (pos_actuelle : Position) (interdites : gset Position)
    (taille_x taille_y : Z) (g : Grille)
    (directions_lignes colonnes_directions : gmap Z string)
  : option Position :=
  match tentatives with
  | O => None
  | S n =>
      let dest := tirage k in
      let suite :=
        chercher_destination n tirage (S k) pos_actuelle interdites
          taille_x taille_y g directions_lignes colonnes_directions in
      if dans_limites taille_x taille_y dest
         && est_route g dest
         && bool_decide (dest ≠ pos_actuelle)
         && bool_decide (dest ∉ interdites)
         && est_case_escapable dest taille_x taille_y g then
        match trouver_chemin g pos_actuelle dest
                directions_lignes colonnes_directions with
        | Chemin (_ :: _ :: _) => Some dest
        | _ => suite
        end
      else suite
  end.

(** [trouver_nouvelle_destination_valide(voiture_actuelle, taille_x,
    taille_y, feux, grille, directions_lignes, colonnes_directions,
    voitures)]. *)
Definition trouver_nouvelle_destination_valide (tirage : nat → Position)
    (voiture_actuelle : Voiture.t) (taille_x taille_y : Z)
    (feux : list Feu.t) (g : Grille)
    (directions_lignes colonnes_directions : gmap Z string)
    (voitures : list Voiture.t) : option Position :=
  chercher_destination 300 tirage 0 (position voiture_actuelle)
    (positions_interdites_perm taille_x taille_y feux g)
    taille_x taille_y g directions_lignes colonnes_directions.

End Ordonnanceur.
Export Ordonnanceur.

(** ** Boucle principale : modifications de la grille *)

Module BouclePrincipale.

(** The simulation state the obstacle edits touch. *)
Definition Etat : Type := Grille * list Voiture.t.

(** Left click on the cell [(cx, cy)]. *)
Definition clic_gauche (taille_x taille_y : Z) (feux : list Feu.t)
    (cx cy : Z) (e : Etat) : Etat :=
  if dans_limites taille_x taille_y (cx, cy) then
    let '(ok, g) := ajouter_obstacle_manuel e.1 cx cy feux in
    if ok then (g, forcer_recalcul_si_affecte cx cy e.2) else (g, e.2)
  else e.

(** Right click on the cell [(cx, cy)]. *)
Definition clic_droit (taille_x taille_y : Z) (cx cy : Z) (e : Etat) : Etat :=
  if dans_limites taille_x taille_y (cx, cy) then
    if bool_decide (case_grille e.1 (cx, cy) = Some OBSTACLE_MANUEL)
    then (ecrire_case e.1 (cx, cy) ROUTE, e.2)
    else e
  else e.

(** The cells an automatic obstacle may be added on. *)
Definition possible_add_positions (taille_x taille_y : Z)
    (feux : list Feu.t) (g : Grille) : list Position :=
  filter (λ p, est_route g p
               && bool_decide
                    (p ∉ positions_interdites_perm taille_x taille_y feux g))
         (toutes_positions taille_x taille_y).

(** The [add] action, [random.choice] picking the element of index [choix]. *)
Definition obstacle_auto_ajout (taille_x taille_y : Z) (feux : list Feu.t)
    (choix : nat) (e : Etat) : Etat :=
  match possible_add_positions taille_x taille_y feux e.1 !! choix with
  | Some (ox, oy) =>
      let '(ok, g) := ajouter_obstacle_auto e.1 ox oy feux in
      if ok then (g, forcer_recalcul_si_affecte ox oy e.2) else (g, e.2)
  | None => e
  end.

Definition current_obstacle_auto_positions (taille_x taille_y : Z)
    (g : Grille) : list Position :=
  filter (λ p, case_grille g p = Some OBSTACLE_AUTO_SYM)
         (toutes_positions taille_x taille_y).

(** The [remove] action. *)
Definition obstacle_auto_retrait (taille_x taille_y : Z) (choix : nat)
    (e : Etat) : Etat :=
  match current_obstacle_auto_positions taille_x taille_y e.1 !! choix with
  | Some p => (ecrire_case e.1 p ROUTE, e.2)
  | None => e
  end.

End BouclePrincipale.
Export BouclePrincipale.

(** The four edits of the grid the main loop makes, with the choice the
    automatic ones draw at random. *)
Inductive Edition :=
| ClicGauche (cx cy : Z)
| ClicDroit (cx cy : Z)
| AutoAjout (choix : nat)
| AutoRetrait (choix : nat).

Definition appliquer_edition (taille_x taille_y : Z) (feux : list Feu.t)
    (ed : Edition) (e : Etat) : Etat :=
  match ed with
  | ClicGauche cx cy => clic_gauche taille_x taille_y feux cx cy e
  | ClicDroit cx cy => clic_droit taille_x taille_y cx cy e
  | AutoAjout choix => obstacle_auto_ajout taille_x taille_y feux choix e
  | AutoRetrait choix => obstacle_auto_retrait taille_x taille_y choix e
  end.

(** ** Initialisation du réseau, des feux et des passages *)

Module Initialisation.

(** [definir_reseau_routier(grille, taille_x, taille_y)]: the grid after the
    call. The two loops visit the cells row by row, as [toutes_positions]
    lists them. On a grid smaller than [taille_x] by [taille_y] Python
    raises [IndexError]; the model leaves the missing cells out. *)
Definition definir_reseau_routier (g : Grille) (taille_x taille_y : Z)
  : Grille :=
  foldl (λ g p,
           if (p.1 mod 3 =? 0) || (p.2 mod 3 =? 0)
           then ecrire_case g p ROUTE else g)
        g (toutes_positions taille_x taille_y).

(** [creer_directions_routes(taille_x, taille_y)]: the pair
    [(directions_lignes, directions_colonnes)]. *)
Definition creer_directions_routes (taille_x taille_y : Z)
  : gmap Z string * gmap Z string :=
  (list_to_map
     ((λ y, (y, if y mod 2 =? 0 then "droite" else "gauche"))
        <$> seqZ 0 taille_y),
   list_to_map
     ((λ x, (x, if x mod 2 =? 0 then "bas" else "haut"))
        <$> seqZ 0 taille_x)).

(** *** Passages piétons *)

(** The [while] loop of [initialiser_passages_pietons_sur_routes]; [restant]
    counts the attempts left and [tirage k] is the cell drawn by the two
    [random.randrange] calls of attempt [k]. *)
Fixpoint placer_passages (restant : nat) (tirage : nat → Position) (k : nat)
    (n_passages : nat) (taille_x taille_y : Z) (g : Grille)
    (positions_interdites : gset Position)
    (nouveaux_passages : list Passage.t) : list Passage.t :=
  match restant with
  | O => nouveaux_passages
  | S restant' =>
      if bool_decide (length nouveaux_passages < n_passages)%nat then
        let pos := tirage k in
        let px := pos.1 in
        let py := pos.2 in
        if est_route g pos
           && bool_decide (pos ∉ positions_interdites)
           && bool_decide
                (pos ∉ Passage.position <$> nouveaux_passages) then
          if (0 <? px) && (px <? taille_x - 1)
             && est_route g (px - 1, py) && est_route g (px + 1, py) then
            placer_passages restant' tirage (S k) n_passages
              taille_x taille_y g (positions_interdites ∪ {[pos]})
              (nouveaux_passages ++ [Passage.mk pos "horizontal"])
          else if (0 <? py) && (py <? taille_y - 1)
                  && est_route g (px, py - 1) && est_route g (px, py + 1)
          then
            placer_passages restant' tirage (S k) n_passages
              taille_x taille_y g (positions_interdites ∪ {[pos]})
              (nouveaux_passages ++ [Passage.mk pos "vertical"])
          else
            placer_passages restant' tirage (S k) n_passages
              taille_x taille_y g positions_interdites nouveaux_passages
        else
          placer_passages restant' tirage (S k) n_passages
            taille_x taille_y g positions_interdites nouveaux_passages
      else nouveaux_passages
  end.

(** [grille[y][x] in (OBSTACLE_MANUEL, OBSTACLE_AUTO_SYM)]. *)
Definition est_obstacle (g : Grille) (p : Position) : bool :=
  match case_grille g p with
  | Some s => bool_decide (s ∈ [OBSTACLE_MANUEL; OBSTACLE_AUTO_SYM])
  | None => false
  end.

(** [initialiser_passages_pietons_sur_routes(n_passages, taille_x, taille_y,
    feux, grille)]. *)
Definition initialiser_passages_pietons_sur_routes
    (tirage : nat → Position) (n_passages : nat) (taille_x taille_y : Z)
    (feux : list Feu.t) (g : Grille) : list Passage.t :=
  let positions_interdites :=
    positions_feux feux
    ∪ list_to_set (filter (λ p, est_obstacle g p)
                          (toutes_positions taille_x taille_y)) in
  placer_passages (n_passages * 200) tirage 0 n_passages
    taille_x taille_y g positions_interdites [].

(** *** Feux *)

(** The number of road cells among a cell and its four neighbours. *)
Definition route_voisins (taille_x taille_y : Z) (g : Grille)
    (p : Position) : nat :=
  length (filter (λ d : Z * Z,
                    dans_limites taille_x taille_y (p.1 + d.1, p.2 + d.2)
                    && est_route g (p.1 + d.1, p.2 + d.2))
                 [(0, 0); (0, 1); (0, -1); (1, 0); (-1, 0)]).

(** The list [intersections_candidates] before it is shuffled. *)
Definition intersections_candidates (taille_x taille_y : Z) (g : Grille)
  : list Position :=
  let intersections :=
    filter (λ p, est_route g p
                 && bool_decide (3 ≤ route_voisins taille_x taille_y g p)%nat)
           (toutes_positions taille_x taille_y) in
  if bool_decide (intersections = []) then
    filter (λ p, est_route g p) (toutes_positions taille_x taille_y)
  else intersections.

Record Placement := {
  feux_places : list Feu.t;
  positions_occupees : gset Position;
  feux_par_ligne : gmap Z Z;
  feux_par_colonne : gmap Z Z
}.

(** One turn of [for pos in intersections_candidates]. [temps_actuel] is
    the clock read for the light and [temps_depuis_debut_cycle] the point of
    the cycle its random offset gives. *)
Definition placer_feu (max_feux_par_ligne max_feux_par_colonne : Z)
    (g : Grille) (temps_actuel temps_depuis_debut_cycle : float)
    (st : Placement) (pos : Position) : Placement :=
  let x := pos.1 in
  let y := pos.2 in
  let peut_placer :=
    (default 0 (feux_par_ligne st !! y) <? max_feux_par_ligne)
    && (default 0 (feux_par_colonne st !! x) <? max_feux_par_colonne)
    && bool_decide (pos ∉ positions_occupees st)
    && negb (est_obstacle g pos) in
  if peut_placer then
    {| feux_places :=
         feux_places st
         ++ [nouveau_feu pos temps_actuel temps_depuis_debut_cycle];
       positions_occupees := positions_occupees st ∪ {[pos]};
       feux_par_ligne :=
         <[y := default 0 (feux_par_ligne st !! y) + 1]> (feux_par_ligne st);
       feux_par_colonne :=
         <[x := default 0 (feux_par_colonne st !! x) + 1]>
           (feux_par_colonne st) |}
  else st.

Fixpoint placer_feux (max_feux_par_ligne max_feux_par_colonne : Z)
    (g : Grille) (temps phase : nat → float) (k : nat)
    (candidats : list Position) (st : Placement) : Placement :=
  match candidats with
  | [] => st
  | pos :: reste =>
      placer_feux max_feux_par_ligne max_feux_par_colonne g temps phase
        (S k) reste
        (placer_feu max_feux_par_ligne max_feux_par_colonne g
           (temps k) (phase k) st pos)
  end.

(** [initialiser_feux_repartis_sur_routes(taille_x, taille_y, grille)].
    [shuffle] is the order [random.shuffle] leaves the candidates in;
    [temps k] and [phase k] are the clock and the point of the cycle drawn
    for the candidate of rank [k]. *)
Definition initialiser_feux_repartis_sur_routes
    (shuffle : list Position → list Position) (temps phase : nat → float)
    (taille_x taille_y : Z) (g : Grille) : list Feu.t :=
  let max_feux_par_ligne := Z.max 1 (taille_x / 15) in
  let max_feux_par_colonne := Z.max 1 (taille_y / 8) in
  let candidats := intersections_candidates taille_x taille_y g in
  if bool_decide (candidats = []) then []
  else
    feux_places
      (placer_feux max_feux_par_ligne max_feux_par_colonne g temps phase 0
         (shuffle candidats)
         {| feux_places := []; positions_occupees := ∅;
            feux_par_ligne := ∅; feux_par_colonne := ∅ |}).

End Initialisation.
Export Initialisation.

(** ** Génération des voitures *)

Module Generation.
Import Voiture.

(** The inner loop [for _ in range(tentatives_start)]: the start cell found,
    if any, and the number of draws made so far. [tirage k] is the cell the
    two [random.randrange] calls of draw [k] give. *)
Fixpoint chercher_depart (tentatives : nat) (tirage : nat → Position)
    (k : nat) (taille_x taille_y : Z) (g : Grille)
    (positions_interdites_perm occupied_positions_by_cars : gset Position)
  : option Position * nat :=
  match tentatives with
  | O => (None, k)
  | S n =>
      let pos_candidate := tirage k in
      if dans_limites taille_x taille_y pos_candidate
         && est_route g pos_candidate
         && bool_decide (pos_candidate ∉ positions_interdites_perm)
         && bool_decide (pos_candidate ∉ occupied_positions_by_cars)
         && est_case_escapable pos_candidate taille_x taille_y g
      then (Some pos_candidate, S k)
      else chercher_depart n tirage (S k) taille_x taille_y g
             positions_interdites_perm occupied_positions_by_cars
  end.

(** The inner loop [for _ in range(tentatives_dest)]: the destination and
    the path kept in [chemin_initial]. *)
Fixpoint chercher_arrivee (tentatives : nat) (tirage : nat → Position)
    (k : nat) (pos_initiale : Position) (taille_x taille_y : Z) (g : Grille)
    (positions_interdites_perm : gset Position)
    (directions_lignes colonnes_directions : gmap Z string)
  : option (Position * list Position) * nat :=
  match tentatives with
  | O => (None, k)
  | S n =>
      let dest_candidate := tirage k in
      let suite :=
        chercher_arrivee n tirage (S k) pos_initiale taille_x taille_y g
          positions_interdites_perm directions_lignes colonnes_directions in
      if dans_limites taille_x taille_y dest_candidate
         && est_route g dest_candidate
         && bool_decide (dest_candidate ≠ pos_initiale)
         && bool_decide (dest_candidate ∉ positions_interdites_perm)
         && est_case_escapable dest_candidate taille_x taille_y g
      then
        match trouver_chemin g pos_initiale dest_candidate
                directions_lignes colonnes_directions with
        | Chemin (a :: b :: reste) =>
            (Some (dest_candidate, a :: b :: reste), S k)
        | _ => suite
        end
      else suite
  end.

(** The outer loop [for _ in range(total_attempts_pair)]. *)
Fixpoint chercher_paire (tentatives : nat) (tirage : nat → Position)
    (k : nat) (taille_x taille_y : Z) (g : Grille)
    (positions_interdites_perm occupied_positions_by_cars : gset Position)
    (directions_lignes colonnes_directions : gmap Z string)
  : option (Position * Position * list Position) * nat :=
  match tentatives with
  | O => (None, k)
  | S n =>
      match chercher_depart 50 tirage k taille_x taille_y g
              positions_interdites_perm occupied_positions_by_cars with
      | (None, k1) =>
          chercher_paire n tirage k1 taille_x taille_y g
            positions_interdites_perm occupied_positions_by_cars
            directions_lignes colonnes_directions
      | (Some pos_initiale, k1) =>
          match chercher_arrivee 50 tirage k1 pos_initiale taille_x taille_y
                  g positions_interdites_perm
                  directions_lignes colonnes_directions with
          | (Some (dest, chemin_initial), k2) =>
              (Some (pos_initiale, dest, chemin_initial), k2)
          | (None, k2) =>
              chercher_paire n tirage k2 taille_x taille_y g
                positions_interdites_perm occupied_positions_by_cars
                directions_lignes colonnes_directions
          end
      end
  end.

(** The random source of the generation and the global counter
    [prochain_id_voiture], threaded through the calls. *)
Record Source := {
  tirages_faits : nat;
  prochain_id_voiture : Z
}.

(** [generer_une_nouvelle_voiture(taille_x, taille_y, feux, grille,
    directions_lignes, colonnes_directions, img_base_voiture, voitures)]:
    the car or [None], and the source after the call. [horloge k] is what
    [time.time()] returns for a car created after [k] draws. The colour and
    the image of the car are left out. *)
Definition generer_une_nouvelle_voiture (tirage : nat → Position)
    (horloge : nat → float) (s : Source) (taille_x taille_y : Z)
    (feux : list Feu.t) (g : Grille)
    (directions_lignes colonnes_directions : gmap Z string)
    (voitures : list Voiture.t) : option Voiture.t * Source :=
  let positions_interdites_perm :=
    positions_interdites_perm taille_x taille_y feux g in
  let occupied_positions_by_cars : gset Position :=
    list_to_set (position <$> filter (λ v, en_route v) voitures) in
  match chercher_paire 1000 tirage (tirages_faits s) taille_x taille_y g
          positions_interdites_perm occupied_positions_by_cars
          directions_lignes colonnes_directions with
  | (Some (pos_initiale, dest, chemin_initial), k) =>
      (Some {| id := prochain_id_voiture s;
               position := pos_initiale;
               destination := dest;
               chemin := drop 1 chemin_initial;
               temps_arrivee := None;
               dernier_deplacement := horloge k;
               orientation := 0;
               bloquee_depuis := None;
               recalcul_echecs := 0 |},
       {| tirages_faits := k;
          prochain_id_voiture := prochain_id_voiture s + 1 |})
  | (None, k) =>
      (None, {| tirages_faits := k;
                prochain_id_voiture := prochain_id_voiture s |})
  end.

(** The [while] loop of [generer_voitures_initiales]; [restant] counts the
    attempts left. *)
Fixpoint boucle_generation_initiale (restant : nat)
    (tirage : nat → Position) (horloge : nat → float) (s : Source)
    (taille_x taille_y : Z) (feux : list Feu.t) (g : Grille)
    (directions_lignes colonnes_directions : gmap Z string)
    (n_voitures : nat) (initial_voitures : list Voiture.t)
  : list Voiture.t * Source :=
  match restant with
  | O => (initial_voitures, s)
  | S restant' =>
      if bool_decide (length initial_voitures < n_voitures)%nat then
        match generer_une_nouvelle_voiture tirage horloge s taille_x taille_y
                feux g directions_lignes colonnes_directions
                initial_voitures with
        | (Some nouvelle_voiture, s') =>
            boucle_generation_initiale restant' tirage horloge s'
              taille_x taille_y feux g directions_lignes colonnes_directions
              n_voitures (initial_voitures ++ [nouvelle_voiture])
        | (None, s') =>
            boucle_generation_initiale restant' tirage horloge s'
              taille_x taille_y feux g directions_lignes colonnes_directions
              n_voitures initial_voitures
        end
      else (initial_voitures, s)
  end.

(** [generer_voitures_initiales(taille_x, taille_y, feux, grille,
    directions_lignes, colonnes_directions, img_base_voiture, n_voitures)]. *)
Definition generer_voitures_initiales (tirage : nat → Position)
    (horloge : nat → float) (s : Source) (taille_x taille_y : Z)
    (feux : list Feu.t) (g : Grille)
    (directions_lignes colonnes_directions : gmap Z string)
    (n_voitures : nat) : list Voiture.t * Source :=
  boucle_generation_initiale (n_voitures * 2) tirage horloge s
    taille_x taille_y feux g directions_lignes colonnes_directions
    n_voitures [].

Definition NOMBRE_VOITURES_CIBLE : nat := 50.

(** The regeneration loop of the main loop,
    [while len(voitures) < NOMBRE_VOITURES_CIBLE]: each turn appends a car
    or leaves the loop, so [restant], the number of cars missing, bounds
    it. *)
Fixpoint boucle_regeneration (restant : nat) (tirage : nat → Position)
    (horloge : nat → float) (s : Source) (taille_x taille_y : Z)
    (feux : list Feu.t) (g : Grille)
    (directions_lignes colonnes_directions : gmap Z string)
    (voitures : list Voiture.t) : list Voiture.t * Source :=
  match restant with
  | O => (voitures, s)
  | S restant' =>
      match generer_une_nouvelle_voiture tirage horloge s taille_x taille_y
              feux g directions_lignes colonnes_directions voitures with
      | (Some nouvelle_voiture, s') =>
          boucle_regeneration restant' tirage horloge s' taille_x taille_y
            feux g directions_lignes colonnes_directions
            (voitures ++ [nouvelle_voiture])
      | (None, s') => (voitures, s')
      end
  end.

Definition regenerer (tirage : nat → Position) (horloge : nat → float)
    (s : Source) (taille_x taille_y : Z) (feux : list Feu.t) (g : Grille)
    (directions_lignes colonnes_directions : gmap Z string)
    (voitures : list Voiture.t) : list Voiture.t * Source :=
  boucle_regeneration (NOMBRE_VOITURES_CIBLE - length voitures) tirage
    horloge s taille_x taille_y feux g directions_lignes colonnes_directions
    voitures.

End Generation.
Export Generation.

(** ** La simulation : état initial et une itération de la boucle *)

Module Simulation.

Definition OBSTACLE_AUTOMATIQUE_INTERVAL : float := 0.5%float.
Definition NB_PASSAGES_PIETONS : nat := 10.

(** The global variables of the script that the logic reads and writes.
    The two direction dictionaries and the grid sizes never change and are
    parameters of the functions below. *)
Record Monde := {
  grille : Grille;
  voitures : list Voiture.t;
  feux : list Feu.t;
  passages_pietons : list Passage.t;
  pietons_actifs : list Pieton.t;
  source : Source;
  prochain_id_pieton : Z;
  obstacle_automatique_timer : float
}.

(** A [MOUSEBUTTONDOWN] event: its button and the cell
    [event.pos // TAILLE_CELLULE]. The other events only stop the loop. *)
Record Clic := { bouton : Z; cx : Z; cy : Z }.

(** What one iteration reads from outside: the frame time, the events, the
    clock and the random source. *)
Record Entrees := {
  dt : float;
  clics : list Clic;
  action : string;
  choix_obstacle : nat;
  temps_feux : float;
  alea_pieton : float;
  choix_pieton : nat;
  temps_voitures : float;
  melange : list nat → list nat;
  tirage : nat → Position;
  horloge : nat → float
}.

(** The body of [for event in pygame.event.get()] for a click. *)
Definition traiter_clic (taille_x taille_y : Z) (feux : list Feu.t)
    (e : Etat) (c : Clic) : Etat :=
  if bouton c =? 1 then clic_gauche taille_x taille_y feux (cx c) (cy c) e
  else if bouton c =? 3 then clic_droit taille_x taille_y (cx c) (cy c) e
  else e.

(** The automatic-obstacle block: the timer and the state after it. *)
Definition obstacles_automatiques (taille_x taille_y : Z)
    (feux : list Feu.t) (inp : Entrees) (timer : float) (e : Etat)
  : float * Etat :=
  let timer := (timer + dt inp)%float in
  if (OBSTACLE_AUTOMATIQUE_INTERVAL <=? timer)%float then
    ((timer - OBSTACLE_AUTOMATIQUE_INTERVAL)%float,
     if bool_decide (action inp = "add") then
       obstacle_auto_ajout taille_x taille_y feux (choix_obstacle inp) e
     else if bool_decide (action inp = "remove") then
       obstacle_auto_retrait taille_x taille_y (choix_obstacle inp) e
     else e)
  else (timer, e).

(** One iteration of the main loop, without the drawing. *)
Definition iteration (taille_x taille_y : Z)
    (lignes_directions colonnes_directions : gmap Z string)
    (inp : Entrees) (m : Monde) : Monde :=
  let e1 :=
    foldl (traiter_clic taille_x taille_y (feux m))
          (grille m, voitures m) (clics inp) in
  let te :=
    obstacles_automatiques taille_x taille_y (feux m) inp
      (obstacle_automatique_timer m) e1 in
  let e2 := te.2 in
  let feux' := mettre_a_jour_feux (temps_feux inp) (feux m) in
  let pp :=
    mettre_a_jour_pietons (alea_pieton inp) (choix_pieton inp)
      (prochain_id_pieton m) (passages_pietons m) (pietons_actifs m) e2.2 in
  let voitures' :=
    mettre_a_jour_voitures (melange inp) (temps_voitures inp) e2.2 e2.1
      feux' lignes_directions colonnes_directions taille_x taille_y pp.1 in
  let vs :=
    regenerer (tirage inp) (horloge inp) (source m) taille_x taille_y feux'
      e2.1 lignes_directions colonnes_directions voitures' in
  {| grille := e2.1;
     voitures := vs.1;
     feux := feux';
     passages_pietons := passages_pietons m;
     pietons_actifs := pp.1;
     source := vs.2;
     prochain_id_pieton := pp.2;
     obstacle_automatique_timer := te.1 |}.

(** What the initialisation reads from outside. *)
Record EntreesInitiales := {
  melange_feux : list Position → list Position;
  temps_initial : nat → float;
  phase_initiale : nat → float;
  tirage_passages : nat → Position;
  tirage_voitures : nat → Position;
  horloge_initiale : nat → float
}.

(** The state the script builds before it enters the loop. *)
Definition monde_initial (ini : EntreesInitiales) (taille_x taille_y : Z)
  : Monde :=
  let g :=
    definir_reseau_routier
      (creer_grille (Z.to_nat taille_x) (Z.to_nat taille_y))
      taille_x taille_y in
  let directions := creer_directions_routes taille_x taille_y in
  let feux :=
    initialiser_feux_repartis_sur_routes (melange_feux ini)
      (temps_initial ini) (phase_initiale ini) taille_x taille_y g in
  let passages :=
    initialiser_passages_pietons_sur_routes (tirage_passages ini)
      NB_PASSAGES_PIETONS taille_x taille_y feux g in
  let vs :=
    generer_voitures_initiales (tirage_voitures ini) (horloge_initiale ini)
      {| tirages_faits := 0; prochain_id_voiture := 1 |}
      taille_x taille_y feux g directions.1 directions.2
      NOMBRE_VOITURES_CIBLE in
  {| grille := g;
     voitures := vs.1;
     feux := feux;
     passages_pietons := passages;
     pietons_actifs := [];
     source := vs.2;
     prochain_id_pieton := 0;
     obstacle_automatique_timer := 0%float |}.

End Simulation.

(** ** Itinéraires légaux et invariant de la recherche *)

Module Itineraires.

Section Itineraires.
Variable grille : Grille.
Variables directions_lignes directions_colonnes : gmap Z string.

(** A cell of the grid that holds the road symbol. *)
Definition praticable (p : Position) : Prop :=
  dans_limites (largeur grille) (hauteur grille) p = true
  ∧ case_grille grille p = Some ROUTE.

(** One orthogonal unit move from [u] onto the road cell [v], in the
    direction its row (horizontal move) or column (vertical move) allows. *)
Definition mouvement_legal (u v : Position) : Prop :=
  praticable v
  ∧ ((v = (u.1 + 1, u.2) ∧ directions_lignes !! u.2 = Some "droite")
     ∨ (v = (u.1 - 1, u.2) ∧ directions_lignes !! u.2 = Some "gauche")
     ∨ (v = (u.1, u.2 + 1) ∧ directions_colonnes !! u.1 = Some "bas")
     ∨ (v = (u.1, u.2 - 1) ∧ directions_colonnes !! u.1 = Some "haut")).

(** [itineraire u w l]: [l] lists the cells of a route from [u] to [w],
    both included; all are road cells and each step is a legal move. *)
Inductive itineraire : Position → Position → list Position → Prop :=
| itineraire_fin u : praticable u → itineraire u u [u]
| itineraire_pas u v w l :
    praticable u → mouvement_legal u v → itineraire v w l →
    itineraire u w (u :: l).

(** All the cells of the grid, row by row. *)
Definition cellules : list Position :=
  y ← seq 0 (length grille);
  (λ x, (Z.of_nat x, Z.of_nat y)) <$> seq 0 (length (hd [] grille)).

Definition nb_cellules : Z :=
  Z.of_nat (length grille * length (hd [] grille)).

Section Invariant.
Variables depart arrivee : Position.

(** The edge [u -> v] has been relaxed. *)
Definition relache (st : EtatRecherche) (u v : Position) : Prop :=
  ∃ gu gv, cout_g st !! u = Some gu ∧ cout_g st !! v = Some gv
           ∧ gv ≤ gu + 1.

(** The invariant of the [while] loop. [en_cours] is the node being
    expanded, if any, and [faits] the directions already tried for it. *)
Record invariant (st : EtatRecherche) (en_cours : option Position)
    (faits : list (Z * Z)) : Prop := {
  inv_depart :
    cout_g st !! depart = Some 0 ∧ precedent st !! depart = Some None;
  inv_positif : ∀ v gv, cout_g st !! v = Some gv → 0 ≤ gv;
  inv_precedent : ∀ v gv,
    cout_g st !! v = Some gv → v ≠ depart →
    ∃ u gu, precedent st !! v = Some (Some u)
            ∧ cout_g st !! u = Some gu
            ∧ mouvement_legal u v ∧ gu + 1 ≤ gv;
  inv_temoin : ∀ v gv,
    cout_g st !! v = Some gv →
    ∃ l, itineraire depart v l ∧ Z.of_nat (length l) = gv + 1 ∧ NoDup l
         ∧ ∀ i x, l !! i = Some x →
                  ∃ gx, cout_g st !! x = Some gx ∧ gx ≤ Z.of_nat i;
  inv_ouverte : ∀ p v,
    (p, v) ∈ ouverte st →
    ∃ gv, cout_g st !! v = Some gv ∧ gv + heuristique v arrivee ≤ p;
  inv_frontiere : ∀ v gv,
    cout_g st !! v = Some gv →
    (gv + heuristique v arrivee, v) ∈ ouverte st
    ∨ (v ≠ arrivee ∧ ∀ w, mouvement_legal v w → relache st v w)
    ∨ (en_cours = Some v ∧ v ≠ arrivee
       ∧ ∀ d, d ∈ faits →
              voisin_admis grille directions_lignes directions_colonnes
                v d = true →
              relache st v (v.1 + d.1, v.2 + d.2))
}.

(** The variant of the loop: queue length plus, for every cell, its
    current cost (the number of cells while it has none). *)
Definition potentiel (g : gmap Position Z) : Z :=
  foldr (λ v acc, default nb_cellules (g !! v) + acc) 0 cellules.

Definition mesure (st : EtatRecherche) : Z :=
  Z.of_nat (length (ouverte st)) + potentiel (cout_g st).
End Invariant.
End Itineraires.

End Itineraires.
Export Itineraires.

(** A route from [depart] to [arrivee] with the least number of moves (a
    route of [n] cells makes [n - 1] moves). *)
Definition plus_court_itineraire (grille : Grille)
    (directions_lignes directions_colonnes : gmap Z string)
    (depart arrivee : Position) (p : list Position) : Prop :=
  itineraire grille directions_lignes directions_colonnes depart arrivee p
  ∧ ∀ r, itineraire grille directions_lignes directions_colonnes
           depart arrivee r →
         (length p - 1 ≤ length r - 1)%nat.

(** The example of the specification: a cross of roads in a 5x5 grid, row 2
    towards +x and column 2 towards +y. *)
Module Exemple.
Definition grille_croix : Grille :=
  [ ["N"; "N"; " "; "N"; "N"];
    ["N"; "N"; " "; "N"; "N"];
    [" "; " "; " "; " "; " "];
    ["N"; "N"; " "; "N"; "N"];
    ["N"; "N"; " "; "N"; "N"] ].
Definition lignes_croix : gmap Z string := {[ 2 := "droite" ]}.
Definition colonnes_croix : gmap Z string := {[ 2 := "bas" ]}.
End Exemple.

(** ** Prédicats des énoncés *)

Module Enonces.

(** The grid [g'] is [g] with the symbol [s] written at [p]. *)
Definition grille_modifiee (g g' : Grille) (p : Position) (s : string)
  : Prop :=
  ∀ q, case_grille g' q = if decide (q = p) then Some s else case_grille g q.

(** The cell [p] may receive an obstacle: it is a road cell, no traffic
    light stands on it and it holds no obstacle. *)
Definition placement_possible (g : Grille) (feux : list Feu.t)
    (p : Position) : Prop :=
  case_grille g p = Some ROUTE
  ∧ (∀ feu, feu ∈ feux → Feu.position feu ≠ p)
  ∧ case_grille g p ≠ Some OBSTACLE_MANUEL
  ∧ case_grille g p ≠ Some OBSTACLE_AUTO_SYM.

(** The three phases of a traffic light and their cyclic order. *)
Definition phase_valide (e : string) : Prop :=
  e = "vert" ∨ e = "orange" ∨ e = "rouge".

Definition phase_suivante (e e' : string) : Prop :=
  (e = "vert" ∧ e' = "orange") ∨ (e = "orange" ∧ e' = "rouge")
  ∨ (e = "rouge" ∧ e' = "vert").

(** The duration configured for the phase [e] of the light [feu]. *)
Definition duree_de_phase (feu : Feu.t) (e : string) : float :=
  if bool_decide (e = "vert") then Feu.duree_vert feu
  else if bool_decide (e = "orange") then Feu.duree_orange feu
  else Feu.duree_rouge feu.

(** [temps_actuel - dernier_changement > duree_actuelle]. *)
Definition phase_echue (temps_actuel : float) (feu : Feu.t) : Prop :=
  (Feu.duree_actuelle feu
   <? temps_actuel - Feu.dernier_changement feu)%float = true.



(** The effect the forced-replan hook has for an obstacle edit at [c]: every
    car that has not arrived, does not stand on [c] and has [c] on its path
    or as its destination, has its path emptied and its [bloquee_depuis]
    left as it was. *)
Definition replanification_forcee (c : Position)
    (avant apres : list Voiture.t) : Prop :=
  Forall2 (λ v v',
             Voiture.en_route v = true → Voiture.position v ≠ c →
             c ∈ Voiture.chemin v ∨ Voiture.destination v = c →
             Voiture.chemin v' = []
             ∧ Voiture.bloquee_depuis v' = Voiture.bloquee_depuis v)
          avant apres.

(** The cells of the cars that have not arrived. *)
Definition positions_actives (voitures : list Voiture.t) : list Position :=
  Voiture.position <$> filter (λ v, Voiture.en_route v) voitures.

(** No two cars that have not arrived stand on the same cell. *)
Definition exclusion_mutuelle (voitures : list Voiture.t) : Prop :=
  NoDup (positions_actives voitures).

(** The cell [c] is closed to cars: a light that is not green stands on it,
    or a pedestrian whose progress is below 1 is crossing on it. *)
Definition case_fermee (feux : list Feu.t) (pietons : list Pieton.t)
    (c : Position) : Prop :=
  (∃ feu, feu ∈ feux ∧ Feu.position feu = c ∧ Feu.etat feu ≠ "vert")
  ∨ (∃ p, p ∈ pietons ∧ Pieton.passage_pos p = c
          ∧ (Pieton.progres p <? 1)%float = true).


(** [v'] is the car [v] later in the same tick, before the apply phase:
    same identity, cell, destination and arrival time, and a failure count
    that is the same or back to 0. *)
Definition meme_voiture (v v' : Voiture.t) : Prop :=
  Voiture.id v' = Voiture.id v
  ∧ Voiture.position v' = Voiture.position v
  ∧ Voiture.destination v' = Voiture.destination v
  ∧ Voiture.temps_arrivee v' = Voiture.temps_arrivee v
  ∧ (Voiture.recalcul_echecs v' = Voiture.recalcul_echecs v
     ∨ Voiture.recalcul_echecs v' = 0).

(** The invariant of the resolution loop over the cars [voitures1] it
    starts from. *)
Record inv_resolution (voitures1 : list Voiture.t) (feux : list Feu.t)
    (pietons : list Pieton.t) (g : Grille) (r : Resolution) : Prop := {
  res_voitures :
    Forall2 (λ v v', meme_voiture v v'
                     ∧ Voiture.chemin v' = Voiture.chemin v
                     ∧ Voiture.recalcul_echecs v' = Voiture.recalcul_echecs v)
            voitures1 (voitures_res r);
  res_projected : ∀ p,
    p ∈ positions_actives voitures1
    ∨ (∃ k, approved_moves r !! k = Some p) →
    p ∈ projected_occupied_cells r;
  res_approved : ∀ k p,
    approved_moves r !! k = Some p →
    (p ∉ positions_actives voitures1)
    ∧ est_deplacement_valide p feux pietons g = true;
  res_injectif : ∀ k k' p,
    approved_moves r !! k = Some p → approved_moves r !! k' = Some p → k = k'
}.

(** [n] successive calls of [mettre_a_jour_voitures], two seconds apart
    from [temps_actuel] on, with nothing else changing in between. *)
Fixpoint repeter_ticks (n : nat) (temps_actuel : float)
    (voitures : list Voiture.t) (g : Grille) (feux : list Feu.t)
    (directions_lignes colonnes_directions : gmap Z string)
    (taille_x taille_y : Z) (pietons : list Pieton.t) : list Voiture.t :=
  match n with
  | O => voitures
  | S n =>
      repeter_ticks n (temps_actuel + 2)%float
        (mettre_a_jour_voitures (λ l, l) temps_actuel voitures g feux
           directions_lignes colonnes_directions taille_x taille_y pietons)
        g feux directions_lignes colonnes_directions taille_x taille_y pietons
  end.

End Enonces.
Export Enonces.

(** Cars and lights on the cross of the example. *)
Module Scenario.
Import Exemple.

(** The cross with a manual obstacle on its centre. *)
Definition grille_barree : Grille :=
  ecrire_case grille_croix (2, 2) OBSTACLE_MANUEL.

(** The car of the example: at (0, 2), bound for (2, 4), no path yet. *)
Definition voiture_ouest : Voiture.t :=
  Voiture.mk 1 (0, 2) (2, 4) [] None 0%float 0 None 0.

(** A car at (1, 2) with the rest of the route to (2, 4) as its path. *)
Definition voiture_centre : Voiture.t :=
  Voiture.mk 2 (1, 2) (2, 4) [(2, 2); (2, 3); (2, 4)] None 0%float 0 None 0.

(** The car of the example on its way: at (0, 2) with the route to (2, 4)
    as its path. *)
Definition voiture_ouest_en_chemin : Voiture.t :=
  Voiture.mk 1 (0, 2) (2, 4) [(1, 2); (2, 2); (2, 3); (2, 4)]
    None 0%float 0 None 0.

(** A red light on (1, 2). *)
Definition feu_rouge : Feu.t :=
  Feu.mk (1, 2) "rouge" 10%float 3%float 7%float 7%float 0%float.
End Scenario.

(** ** Prédicats des propriétés complémentaires *)

Module Complements.

(** What an edit may do to the symbol of a cell: put an obstacle on a road
    cell, or turn an obstacle back into road. *)
Definition changement_permis (avant apres : option string) : Prop :=
  (avant = Some ROUTE ∧ apres = Some OBSTACLE_MANUEL)
  ∨ (avant = Some ROUTE ∧ apres = Some OBSTACLE_AUTO_SYM)
  ∨ (avant = Some OBSTACLE_MANUEL ∧ apres = Some ROUTE)
  ∨ (avant = Some OBSTACLE_AUTO_SYM ∧ apres = Some ROUTE).

(** The test a drawn cell [d] passes to become the new destination of a car
    standing on [pos]. *)
Definition destination_admissible (pos : Position)
    (interdites : gset Position) (taille_x taille_y : Z) (g : Grille)
    (directions_lignes colonnes_directions : gmap Z string) (d : Position)
  : bool :=
  dans_limites taille_x taille_y d
  && est_route g d
  && bool_decide (d ≠ pos)
  && bool_decide (d ∉ interdites)
  && est_case_escapable d taille_x taille_y g
  && match trouver_chemin g pos d directions_lignes colonnes_directions with
     | Chemin (_ :: _ :: _) => true
     | _ => false
     end.

(** The state of the pedestrians between two updates: at most one on a
    crossing, distinct identifiers below the counter, every pedestrian still
    crossing, on a crossing of the list and with its orientation. *)
Record pietons_coherents (passages : list Passage.t)
    (pietons : list Pieton.t) (prochain_id_pieton : Z) : Prop := {
  pc_un_par_passage : NoDup (Pieton.passage_pos <$> pietons);
  pc_ids : NoDup (Pieton.id <$> pietons);
  pc_ids_bornes : ∀ p, p ∈ pietons → Pieton.id p < prochain_id_pieton;
  pc_en_traversee : ∀ p, p ∈ pietons → en_traversee p = true;
  pc_sur_passage : ∀ p,
    p ∈ pietons →
    ∃ c, c ∈ passages ∧ Passage.position c = Pieton.passage_pos p
         ∧ Passage.orientation c = Pieton.orientation p
}.

(** No car that has not arrived stands on the crossing of an active
    pedestrian. *)
Definition separes (voitures : list Voiture.t) (pietons : list Pieton.t)
  : Prop :=
  ∀ v p, v ∈ voitures → Voiture.en_route v = true → p ∈ pietons →
         Pieton.passage_pos p ≠ Voiture.position v.

(** One unit step from [u] to [v] in the direction the row or the column of
    [u] allows. *)
Definition pas_permis (directions_lignes directions_colonnes : gmap Z string)
    (u v : Position) : Prop :=
  (v = (u.1 + 1, u.2) ∧ directions_lignes !! u.2 = Some "droite")
  ∨ (v = (u.1 - 1, u.2) ∧ directions_lignes !! u.2 = Some "gauche")
  ∨ (v = (u.1, u.2 + 1) ∧ directions_colonnes !! u.1 = Some "bas")
  ∨ (v = (u.1, u.2 - 1) ∧ directions_colonnes !! u.1 = Some "haut").

(** The cells of [l] are reached one after the other from [u] by allowed
    steps. *)
Fixpoint chaine (directions_lignes directions_colonnes : gmap Z string)
    (u : Position) (l : list Position) : Prop :=
  match l with
  | [] => True
  | p :: l' =>
      pas_permis directions_lignes directions_colonnes u p
      ∧ chaine directions_lignes directions_colonnes p l'
  end.

(** The stored path of a car leads from its cell to its destination by
    allowed steps, or is empty. *)
Definition chemin_coherent
    (directions_lignes directions_colonnes : gmap Z string) (v : Voiture.t)
  : Prop :=
  chaine directions_lignes directions_colonnes
    (Voiture.position v) (Voiture.chemin v)
  ∧ (Voiture.chemin v = []
     ∨ last (Voiture.chemin v) = Some (Voiture.destination v)).

(** The orientation the apply phase gives a car for the step [u -> v]. *)
Definition orientation_du_pas (u v : Position) : Z :=
  if bool_decide (v = (u.1 + 1, u.2)) then 0
  else if bool_decide (v = (u.1 - 1, u.2)) then 180
  else if bool_decide (v = (u.1, u.2 + 1)) then 270
  else 90.

(** The invariant of the resolution loop that ties each approved move to
    the car that obtained it. *)
Record inv_mouvements (candidats : list nat)
    (voitures1 : list Voiture.t) (r : Resolution) : Prop := {
  mv_suite :
    Forall2 (λ v v', v' = v ∨ v' = Voiture.set_bloquee_depuis None v)
            voitures1 (voitures_res r);
  mv_approuve : ∀ k p,
    approved_moves r !! k = Some p →
    ∃ i v, i ∈ candidats ∧ voitures1 !! i = Some v ∧ Voiture.id v = k
           ∧ head (Voiture.chemin v) = Some p
           ∧ voitures_res r !! i = Some (Voiture.set_bloquee_depuis None v);
  mv_refuse : ∀ i v,
    voitures1 !! i = Some v → approved_moves r !! Voiture.id v = None →
    voitures_res r !! i = Some v
}.

End Complements.
Export Complements.

Module ComplementsInitialisation.

(** A crossing as [initialiser_passages_pietons_sur_routes] accepts it: on a
    road cell strictly inside the grid along its axis, between two road
    cells of its row (horizontal) or of its column (vertical). *)
Definition passage_valide (taille_x taille_y : Z) (g : Grille)
    (c : Passage.t) : Prop :=
  let px := (Passage.position c).1 in
  let py := (Passage.position c).2 in
  est_route g (px, py) = true
  ∧ ((Passage.orientation c = "horizontal"
      ∧ 0 < px < taille_x - 1
      ∧ est_route g (px - 1, py) = true ∧ est_route g (px + 1, py) = true)
     ∨ (Passage.orientation c = "vertical"
        ∧ 0 < py < taille_y - 1
        ∧ est_route g (px, py - 1) = true ∧ est_route g (px, py + 1) = true
        ∧ ¬ (0 < px < taille_x - 1
             ∧ est_route g (px - 1, py) = true
             ∧ est_route g (px + 1, py) = true))).

(** The number of lights on the row [y], on the column [x]. *)
Definition feux_sur_ligne (feux : list Feu.t) (y : Z) : nat :=
  length (filter (λ f, (Feu.position f).2 = y) feux).

Definition feux_sur_colonne (feux : list Feu.t) (x : Z) : nat :=
  length (filter (λ f, (Feu.position f).1 = x) feux).

(** The invariant of the placement loop of the lights. *)
Record inv_placement (max_l max_c : Z) (g : Grille)
    (candidats : list Position) (st : Placement) : Prop := {
  ip_occupees : ∀ p,
    p ∈ positions_occupees st ↔ p ∈ Feu.position <$> feux_places st;
  ip_distincts : NoDup (Feu.position <$> feux_places st);
  ip_lignes : ∀ y,
    default 0 (feux_par_ligne st !! y)
    = Z.of_nat (feux_sur_ligne (feux_places st) y);
  ip_colonnes : ∀ x,
    default 0 (feux_par_colonne st !! x)
    = Z.of_nat (feux_sur_colonne (feux_places st) x);
  ip_max_lignes : ∀ y,
    Z.of_nat (feux_sur_ligne (feux_places st) y) ≤ max_l;
  ip_max_colonnes : ∀ x,
    Z.of_nat (feux_sur_colonne (feux_places st) x) ≤ max_c;
  ip_feux : ∀ f,
    f ∈ feux_places st →
    Feu.position f ∈ candidats
    ∧ est_obstacle g (Feu.position f) = false
    ∧ phase_valide (Feu.etat f)
}.

End ComplementsInitialisation.
Export ComplementsInitialisation.

Module ComplementsFlotte.

(** The state of the cars between two steps of the simulation: distinct
    identifiers below the counter [prochain_id_voiture], no two cars in
    route on one cell, and coherent stored paths. *)
Record flotte_coherente
    (directions_lignes colonnes_directions : gmap Z string)
    (voitures : list Voiture.t) (prochain_id : Z) : Prop := {
  fc_ids : NoDup (Voiture.id <$> voitures);
  fc_ids_bornes : ∀ v, v ∈ voitures → Voiture.id v < prochain_id;
  fc_exclusion : exclusion_mutuelle voitures;
  fc_chemins :
    Forall (chemin_coherent directions_lignes colonnes_directions) voitures
}.

(** What [generer_une_nouvelle_voiture] guarantees of the car [v] it
    returns, for the cars [voitures] it was given. *)
Record voiture_neuve (taille_x taille_y : Z) (feux : list Feu.t)
    (g : Grille) (directions_lignes colonnes_directions : gmap Z string)
    (voitures : list Voiture.t) (v : Voiture.t) : Prop := {
  vn_etat :
    Voiture.temps_arrivee v = None ∧ Voiture.bloquee_depuis v = None
    ∧ Voiture.recalcul_echecs v = 0 ∧ Voiture.orientation v = 0;
  vn_depart :
    dans_limites taille_x taille_y (Voiture.position v) = true
    ∧ est_route g (Voiture.position v) = true
    ∧ est_case_escapable (Voiture.position v) taille_x taille_y g = true
    ∧ (Voiture.position v ∉ positions_feux feux)
    ∧ (Voiture.position v ∉ positions_actives voitures);
  vn_arrivee :
    Voiture.destination v ≠ Voiture.position v
    ∧ dans_limites taille_x taille_y (Voiture.destination v) = true
    ∧ est_route g (Voiture.destination v) = true
    ∧ est_case_escapable (Voiture.destination v) taille_x taille_y g = true
    ∧ (Voiture.destination v ∉ positions_feux feux);
  vn_chemin :
    Voiture.chemin v ≠ []
    ∧ plus_court_itineraire g directions_lignes colonnes_directions
        (Voiture.position v) (Voiture.destination v)
        (Voiture.position v :: Voiture.chemin v)
}.

End ComplementsFlotte.
Export ComplementsFlotte.

Module ComplementsSimulation.

(** The symbols of the grid follow the initial network: inside the limits
    a cell off the network is non-road, and a cell of the network is a road
    cell or holds an obstacle. *)
Definition reseau_respecte (taille_x taille_y : Z) (g : Grille) : Prop :=
  ∀ p, dans_limites taille_x taille_y p = true →
       if (p.1 mod 3 =? 0) || (p.2 mod 3 =? 0)
       then case_grille g p = Some ROUTE
            ∨ case_grille g p = Some OBSTACLE_MANUEL
            ∨ case_grille g p = Some OBSTACLE_AUTO_SYM
       else case_grille g p = Some NON_ROUTIER.

(** The lights stand on distinct road cells and each is in one of the
    three phases. *)
Record feux_coherents (g : Grille) (feux : list Feu.t) : Prop := {
  fx_distincts : NoDup (Feu.position <$> feux);
  fx_route : ∀ f, f ∈ feux → case_grille g (Feu.position f) = Some ROUTE;
  fx_phases : ∀ f, f ∈ feux → phase_valide (Feu.etat f)
}.

(** The part of the invariant the edits of the grid work on: the grid, the
    cells of the lights and the cars. *)
Record etat_coherent (taille_x taille_y : Z)
    (lignes_directions colonnes_directions : gmap Z string)
    (feux : list Feu.t) (prochain_id : Z) (n : nat) (e : Etat) : Prop := {
  ec_rect : grille_rect e.1;
  ec_dims : largeur e.1 = taille_x ∧ hauteur e.1 = taille_y;
  ec_reseau : reseau_respecte taille_x taille_y e.1;
  ec_feux : ∀ f, f ∈ feux → case_grille e.1 (Feu.position f) = Some ROUTE;
  ec_flotte :
    flotte_coherente lignes_directions colonnes_directions e.2 prochain_id;
  ec_population : length e.2 = n
}.

(** The invariant of the simulation. *)
Record monde_coherent (taille_x taille_y : Z)
    (lignes_directions colonnes_directions : gmap Z string)
    (m : Simulation.Monde) : Prop := {
  mc_rect : grille_rect (Simulation.grille m);
  mc_dims :
    largeur (Simulation.grille m) = taille_x
    ∧ hauteur (Simulation.grille m) = taille_y;
  mc_reseau : reseau_respecte taille_x taille_y (Simulation.grille m);
  mc_feux : feux_coherents (Simulation.grille m) (Simulation.feux m);
  mc_flotte :
    flotte_coherente lignes_directions colonnes_directions
      (Simulation.voitures m)
      (prochain_id_voiture (Simulation.source m));
  mc_population :
    (length (Simulation.voitures m) ≤ NOMBRE_VOITURES_CIBLE)%nat;
  mc_pietons :
    pietons_coherents (Simulation.passages_pietons m)
      (Simulation.pietons_actifs m) (Simulation.prochain_id_pieton m)
}.

End ComplementsSimulation.
Export ComplementsSimulation.
(** ** États atteints par la simulation *)

Module Atteignables.

(** The state of the script after the iterations of the main loop that read
    [entrees], one after the other, from the state it builds at start-up. *)
Definition monde_atteint (ini : Simulation.EntreesInitiales)
    (taille_x taille_y : Z) (entrees : list Simulation.Entrees)
  : Simulation.Monde :=
  foldl (λ m inp,
           Simulation.iteration taille_x taille_y
             (creer_directions_routes taille_x taille_y).1
             (creer_directions_routes taille_x taille_y).2 inp m)
        (Simulation.monde_initial ini taille_x taille_y) entrees.

(** The grid and the cars after the edits [eds], made one after the other:
    the states the clicks and the automatic obstacles of one iteration go
    through. *)
Definition etat_edite (taille_x taille_y : Z) (feux : list Feu.t)
    (eds : list Edition) (e : Etat) : Etat :=
  foldl (λ e ed, appliquer_edition taille_x taille_y feux ed e) e eds.

(** What is assumed of [random.shuffle]: it permutes the list. *)
Definition entrees_admises (ini : Simulation.EntreesInitiales)
    (entrees : list Simulation.Entrees) : Prop :=
  (∀ l, Simulation.melange_feux ini l ≡ₚ l)
  ∧ Forall (λ inp, ∀ l, Simulation.melange inp l ≡ₚ l) entrees.

(** The stored path of a car that has not arrived visits no cell twice,
    does not come back to the cell of the car, and goes through road cells
    only. *)
Definition chemin_sur_route (g : Grille) (v : Voiture.t) : Prop :=
  Voiture.en_route v = true →
  NoDup (Voiture.position v :: Voiture.chemin v)
  ∧ ∀ c, c ∈ Voiture.chemin v → case_grille g c = Some ROUTE.

(** A car that has arrived, or stands on its destination, is on the
    crossing of no active pedestrian. *)
Definition hors_passages (pietons : list Pieton.t) (v : Voiture.t) : Prop :=
  Voiture.en_route v = false ∨ Voiture.position v = Voiture.destination v →
  ∀ p, p ∈ pietons → Pieton.passage_pos p ≠ Voiture.position v.

Definition voiture_sure (g : Grille) (pietons : list Pieton.t)
    (v : Voiture.t) : Prop :=
  chemin_sur_route g v ∧ hors_passages pietons v.


(** The timing of a transition as the elapsed time against the duration
    configured for the phase the light is in: the light changes phase in
    the call at [temps_actuel] only when
    [temps_actuel - dernier_changement] exceeds the duration of its phase
    ([duree_vert], [duree_orange] or [duree_rouge]). *)
Definition transition_a_la_duree_de_phase (temps_actuel : float)
    (feu feu' : Feu.t) : Prop :=
  Feu.etat feu' ≠ Feu.etat feu →
  (duree_de_phase feu (Feu.etat feu)
   <? temps_actuel - Feu.dernier_changement feu)%float = true.

End Atteignables.
Export Atteignables.

(** * Preuves *)

(** ** File de priorité *)

Lemma plus_petite_le a b :
  (plus_petite a b).1 ≤ a.1 ∧ (plus_petite a b).1 ≤ b.1.
Proof.
  unfold plus_petite, entree_le.
  destruct (a.1 <? b.1) eqn:E1; simpl; [lia|].
  destruct (a.1 =? b.1) eqn:E2; simpl.
  - destruct (_ || _); lia.
  - lia.
Qed.

Lemma plus_petite_choix a b : plus_petite a b = a ∨ plus_petite a b = b.
Proof. unfold plus_petite. destruct (entree_le a b); auto. Qed.

Lemma foldl_plus_petite_elem a l :
  foldl plus_petite a l = a ∨ foldl plus_petite a l ∈ l.
Proof.
  revert a. induction l as [|b l IH]; intros a; simpl; [by left|].
  destruct (IH (plus_petite a b)) as [H|H].
  - rewrite H. destruct (plus_petite_choix a b) as [->| ->]; [by left|].
    right. by left.
  - right. by right.
Qed.

Lemma foldl_plus_petite_min a l :
  (foldl plus_petite a l).1 ≤ a.1
  ∧ ∀ e, e ∈ l → (foldl plus_petite a l).1 ≤ e.1.
Proof.
  revert a. induction l as [|b l IH]; intros a; simpl.
  - split; [lia|]. intros e He. by apply elem_of_nil in He.
  - destruct (IH (plus_petite a b)) as [H1 H2].
    pose proof (plus_petite_le a b) as [Ha Hb].
    split; [lia|]. intros e He.
    apply elem_of_cons in He as [->|He]; [lia|]. by apply H2.
Qed.

Lemma retirer_un_sub m l e : e ∈ retirer_un m l → e ∈ l.
Proof.
  induction l as [|a l IH]; simpl; [done|].
  destruct (decide (a = m)); intros He.
  - by right.
  - apply elem_of_cons in He as [->|He]; [by left|]. right. by apply IH.
Qed.

Lemma retirer_un_reste m l e : e ∈ l → e = m ∨ e ∈ retirer_un m l.
Proof.
  induction l as [|a l IH]; simpl; intros He; [by apply elem_of_nil in He|].
  apply elem_of_cons in He as [->|He].
  - destruct (decide (a = m)); [by left|]. right. by left.
  - destruct (decide (a = m)); [by right|].
    destruct (IH He) as [->|H]; [by left|]. right. by right.
Qed.

Lemma retirer_un_length m l :
  m ∈ l → length l = S (length (retirer_un m l)).
Proof.
  induction l as [|a l IH]; simpl; intros He; [by apply elem_of_nil in He|].
  destruct (decide (a = m)); [done|].
  apply elem_of_cons in He as [->|He]; [done|].
  simpl. f_equal. by apply IH.
Qed.

Lemma heappop_spec l m r :
  heappop l = Some (m, r) →
  m ∈ l ∧ (∀ e, e ∈ l → m.1 ≤ e.1) ∧ (∀ e, e ∈ r → e ∈ l)
  ∧ (∀ e, e ∈ l → e = m ∨ e ∈ r) ∧ length l = S (length r).
Proof.
  destruct l as [|a l]; simpl; [done|].
  intros [= <- <-].
  set (m := foldl plus_petite a l).
  assert (Hm : m ∈ a :: l).
  { destruct (foldl_plus_petite_elem a l) as [H|H]; fold m in H.
    - rewrite H. by left.
    - by right. }
  destruct (foldl_plus_petite_min a l) as [H1 H2]. fold m in H1, H2.
  split; [done|]. split.
  { intros e He. apply elem_of_cons in He as [->|He]; [done|]. by apply H2. }
  split.
  { intros e He. by apply (retirer_un_sub m (a :: l)). }
  split.
  { intros e He. by apply (retirer_un_reste m (a :: l)). }
  by apply (retirer_un_length m (a :: l)).
Qed.

Lemma heappop_None l : heappop l = None → l = [].
Proof. by destruct l. Qed.

(** ** Graphe des mouvements légaux *)

Section CorrectionPlanificateur.
Context (grille : Grille) (dl dc : gmap Z string).
Context (depart arrivee : Position).

Local Abbreviation legal := (mouvement_legal grille dl dc).
Local Abbreviation itin := (itineraire grille dl dc).
Local Abbreviation admis := (voisin_admis grille dl dc).
Local Abbreviation inv := (invariant grille dl dc depart arrivee).
Local Abbreviation N := (nb_cellules grille).
Local Abbreviation pot := (potentiel grille).
Local Abbreviation mes := (mesure grille).

Lemma voisin_admis_legal c d :
  admis c d = true → legal c (c.1 + d.1, c.2 + d.2).
Proof.
  destruct c as [cx cy], d as [dx dy].
  unfold voisin_admis, mouvement_autorise, est_route. simpl.
  intros H. apply andb_prop in H as [H H0]. apply andb_prop in H as [Hl Hr].
  apply bool_decide_eq_true in Hr.
  split; [by split|].
  destruct (dy =? 0) eqn:Ey, (dx =? 0) eqn:Ex; simpl in *; try done.
  - apply Z.eqb_eq in Ey as ->. rewrite !Z.add_0_r.
    apply orb_prop in H0 as [H0|H0]; apply andb_prop in H0 as [Ha Hb];
      apply bool_decide_eq_true in Ha; apply Z.eqb_eq in Hb as ->; eauto 6.
  - apply Z.eqb_eq in Ex as ->. rewrite !Z.add_0_r.
    apply orb_prop in H0 as [H0|H0]; apply andb_prop in H0 as [Ha Hb];
      apply bool_decide_eq_true in Ha; apply Z.eqb_eq in Hb as ->; eauto 6.
Qed.

Lemma legal_voisin_admis u v :
  legal u v →
  ∃ d, d ∈ cardinal_directions ∧ v = (u.1 + d.1, u.2 + d.2)
       ∧ admis u d = true.
Proof.
  destruct u as [ux uy]. intros [[Hlim Hroute] Hdir]. simpl in Hdir.
  assert (Hr : est_route grille v = true)
    by (by apply bool_decide_eq_true).
  unfold voisin_admis, mouvement_autorise, cardinal_directions.
  destruct Hdir as [[-> Hd]|[[-> Hd]|[[-> Hd]|[-> Hd]]]].
  - exists (1, 0). simpl. rewrite Z.add_0_r, Hlim, Hr. simpl.
    rewrite bool_decide_eq_true_2 by done. set_solver.
  - exists (-1, 0). simpl. rewrite Z.add_0_r.
    replace (ux + -1) with (ux - 1) by lia. rewrite Hlim, Hr. simpl.
    rewrite (bool_decide_eq_true_2 _ Hd), orb_true_r.
    split; [set_solver|]. split; [f_equal; lia|done].
  - exists (0, 1). simpl. rewrite Z.add_0_r, Hlim, Hr. simpl.
    rewrite bool_decide_eq_true_2 by done. set_solver.
  - exists (0, -1). simpl. rewrite Z.add_0_r.
    replace (uy + -1) with (uy - 1) by lia. rewrite Hlim, Hr. simpl.
    rewrite (bool_decide_eq_true_2 _ Hd), orb_true_r.
    split; [set_solver|]. split; [f_equal; lia|done].
Qed.

Lemma legal_distinct u v : legal u v → v ≠ u.
Proof.
  destruct u as [ux uy].
  intros [_ [[-> _]|[[-> _]|[[-> _]|[-> _]]]]]; simpl; intros [=]; lia.
Qed.

Lemma legal_praticable u v : legal u v → praticable grille v.
Proof. by intros [? _]. Qed.

(** The Manhattan distance drops by at most one along a legal move, so it
    never exceeds the number of moves left to the goal. *)
Lemma heuristique_pas u v a :
  legal u v → heuristique u a ≤ 1 + heuristique v a.
Proof.
  destruct u as [ux uy], a as [ax ay]. unfold heuristique.
  intros [_ [[-> _]|[[-> _]|[[-> _]|[-> _]]]]]; simpl; lia.
Qed.

Lemma heuristique_nulle a : heuristique a a = 0.
Proof. unfold heuristique. lia. Qed.

Lemma heuristique_admissible v a l :
  itin v a l → heuristique v a + 1 ≤ Z.of_nat (length l).
Proof.
  induction 1 as [u Hu|u v w l Hu Huv Hl IH]; simpl.
  - rewrite heuristique_nulle. lia.
  - pose proof (heuristique_pas u v w Huv). lia.
Qed.

Lemma itineraire_depart_praticable u w l :
  itin u w l → praticable grille u.
Proof. by destruct 1. Qed.

Lemma itineraire_praticable u w l x :
  itin u w l → x ∈ l → praticable grille x.
Proof.
  induction 1 as [u Hu|u v w l Hu Huv Hl IH]; intros Hx.
  - by apply list_elem_of_singleton in Hx as ->.
  - apply elem_of_cons in Hx as [->|Hx]; auto.
Qed.

Lemma itineraire_tete u w l : itin u w l → head l = Some u.
Proof. by destruct 1. Qed.

Lemma itineraire_queue u w l : itin u w l → last l = Some w.
Proof.
  induction 1 as [u Hu|u v w l Hu Huv Hl IH]; [done|].
  destruct l; [inversion Hl|]. done.
Qed.

Lemma itineraire_snoc u v w l :
  itin u v l → legal v w → itin u w (l ++ [w]).
Proof.
  induction 1 as [u Hu|u v' v l Hu Huv Hl IH]; intros Hvw; simpl.
  - eapply itineraire_pas; [done|exact Hvw|].
    apply itineraire_fin. by eapply legal_praticable.
  - eapply itineraire_pas; [done|exact Huv|]. by apply IH.
Qed.

(** *** Les cellules de la grille *)

Lemma cellules_length :
  Z.of_nat (length (cellules grille)) = N.
Proof.
  unfold cellules, nb_cellules.
  assert (H : ∀ l : list nat,
    length (y ← l; (λ x, (Z.of_nat x, Z.of_nat y))
                     <$> seq 0 (length (hd [] grille)))
    = (length l * length (hd [] grille))%nat).
  { induction l as [|y l IH]; [done|].
    rewrite bind_cons, length_app, length_fmap, length_seq, IH.
    simpl. lia. }
  by rewrite H, length_seq.
Qed.

Lemma cellules_elem p :
  dans_limites (largeur grille) (hauteur grille) p = true →
  p ∈ cellules grille.
Proof.
  destruct p as [x y]. unfold dans_limites, largeur, hauteur. simpl.
  intros H. repeat (apply andb_prop in H as [H ?]).
  unfold cellules. apply list_elem_of_bind. exists (Z.to_nat y).
  split.
  - apply list_elem_of_fmap. exists (Z.to_nat x).
    split; [f_equal; lia|]. apply elem_of_seq. lia.
  - apply elem_of_seq. lia.
Qed.

Lemma itineraire_borne u w l :
  itin u w l → NoDup l → Z.of_nat (length l) ≤ N.
Proof.
  intros Hl Hnd. rewrite <- cellules_length.
  apply inj_le, submseteq_length, NoDup_submseteq; [done|].
  intros x Hx. apply cellules_elem.
  by destruct (itineraire_praticable _ _ _ _ Hl Hx).
Qed.

(** *** Le potentiel *)

Lemma potentiel_le (g g' : gmap Position Z) :
  (∀ v, default N (g' !! v) ≤ default N (g !! v)) →
  pot g' ≤ pot g.
Proof.
  intros H. unfold potentiel.
  induction (cellules grille) as [|v l IH]; simpl; [lia|].
  specialize (H v). lia.
Qed.

Lemma potentiel_lt (g g' : gmap Position Z) v0 :
  (∀ v, default N (g' !! v) ≤ default N (g !! v)) →
  v0 ∈ cellules grille →
  default N (g' !! v0) < default N (g !! v0) →
  pot g' + 1 ≤ pot g.
Proof.
  intros H Hv0 Hlt. unfold potentiel.
  induction (cellules grille) as [|v l IH]; simpl.
  - by apply elem_of_nil in Hv0.
  - apply elem_of_cons in Hv0 as [<-|Hv0].
    + assert (foldr (λ v acc, default N (g' !! v) + acc) 0 l
              ≤ foldr (λ v acc, default N (g !! v) + acc) 0 l).
      { clear -H. induction l as [|w l IH]; simpl; [lia|].
        specialize (H w). lia. }
      lia.
    + specialize (IH Hv0). specialize (H v). lia.
Qed.

Lemma potentiel_positif (g : gmap Position Z) :
  (∀ v gv, g !! v = Some gv → 0 ≤ gv) → 0 ≤ pot g.
Proof.
  intros H. unfold potentiel.
  induction (cellules grille) as [|v l IH]; simpl; [lia|].
  destruct (g !! v) as [gv|] eqn:E; simpl.
  - specialize (H _ _ E). lia.
  - pose proof (Nat2Z.is_nonneg
                  (length grille * length (hd [] grille))) as HN.
    fold (nb_cellules grille) in HN. lia.
Qed.

(** *** Préservation de l'invariant *)

Lemma inv_borne st ec faits v gv :
  inv st ec faits → cout_g st !! v = Some gv → gv + 1 ≤ N.
Proof.
  intros Hinv Hv.
  destruct (inv_temoin _ _ _ _ _ _ _ _ Hinv v gv Hv)
    as (l & Hl & Hlen & Hnd & _).
  rewrite <- Hlen. by eapply itineraire_borne.
Qed.

Lemma inv_initial :
  praticable grille depart → inv (etat_initial depart arrivee) None [].
Proof.
  intros Hdep. unfold etat_initial. split; simpl.
  - by rewrite !lookup_singleton_eq.
  - intros v gv Hv. apply lookup_singleton_Some in Hv as [_ <-]. lia.
  - intros v gv Hv Hne. by apply lookup_singleton_Some in Hv as [-> _].
  - intros v gv Hv. apply lookup_singleton_Some in Hv as [<- <-].
    exists [depart]. split; [by apply itineraire_fin|].
    split; [done|]. split; [apply NoDup_singleton|].
    intros i x Hi. apply list_lookup_singleton_Some in Hi as [-> <-].
    exists 0. by rewrite lookup_singleton_eq.
  - intros p v Hp. apply list_elem_of_singleton in Hp as [= -> ->].
    exists 0. rewrite lookup_singleton_eq. split; [done|lia].
  - intros v gv Hv. apply lookup_singleton_Some in Hv as [<- <-].
    left. simpl. apply list_elem_of_singleton. done.
Qed.

(** Trying one more direction keeps the invariant when the state is left
    as it is, provided the edge tried is relaxed or not an edge. *)
Lemma inv_direction st c faits d :
  inv st (Some c) faits →
  (admis c d = true → relache st c (c.1 + d.1, c.2 + d.2)) →
  inv st (Some c) (d :: faits).
Proof.
  intros [H1 H2 H3 H4 H5 H6] Hd. split; try done.
  intros v gv Hv.
  destruct (H6 v gv Hv) as [H|[H|(Hc & Hne & H)]]; [by left|by right; left|].
  right; right. split; [done|]. split; [done|].
  intros d' Hd' Had. apply elem_of_cons in Hd' as [->|Hd'].
  - injection Hc as <-. by apply Hd.
  - by apply H.
Qed.

Section MiseAJour.
Context (st : EtatRecherche) (c : Position) (gc : Z) (d : Z * Z).
Let w : Position := (c.1 + d.1, c.2 + d.2).
Let st' : EtatRecherche :=
  {| ouverte := heappush (ouverte st)
                  (gc + 1 + heuristique w arrivee, w);
     precedent := <[w := Some c]> (precedent st);
     cout_g := <[w := gc + 1]> (cout_g st) |}.
Context (faits : list (Z * Z)).
Hypothesis Hinv : inv st (Some c) faits.
Hypothesis Hc : cout_g st !! c = Some gc.
Hypothesis Hadm : admis c d = true.
Hypothesis Hmieux : ∀ gw, cout_g st !! w = Some gw → gc + 1 < gw.

Local Lemma maj_w_c : w ≠ c.
Proof. apply legal_distinct. by apply voisin_admis_legal. Qed.

Local Lemma maj_gc_pos : 0 ≤ gc.
Proof. by eapply (inv_positif _ _ _ _ _ _ _ _ Hinv). Qed.

Local Lemma maj_w_depart : w ≠ depart.
Proof.
  intros Hw. destruct (inv_depart _ _ _ _ _ _ _ _ Hinv) as [H0 _].
  rewrite <- Hw in H0. apply Hmieux in H0.
  pose proof maj_gc_pos. lia.
Qed.

Local Lemma maj_cout v gv :
  cout_g st' !! v = Some gv →
  (v = w ∧ gv = gc + 1) ∨ (v ≠ w ∧ cout_g st !! v = Some gv).
Proof.
  simpl. intros Hv. destruct (decide (w = v)) as [<-|Hne].
  - rewrite lookup_insert_eq in Hv. left. split; congruence.
  - rewrite lookup_insert_ne in Hv by done. right. by split.
Qed.

(** Costs only go down. *)
Local Lemma maj_decroit v gv :
  cout_g st !! v = Some gv →
  ∃ gv', cout_g st' !! v = Some gv' ∧ gv' ≤ gv.
Proof.
  simpl. intros Hv. destruct (decide (w = v)) as [<-|Hne].
  - rewrite lookup_insert_eq. exists (gc + 1). split; [done|].
    apply Hmieux in Hv. lia.
  - rewrite lookup_insert_ne by done. exists gv. split; [done|lia].
Qed.

Local Lemma maj_relache u x :
  u ≠ w → relache st u x → relache st' u x.
Proof.
  intros Hu (gu & gx & Hgu & Hgx & Hle).
  destruct (maj_decroit x gx Hgx) as (gx' & Hgx' & Hle').
  exists gu, gx'. split; [|split; [done|lia]].
  simpl. by rewrite lookup_insert_ne.
Qed.

Lemma mise_a_jour_inv : inv st' (Some c) (d :: faits).
Proof.
  pose proof maj_w_c as Hwc. pose proof maj_w_depart as Hwd.
  pose proof maj_gc_pos as Hgc.
  assert (Hleg : legal c w) by (by apply voisin_admis_legal).
  destruct Hinv as [H1 H2 H3 H4 H5 H6]. split.
  - simpl. by rewrite !lookup_insert_ne.
  - intros v gv Hv. apply maj_cout in Hv as [[_ ->]|[_ Hv]]; [lia|eauto].
  - intros v gv Hv Hne. apply maj_cout in Hv as [[-> ->]|[Hvw Hv]].
    + exists c, gc. simpl. rewrite lookup_insert_eq.
      rewrite lookup_insert_ne by done. split; [done|].
      split; [done|]. split; [done|lia].
    + destruct (H3 v gv Hv Hne) as (u & gu & Hp & Hu & Hl & Hle).
      destruct (maj_decroit u gu Hu) as (gu' & Hu' & Hle').
      exists u, gu'. simpl. rewrite lookup_insert_ne by done.
      split; [done|]. split; [done|]. split; [done|lia].
  - intros v gv Hv. apply maj_cout in Hv as [[-> ->]|[Hvw Hv]].
    + destruct (H4 c gc Hc) as (l & Hl & Hlen & Hnd & Hidx).
      assert (Hwl : w ∉ l).
      { intros Hin. apply list_elem_of_lookup_1 in Hin as [i Hi].
        destruct (Hidx i w Hi) as (gx & Hgx & Hle).
        apply lookup_lt_Some in Hi. apply Hmieux in Hgx. lia. }
      exists (l ++ [w]). split; [by eapply itineraire_snoc|].
      split; [rewrite length_app; simpl; lia|].
      split.
      { apply NoDup_app. split; [done|]. split; [|apply NoDup_singleton].
        intros x Hx Hx'. apply list_elem_of_singleton in Hx' as ->. done. }
      intros i x Hi. apply lookup_app_Some in Hi as [Hi|[Hge Hi]].
      * destruct (Hidx i x Hi) as (gx & Hgx & Hle).
        destruct (maj_decroit x gx Hgx) as (gx' & Hgx' & Hle').
        exists gx'. split; [done|lia].
      * apply list_lookup_singleton_Some in Hi as [Hi <-].
        exists (gc + 1). simpl. rewrite lookup_insert_eq.
        split; [done|lia].
    + destruct (H4 v gv Hv) as (l & Hl & Hlen & Hnd & Hidx).
      exists l. split; [done|]. split; [done|]. split; [done|].
      intros i x Hi. destruct (Hidx i x Hi) as (gx & Hgx & Hle).
      destruct (maj_decroit x gx Hgx) as (gx' & Hgx' & Hle').
      exists gx'. split; [done|lia].
  - intros p v Hp. simpl in Hp. unfold heappush in Hp.
    apply elem_of_cons in Hp as [[= -> ->]|Hp].
    + exists (gc + 1). simpl. rewrite lookup_insert_eq. split; [done|lia].
    + destruct (H5 p v Hp) as (gv & Hgv & Hle).
      destruct (maj_decroit v gv Hgv) as (gv' & Hgv' & Hle').
      exists gv'. split; [done|lia].
  - intros v gv Hv. apply maj_cout in Hv as [[-> ->]|[Hvw Hv]].
    + left. simpl. unfold heappush. by left.
    + destruct (H6 v gv Hv) as [H|[[Hne H]|(Hec & Hne & H)]].
      * left. simpl. unfold heappush. by right.
      * right; left. split; [done|]. intros x Hx.
        apply maj_relache; [done|]. by apply H.
      * right; right. split; [done|]. split; [done|].
        injection Hec as <-.
        intros d' Hd' Had. apply elem_of_cons in Hd' as [->|Hd'].
        -- exists gc, (gc + 1). simpl. rewrite lookup_insert_eq.
           rewrite lookup_insert_ne by done. split; [done|].
           split; [done|lia].
        -- apply maj_relache; [done|]. by apply H.
Qed.

Lemma mise_a_jour_mesure : mes st' ≤ mes st.
Proof.
  pose proof mise_a_jour_inv as Hinv'.
  assert (Hb : gc + 1 + 1 ≤ N).
  { eapply (inv_borne st' _ _ w); [exact Hinv'|].
    simpl. by rewrite lookup_insert_eq. }
  assert (Hlim : w ∈ cellules grille).
  { apply cellules_elem.
    by destruct (voisin_admis_legal _ _ Hadm) as [[? _] _]. }
  unfold mesure. simpl. unfold heappush.
  assert (pot (<[w := gc + 1]> (cout_g st)) + 1 ≤ pot (cout_g st)).
  { apply (potentiel_lt _ _ w); [|done|].
    - intros v. destruct (decide (w = v)) as [<-|Hne].
      + rewrite lookup_insert_eq. simpl.
        destruct (cout_g st !! w) as [gw|] eqn:E; simpl; [|lia].
        pose proof (Hmieux gw eq_refl). lia.
      + rewrite lookup_insert_ne by done. lia.
    - rewrite lookup_insert_eq. simpl.
      destruct (cout_g st !! w) as [gw|] eqn:E; simpl; [|lia].
      pose proof (Hmieux gw eq_refl). lia. }
  simpl length. lia.
Qed.
End MiseAJour.

Lemma explorer_voisin_inv st c gc faits d :
  inv st (Some c) faits → cout_g st !! c = Some gc →
  inv (explorer_voisin grille dl dc arrivee c st d) (Some c) (d :: faits)
  ∧ cout_g (explorer_voisin grille dl dc arrivee c st d) !! c = Some gc
  ∧ mes (explorer_voisin grille dl dc arrivee c st d) ≤ mes st.
Proof.
  intros Hinv Hc. unfold explorer_voisin.
  destruct (admis c d) eqn:Hadm; simpl.
  2:{ split; [|split; [done|lia]]. apply inv_direction; [done|].
      intros ?; congruence. }
  rewrite Hc. simpl.
  destruct (cout_g st !! (c.1 + d.1, c.2 + d.2)) as [gw|] eqn:Hw.
  - destruct (gc + 1 <? gw) eqn:Hlt.
    + apply Z.ltb_lt in Hlt.
      assert (Hm : ∀ gw', cout_g st !! (c.1 + d.1, c.2 + d.2) = Some gw' →
                          gc + 1 < gw') by (intros ? ?; simplify_eq; lia).
      split; [by eapply mise_a_jour_inv|].
      split; [|by eapply mise_a_jour_mesure].
      simpl. rewrite lookup_insert_ne; [done|].
      apply legal_distinct. by apply voisin_admis_legal.
    + apply Z.ltb_ge in Hlt. split; [|split; [done|lia]].
      apply inv_direction; [done|]. intros _. exists gc, gw. done.
  - assert (Hm : ∀ gw', cout_g st !! (c.1 + d.1, c.2 + d.2) = Some gw' →
                        gc + 1 < gw') by (intros ? ?; simplify_eq).
    split; [by eapply mise_a_jour_inv|].
    split; [|by eapply mise_a_jour_mesure].
    simpl. rewrite lookup_insert_ne; [done|].
    apply legal_distinct. by apply voisin_admis_legal.
Qed.

Lemma explorer_inv st c gc :
  inv st (Some c) [] → cout_g st !! c = Some gc →
  inv (explorer grille dl dc arrivee c st) None []
  ∧ mes (explorer grille dl dc arrivee c st) ≤ mes st.
Proof.
  intros Hinv Hc. unfold explorer, cardinal_directions. simpl.
  destruct (explorer_voisin_inv _ _ _ _ (0, 1) Hinv Hc) as (I1 & C1 & M1).
  destruct (explorer_voisin_inv _ _ _ _ (0, -1) I1 C1) as (I2 & C2 & M2).
  destruct (explorer_voisin_inv _ _ _ _ (1, 0) I2 C2) as (I3 & C3 & M3).
  destruct (explorer_voisin_inv _ _ _ _ (-1, 0) I3 C3) as (I4 & C4 & M4).
  split; [|lia].
  destruct I4 as [H1 H2 H3 H4 H5 H6]. split; try done.
  intros v gv Hv.
  destruct (H6 v gv Hv) as [H|[H|(Hec & Hne & H)]]; [by left|by right; left|].
  right; left. split; [done|]. intros x Hx.
  destruct (legal_voisin_admis _ _ Hx) as (d & Hd & -> & Had).
  apply H; [|done]. unfold cardinal_directions in Hd.
  rewrite !elem_of_cons in Hd |- *. tauto.
Qed.

Lemma depiler_inv st p c reste :
  inv st None [] → heappop (ouverte st) = Some ((p, c), reste) →
  c ≠ arrivee →
  let st1 := {| ouverte := reste; precedent := precedent st;
                cout_g := cout_g st |} in
  inv st1 (Some c) [] ∧ (∃ gc, cout_g st !! c = Some gc)
  ∧ mes st1 + 1 = mes st.
Proof.
  intros [H1 H2 H3 H4 H5 H6] Hpop Hne.
  apply heappop_spec in Hpop as (Hin & Hmin & Hsub & Hrest & Hlen).
  simpl. split; [|split].
  - split; simpl; try done.
    + intros q v Hq. by apply H5, Hsub.
    + intros v gv Hv.
      destruct (H6 v gv Hv) as [H|[H|(Hec & _)]];
        [|by right; left|done].
      destruct (Hrest _ H) as [[= _ ->]|Hr]; [|by left].
      right; right. split; [done|]. split; [done|].
      intros d Hd. by apply elem_of_nil in Hd.
  - destruct (H5 p c Hin) as (gc & Hgc & _). by exists gc.
  - unfold mesure. simpl. lia.
Qed.

(** Along any route to the goal from a node whose cost is known, some
    entry of the queue has a priority within the length of that route. *)
Lemma progres_file st v l :
  inv st None [] → itin v arrivee l →
  ∀ gv k, cout_g st !! v = Some gv →
          gv + Z.of_nat (length l) ≤ k + 1 →
          ∃ e, e ∈ ouverte st ∧ e.1 ≤ k.
Proof.
  intros Hinv. induction 1 as [u Hu|u v w l Hu Huv Hl IH];
    intros gu k Hgu Hk; simpl in Hk.
  - destruct (inv_frontiere _ _ _ _ _ _ _ _ Hinv u gu Hgu)
      as [H|[[Hne _]|(Hec & _)]]; [|done..].
    eexists. split; [exact H|]. simpl. rewrite heuristique_nulle. lia.
  - destruct (inv_frontiere _ _ _ _ _ _ _ _ Hinv u gu Hgu)
      as [H|[[Hne H]|(Hec & _)]]; [| |done].
    + eexists. split; [exact H|]. simpl.
      pose proof (heuristique_admissible _ _ _
                    (itineraire_pas _ _ _ _ _ _ _ Hu Huv Hl)) as Ha.
      simpl in Ha. lia.
    + destruct (H v Huv) as (gu' & gv & Hgu' & Hgv & Hle).
      simplify_eq. apply (IH Hinv gv k Hgv). lia.
Qed.

Lemma remonter_spec st ec faits :
  inv st ec faits →
  ∀ (n : nat) v gv acc budget,
    cout_g st !! v = Some gv → gv < Z.of_nat n →
    (Z.to_nat gv < budget)%nat →
    ∃ ch, remonter budget (precedent st) (Some v) acc = Some (acc ++ ch)
          ∧ itin depart v (reverse ch)
          ∧ Z.of_nat (length ch) ≤ gv + 1.
Proof.
  intros Hinv. induction n as [|n IH]; intros v gv acc budget Hv Hn Hb.
  { pose proof (inv_positif _ _ _ _ _ _ _ _ Hinv v gv Hv). lia. }
  pose proof (inv_positif _ _ _ _ _ _ _ _ Hinv v gv Hv) as Hpos.
  destruct budget as [|b]; [lia|]. simpl.
  destruct (decide (v = depart)) as [->|Hne].
  - destruct (inv_depart _ _ _ _ _ _ _ _ Hinv) as [H0 Hp].
    rewrite Hp. simpl. exists [depart]. split; [by destruct b|].
    split; [|simpl; lia].
    destruct (inv_temoin _ _ _ _ _ _ _ _ Hinv depart gv Hv)
      as (l & Hl & _).
    apply itineraire_fin. by eapply itineraire_depart_praticable.
  - destruct (inv_precedent _ _ _ _ _ _ _ _ Hinv v gv Hv Hne)
      as (u & gu & Hp & Hu & Hleg & Hle).
    rewrite Hp. simpl.
    pose proof (inv_positif _ _ _ _ _ _ _ _ Hinv u gu Hu) as Hpos'.
    destruct (IH u gu (acc ++ [v]) b Hu) as (ch & Hch & Hit & Hlen);
      [lia..|].
    exists (v :: ch). split; [by rewrite Hch, <- app_assoc|].
    split; [|simpl; lia].
    rewrite reverse_cons. by eapply itineraire_snoc.
Qed.

(** The loop, started from a state that satisfies the invariant with a
    budget above the variant, ends on a shortest route when there is a
    route and on [AucunChemin] when there is none. *)
Lemma boucle_correcte budget st :
  inv st None [] → mes st < Z.of_nat budget →
  match boucle grille dl dc arrivee budget st with
  | Chemin p =>
      itin depart arrivee p
      ∧ ∀ r, itin depart arrivee r → (length p ≤ length r)%nat
  | AucunChemin => ∀ r, ¬ itin depart arrivee r
  | BudgetEpuise => False
  end.
Proof.
  revert st. induction budget as [|b IH]; intros st Hinv Hm.
  { pose proof (potentiel_positif (cout_g st)
                  (inv_positif _ _ _ _ _ _ _ _ Hinv)) as Hp.
    unfold mesure in Hm. lia. }
  simpl. destruct (heappop (ouverte st)) as [[[p c] reste]|] eqn:Hpop.
  2:{ apply heappop_None in Hpop. intros r Hr.
      destruct (inv_depart _ _ _ _ _ _ _ _ Hinv) as [H0 _].
      destruct (progres_file st depart r Hinv Hr 0
                  (Z.of_nat (length r)) H0) as (e & He & _); [lia|].
      rewrite Hpop in He. by apply elem_of_nil in He. }
  destruct (decide (c = arrivee)) as [->|Hne].
  - pose proof (heappop_spec _ _ _ Hpop) as (Hin & Hmin & _).
    destruct (inv_ouverte _ _ _ _ _ _ _ _ Hinv p arrivee Hin)
      as (ga & Hga & Hle).
    rewrite heuristique_nulle in Hle.
    pose proof (inv_borne _ _ _ _ _ Hinv Hga) as Hb.
    pose proof (inv_positif _ _ _ _ _ _ _ _ Hinv _ _ Hga) as Hpos.
    destruct (remonter_spec st None [] Hinv (S (Z.to_nat ga)) arrivee ga []
                (length grille * length (hd [] grille)) Hga)
      as (ch & Hch & Hit & Hlen); [lia| |].
    { unfold nb_cellules in Hb. lia. }
    rewrite Hch. simpl. split; [done|].
    intros r Hr. rewrite length_reverse.
    destruct (inv_depart _ _ _ _ _ _ _ _ Hinv) as [H0 _].
    destruct (progres_file st depart r Hinv Hr 0
                (Z.of_nat (length r) - 1) H0) as (e & He & Hek); [lia|].
    specialize (Hmin e He). simpl in Hmin. lia.
  - destruct (depiler_inv _ _ _ _ Hinv Hpop Hne) as (Hinv1 & [gc Hgc] & Hm1).
    destruct (explorer_inv _ _ gc Hinv1 Hgc) as (Hinv2 & Hm2).
    apply IH; [done|]. lia.
Qed.

Lemma potentiel_vide : pot ∅ = N * N.
Proof.
  rewrite <- cellules_length at 1. unfold potentiel.
  induction (cellules grille) as [|v l IH]; [done|].
  simpl foldr. rewrite IH, lookup_empty. simpl. lia.
Qed.

Lemma mesure_initiale :
  praticable grille depart →
  mes (etat_initial depart arrivee)
  < Z.of_nat (S ((length grille * length (hd [] grille))
                 * (length grille * length (hd [] grille)))).
Proof.
  intros [Hlim _]. apply cellules_elem in Hlim.
  assert (HN : 0 < N).
  { rewrite <- cellules_length. destruct (cellules grille); [|simpl; lia].
    by apply elem_of_nil in Hlim. }
  unfold mesure, etat_initial. simpl.
  assert (pot {[depart := 0]} + 1 ≤ pot ∅).
  { apply (potentiel_lt _ _ depart); [|done|].
    - intros v. rewrite lookup_empty. simpl.
      destruct (decide (depart = v)) as [<-|Hne].
      + rewrite lookup_singleton_eq. simpl. lia.
      + rewrite lookup_singleton_ne by done. simpl. lia.
    - rewrite lookup_empty, lookup_singleton_eq. simpl. lia. }
  rewrite potentiel_vide in H. unfold nb_cellules in *. lia.
Qed.

Lemma itineraire_arrivee_praticable u w l :
  itin u w l → praticable grille w.
Proof. induction 1; auto. Qed.

Lemma praticable_tests p :
  praticable grille p ↔
  dans_limites (largeur grille) (hauteur grille) p = true
  ∧ est_route grille p = true.
Proof.
  unfold praticable, est_route. by rewrite bool_decide_eq_true.
Qed.

(** [trouver_chemin] as a whole. *)
Lemma trouver_chemin_correct :
  match trouver_chemin grille depart arrivee dl dc with
  | Chemin p =>
      itin depart arrivee p
      ∧ ∀ r, itin depart arrivee r → (length p ≤ length r)%nat
  | AucunChemin => ∀ r, ¬ itin depart arrivee r
  | BudgetEpuise => False
  end.
Proof.
  unfold trouver_chemin.
  destruct (dans_limites _ _ depart) eqn:Hd; cbn [negb andb orb].
  2:{ intros r Hr. apply itineraire_depart_praticable in Hr as [? _].
      congruence. }
  destruct (dans_limites _ _ arrivee) eqn:Ha; cbn [negb andb orb].
  2:{ intros r Hr. apply itineraire_arrivee_praticable in Hr as [? _].
      congruence. }
  destruct (est_route grille depart) eqn:Hrd; cbn [negb andb orb].
  2:{ intros r Hr. apply itineraire_depart_praticable in Hr.
      apply praticable_tests in Hr as [_ ?]. congruence. }
  destruct (est_route grille arrivee) eqn:Hra; cbn [negb andb orb].
  2:{ intros r Hr. apply itineraire_arrivee_praticable in Hr.
      apply praticable_tests in Hr as [_ ?]. congruence. }
  assert (Hp : praticable grille depart) by (by apply praticable_tests).
  destruct (decide (depart = arrivee)) as [<-|Hne].
  - split; [by apply itineraire_fin|].
    intros r Hr. destruct Hr; simpl; lia.
  - apply boucle_correcte; [by apply inv_initial|by apply mesure_initiale].
Qed.
End CorrectionPlanificateur.

(** ** Énoncés sur le planificateur *)

Lemma grille_croix_rect : grille_rect Exemple.grille_croix.
Proof. split; [done|]. repeat constructor. Qed.

(** C3 — Completeness and optimality of the planner. On a rectangular grid,
    [trouver_chemin] returns a path exactly when a route of legal orthogonal
    unit moves through road cells leads from [depart] to [arrivee]; the path
    it returns is such a route with the least number of moves (its length
    minus one); when there is no route it returns [None]; and the Manhattan
    heuristic is consistent (it drops by at most one along a legal move and
    is 0 at the goal), hence admissible. *)
Theorem trouver_chemin_complet_et_optimal
    (grille : Grille) (depart arrivee : Position)
    (directions_lignes directions_colonnes : gmap Z string) :
  grille_rect grille →
  ((∃ p, trouver_chemin grille depart arrivee
           directions_lignes directions_colonnes = Chemin p)
   ↔ ∃ r, itineraire grille directions_lignes directions_colonnes
            depart arrivee r)
  ∧ (∀ p, trouver_chemin grille depart arrivee
            directions_lignes directions_colonnes = Chemin p →
          plus_court_itineraire grille directions_lignes directions_colonnes
            depart arrivee p)
  ∧ ((¬ ∃ r, itineraire grille directions_lignes directions_colonnes
               depart arrivee r) →
     trouver_chemin grille depart arrivee
       directions_lignes directions_colonnes = AucunChemin)
  ∧ heuristique arrivee arrivee = 0
  ∧ (∀ u v, mouvement_legal grille directions_lignes directions_colonnes u v →
            heuristique u arrivee ≤ 1 + heuristique v arrivee)
  ∧ (∀ u l, itineraire grille directions_lignes directions_colonnes
              u arrivee l →
            heuristique u arrivee ≤ Z.of_nat (length l - 1)).
Proof.
  intros _.
  assert (Hh : heuristique arrivee arrivee = 0
               ∧ (∀ u v, mouvement_legal grille directions_lignes
                           directions_colonnes u v →
                         heuristique u arrivee ≤ 1 + heuristique v arrivee)
               ∧ (∀ u l, itineraire grille directions_lignes
                           directions_colonnes u arrivee l →
                         heuristique u arrivee ≤ Z.of_nat (length l - 1))).
  { split; [apply heuristique_nulle|]. split.
    - intros u v. apply heuristique_pas.
    - intros u l Hl.
      pose proof (heuristique_admissible _ _ _ _ _ _ Hl). lia. }
  cut (((∃ p, trouver_chemin grille depart arrivee
                 directions_lignes directions_colonnes = Chemin p)
         ↔ ∃ r, itineraire grille directions_lignes directions_colonnes
                  depart arrivee r)
       ∧ (∀ p, trouver_chemin grille depart arrivee
                 directions_lignes directions_colonnes = Chemin p →
               plus_court_itineraire grille directions_lignes
                 directions_colonnes depart arrivee p)
       ∧ ((¬ ∃ r, itineraire grille directions_lignes directions_colonnes
                    depart arrivee r) →
          trouver_chemin grille depart arrivee
            directions_lignes directions_colonnes = AucunChemin)).
  { intros (H1 & H2 & H3). destruct Hh as (H4 & H5 & H6).
    split; [exact H1|]. split; [exact H2|]. split; [exact H3|].
    split; [exact H4|]. split; [exact H5|exact H6]. }
  clear Hh.
  pose proof (trouver_chemin_correct grille directions_lignes
                directions_colonnes depart arrivee) as H.
  destruct (trouver_chemin grille depart arrivee directions_lignes
              directions_colonnes) as [p| |]; [| |done].
  - destruct H as [Hp Hmin]. split; [|split].
    + split; eauto.
    + intros p' [= <-]. split; [done|].
      intros r Hr. specialize (Hmin r Hr). lia.
    + intros Hno. destruct Hno. eauto.
  - split; [|split]; [|done..].
    split; [by intros [? ?]|]. intros [r Hr]. by destruct (H r).
Qed.

Lemma trouver_chemin_complet_et_optimal_witness :
  grille_rect Exemple.grille_croix
  ∧ trouver_chemin Exemple.grille_croix (0, 2) (2, 4)
      Exemple.lignes_croix Exemple.colonnes_croix
    = Chemin [(0, 2); (1, 2); (2, 2); (2, 3); (2, 4)]
  ∧ plus_court_itineraire Exemple.grille_croix
      Exemple.lignes_croix Exemple.colonnes_croix (0, 2) (2, 4)
      [(0, 2); (1, 2); (2, 2); (2, 3); (2, 4)].
Proof.
  split; [exact grille_croix_rect|]. split; [vm_compute; reflexivity|].
  apply (trouver_chemin_complet_et_optimal Exemple.grille_croix (0, 2) (2, 4)
           Exemple.lignes_croix Exemple.colonnes_croix grille_croix_rect).
  vm_compute. reflexivity.
Defined.

(** C9 — Boundary behaviour of the planner. On a rectangular grid, a path
    returned by [trouver_chemin] is the whole ordered sequence of cells from
    [depart] to [arrivee], both included; the result is [None] whenever
    [depart] or [arrivee] lies outside the grid or is not a road cell; and
    when [depart] equals [arrivee] and passes both tests the result is the
    one-cell sequence. *)
Theorem trouver_chemin_cas_limites
    (grille : Grille) (depart arrivee : Position)
    (directions_lignes directions_colonnes : gmap Z string) :
  grille_rect grille →
  (∀ p, trouver_chemin grille depart arrivee
          directions_lignes directions_colonnes = Chemin p →
        head p = Some depart ∧ last p = Some arrivee
        ∧ itineraire grille directions_lignes directions_colonnes
            depart arrivee p)
  ∧ (dans_limites (largeur grille) (hauteur grille) depart = false
     ∨ dans_limites (largeur grille) (hauteur grille) arrivee = false
     ∨ case_grille grille depart ≠ Some ROUTE
     ∨ case_grille grille arrivee ≠ Some ROUTE →
     trouver_chemin grille depart arrivee
       directions_lignes directions_colonnes = AucunChemin)
  ∧ (depart = arrivee →
     dans_limites (largeur grille) (hauteur grille) depart = true →
     case_grille grille depart = Some ROUTE →
     trouver_chemin grille depart arrivee
       directions_lignes directions_colonnes = Chemin [depart]).
Proof.
  intros _. split; [|split].
  - intros p Hp.
    pose proof (trouver_chemin_correct grille directions_lignes
                  directions_colonnes depart arrivee) as H.
    rewrite Hp in H. destruct H as [H _].
    split; [by eapply itineraire_tete|]. split; [by eapply itineraire_queue|].
    done.
  - intros H. unfold trouver_chemin, est_route.
    destruct H as [->|[->|[H|H]]]; [done| |..].
    + by rewrite andb_false_r.
    + destruct (_ && _); [|done]. cbn [negb].
      by rewrite (bool_decide_eq_false_2 _ H).
    + destruct (_ && _); [|done]. cbn [negb].
      rewrite (bool_decide_eq_false_2 _ H). by rewrite orb_true_r.
  - intros <- Hl Hr. unfold trouver_chemin, est_route.
    rewrite Hl, (bool_decide_eq_true_2 _ Hr). cbn [negb andb orb].
    by rewrite decide_True.
Qed.

Lemma trouver_chemin_cas_limites_witness :
  grille_rect Exemple.grille_croix
  ∧ trouver_chemin Exemple.grille_croix (2, 2) (0, 0)
      Exemple.lignes_croix Exemple.colonnes_croix = AucunChemin
  ∧ trouver_chemin Exemple.grille_croix (2, 2) (2, 2)
      Exemple.lignes_croix Exemple.colonnes_croix = Chemin [(2, 2)].
Proof.
  split; [exact grille_croix_rect|].
  pose proof (trouver_chemin_cas_limites Exemple.grille_croix (2, 2) (0, 0)
                Exemple.lignes_croix Exemple.colonnes_croix grille_croix_rect)
    as (_ & H & _).
  split.
  - apply H. right; right; right. vm_compute. discriminate.
  - apply (trouver_chemin_cas_limites Exemple.grille_croix (2, 2) (2, 2)
             Exemple.lignes_croix Exemple.colonnes_croix grille_croix_rect);
      vm_compute; reflexivity.
Defined.

(** ** Grille et obstacles *)

Lemma creer_grille_rect taille_x taille_y :
  (0 < taille_y)%nat → grille_rect (creer_grille taille_x taille_y).
Proof.
  intros Hy. unfold grille_rect, creer_grille.
  destruct taille_y as [|n]; [lia|]. split; [done|].
  simpl. constructor; [done|].
  apply Forall_forall. intros row Hrow.
  by apply elem_of_replicate in Hrow as [-> _].
Qed.

Lemma case_grille_Some g p c :
  case_grille g p = Some c →
  0 ≤ p.1 ∧ 0 ≤ p.2
  ∧ ∃ row, g !! Z.to_nat p.2 = Some row ∧ row !! Z.to_nat p.1 = Some c.
Proof.
  unfold case_grille.
  destruct (0 <=? p.1) eqn:E1; [|done].
  destruct (0 <=? p.2) eqn:E2; [|done]. simpl.
  destruct (g !! Z.to_nat p.2) as [row|] eqn:Hrow; [|done]. simpl.
  intros Hc. split; [lia|]. split; [lia|]. eauto.
Qed.

Lemma ecrire_case_modifiee g p c s :
  case_grille g p = Some c → grille_modifiee g (ecrire_case g p s) p s.
Proof.
  intros Hc. apply case_grille_Some in Hc as (Hx & Hy & row & Hrow & Hcol).
  intros q. unfold ecrire_case. rewrite Hrow. unfold case_grille.
  destruct (decide (q = p)) as [->|Hne].
  - replace ((0 <=? p.1) && (0 <=? p.2)) with true by lia.
    rewrite list_lookup_insert_eq by (by eapply lookup_lt_Some). simpl.
    rewrite list_lookup_insert_eq by (by eapply lookup_lt_Some). done.
  - destruct ((0 <=? q.1) && (0 <=? q.2)) eqn:Eq; [|done].
    apply andb_prop in Eq as [Eq1 Eq2].
    destruct (decide (Z.to_nat q.2 = Z.to_nat p.2)) as [E2|E2].
    + rewrite E2.
      rewrite list_lookup_insert_eq by (by eapply lookup_lt_Some).
      rewrite Hrow. simpl. rewrite list_lookup_insert_ne; [done|].
      intros E1. apply Hne. destruct q, p; simpl in *. f_equal; lia.
    + by rewrite list_lookup_insert_ne.
Qed.

Lemma ecrire_case_rect g p s : grille_rect g → grille_rect (ecrire_case g p s).
Proof.
  intros [Hne Hall]. unfold ecrire_case.
  destruct (g !! Z.to_nat p.2) as [row|] eqn:Hrow; [|done].
  assert (Hlen : length (hd [] (<[Z.to_nat p.2 := <[Z.to_nat p.1 := s]> row]> g))
                 = length (hd [] g)).
  { destruct g as [|r g]; [done|].
    destruct (Z.to_nat p.2) as [|n]; simpl; [|done].
    injection Hrow as ->. by rewrite length_insert. }
  split.
  - intros E. apply (f_equal length) in E. rewrite length_insert in E.
    by destruct g.
  - rewrite Hlen. apply Forall_insert; [done|].
    rewrite length_insert.
    by apply (Forall_lookup_1 _ _ _ _ Hall Hrow).
Qed.

Lemma placement_possible_tests g feux x y c :
  case_grille g (x, y) = Some c →
  bool_decide (c = ROUTE)
  && bool_decide ((x, y) ∉ positions_feux feux)
  && bool_decide (c ∉ SYMBOLES_NON_PRATICABLES) = true
  ↔ placement_possible g feux (x, y).
Proof.
  intros Hc. unfold placement_possible, positions_feux. rewrite Hc.
  rewrite !andb_true_iff, !bool_decide_eq_true.
  rewrite elem_of_list_to_set, list_elem_of_fmap.
  unfold SYMBOLES_NON_PRATICABLES. split.
  - intros [[-> Hf] _]. split; [done|]. split; [|done].
    intros feu Hfeu Hp. apply Hf. by exists feu.
  - intros (Hr & Hf & _). injection Hr as ->. split; [split; [done|]|].
    + intros (feu & Hp & Hfeu). by apply (Hf feu).
    + rewrite !elem_of_cons, elem_of_nil. unfold ROUTE, NON_ROUTIER,
        OBSTACLE_MANUEL, OBSTACLE_AUTO_SYM. intros [|[|[|]]]; done.
Qed.

(** C6 — Obstacle placement. For a cell [(x, y)] of a rectangular grid,
    [ajouter_obstacle_manuel] and [ajouter_obstacle_auto] return [True]
    exactly when the cell is a road cell, no traffic light stands on it and
    it holds no obstacle; they then leave the grid with their obstacle
    symbol written at [(x, y)] and every other cell as it was; otherwise they
    return [False] and the grid is unchanged. *)
Theorem ajouter_obstacle_correct
    (g : Grille) (x y : Z) (feux : list Feu.t) :
  grille_rect g →
  dans_limites (largeur g) (hauteur g) (x, y) = true →
  (placement_possible g feux (x, y) →
   (ajouter_obstacle_manuel g x y feux).1 = true
   ∧ grille_modifiee g (ajouter_obstacle_manuel g x y feux).2
       (x, y) OBSTACLE_MANUEL
   ∧ (ajouter_obstacle_auto g x y feux).1 = true
   ∧ grille_modifiee g (ajouter_obstacle_auto g x y feux).2
       (x, y) OBSTACLE_AUTO_SYM)
  ∧ (¬ placement_possible g feux (x, y) →
     ajouter_obstacle_manuel g x y feux = (false, g)
     ∧ ajouter_obstacle_auto g x y feux = (false, g)).
Proof.
  intros _ _. unfold ajouter_obstacle_manuel, ajouter_obstacle_auto.
  destruct (case_grille g (x, y)) as [c|] eqn:Hc.
  - pose proof (placement_possible_tests g feux x y c Hc) as Ht.
    destruct (_ && _) eqn:E.
    + split; [|intros Hn; destruct Hn; by apply Ht].
      intros _. simpl.
      split; [done|]. split; [by eapply ecrire_case_modifiee|].
      split; [done|]. by eapply ecrire_case_modifiee.
    + split; [|done]. intros Hp. apply Ht in Hp. congruence.
  - split; [|done]. intros [Hp _]. congruence.
Qed.

Lemma ajouter_obstacle_correct_witness :
  grille_rect Exemple.grille_croix
  ∧ dans_limites (largeur Exemple.grille_croix) (hauteur Exemple.grille_croix)
      (2, 2) = true
  ∧ (ajouter_obstacle_manuel Exemple.grille_croix 2 2 []).1 = true
  ∧ grille_modifiee Exemple.grille_croix
      (ajouter_obstacle_manuel Exemple.grille_croix 2 2 []).2
      (2, 2) OBSTACLE_MANUEL
  ∧ (ajouter_obstacle_auto Exemple.grille_croix 2 2 []).1 = true
  ∧ grille_modifiee Exemple.grille_croix
      (ajouter_obstacle_auto Exemple.grille_croix 2 2 []).2
      (2, 2) OBSTACLE_AUTO_SYM.
Proof.
  split; [exact grille_croix_rect|]. split; [reflexivity|].
  apply (ajouter_obstacle_correct Exemple.grille_croix 2 2 []
           grille_croix_rect eq_refl).
  split; [reflexivity|]. split; [|split; discriminate].
  intros feu Hfeu. by apply elem_of_nil in Hfeu.
Defined.

(** ** Feux *)

Lemma mettre_a_jour_feu_cas t feu :
  (¬ phase_echue t feu ∧ mettre_a_jour_feu t feu = feu)
  ∨ (phase_echue t feu
     ∧ Feu.dernier_changement (mettre_a_jour_feu t feu) = t
     ∧ ((phase_suivante (Feu.etat feu) (Feu.etat (mettre_a_jour_feu t feu))
         ∧ Feu.duree_actuelle (mettre_a_jour_feu t feu)
           = duree_de_phase feu (Feu.etat (mettre_a_jour_feu t feu)))
        ∨ (¬ phase_valide (Feu.etat feu)
           ∧ Feu.etat (mettre_a_jour_feu t feu) = Feu.etat feu))).
Proof.
  destruct feu as [pos e dv dor dr da dch].
  unfold mettre_a_jour_feu, phase_echue. simpl.
  destruct (_ <? _)%float; [right|left; split; [done|done]].
  split; [done|].
  unfold phase_suivante, phase_valide, duree_de_phase.
  destruct (decide (e = "vert")) as [->|E1];
    [simpl; split; [done|]; left; split; [auto|done]|].
  rewrite (bool_decide_eq_false_2 _ E1).
  destruct (decide (e = "orange")) as [->|E2];
    [simpl; split; [done|]; left; split; [auto|done]|].
  rewrite (bool_decide_eq_false_2 _ E2).
  destruct (decide (e = "rouge")) as [->|E3];
    [simpl; split; [done|]; left; split; [auto|done]|].
  rewrite (bool_decide_eq_false_2 _ E3). simpl.
  split; [done|]. right. split; [|done]. intros [|[|]]; done.
Qed.

Lemma nouveau_feu_valide pos temps_actuel temps_depuis_debut_cycle :
  phase_valide
    (Feu.etat (nouveau_feu pos temps_actuel temps_depuis_debut_cycle))
  ∧ Feu.position (nouveau_feu pos temps_actuel temps_depuis_debut_cycle)
    = pos.
Proof.
  unfold nouveau_feu, phase_valide.
  destruct (_ <=? _)%float; [simpl; auto|].
  destruct (_ <=? _)%float; simpl; auto.
Qed.

(** C7 (amended) — Traffic-light automaton. A light is created in one of
    the phases vert, orange and rouge, and one call of [mettre_a_jour_feux]
    keeps every light in place and in one of these three phases; a light
    changes phase only to the next one in the cycle vert, orange, rouge,
    vert (so at most one transition per call), only when the time elapsed
    since [dernier_changement] exceeds the duration stored for the light,
    [duree_actuelle], and then [dernier_changement] becomes the time of the
    call and [duree_actuelle] the duration of the new phase. *)
Theorem mettre_a_jour_feux_automate
    (temps_actuel : float) (feux : list Feu.t) :
  (∀ pos t0 temps_depuis_debut_cycle,
     phase_valide (Feu.etat (nouveau_feu pos t0 temps_depuis_debut_cycle)))
  ∧ Forall2 (λ feu feu',
             Feu.position feu' = Feu.position feu
             ∧ (phase_valide (Feu.etat feu) → phase_valide (Feu.etat feu'))
             ∧ (Feu.etat feu' = Feu.etat feu
                ∨ (phase_suivante (Feu.etat feu) (Feu.etat feu')
                   ∧ phase_echue temps_actuel feu
                   ∧ Feu.dernier_changement feu' = temps_actuel
                   ∧ Feu.duree_actuelle feu'
                     = duree_de_phase feu (Feu.etat feu')))
             ∧ (¬ phase_echue temps_actuel feu → feu' = feu)
             ∧ (phase_echue temps_actuel feu → phase_valide (Feu.etat feu) →
                phase_suivante (Feu.etat feu) (Feu.etat feu')))
          feux (mettre_a_jour_feux temps_actuel feux).
Proof.
  split; [intros; apply nouveau_feu_valide|].
  unfold mettre_a_jour_feux. apply Forall2_fmap_r, Forall_Forall2_diag.
  apply Forall_forall. intros feu _.
  split.
  { unfold mettre_a_jour_feu. destruct (_ <? _)%float; [|done].
    repeat case_bool_decide; done. }
  destruct (mettre_a_jour_feu_cas temps_actuel feu)
    as [[Hne ->]|(He & Ht & [[Hs Hd]|[Hv Hs]])].
  - split; [done|]. split; [by left|]. split; [done|]. done.
  - split.
    { intros _. unfold phase_valide.
      destruct Hs as [[_ ->]|[[_ ->]|[_ ->]]]; auto. }
    split; [right; done|]. split; [done|]. done.
  - split; [by rewrite Hs|]. split; [by left|]. split; [done|]. done.
Qed.

Lemma mettre_a_jour_feux_automate_witness :
  Feu.etat <$> mettre_a_jour_feux 11%float
                 [nouveau_feu (3, 3) 0%float 0%float;
                  nouveau_feu (6, 3) 0%float 12%float]
  = ["orange"; "rouge"]
  ∧ Forall2 (λ feu feu', phase_valide (Feu.etat feu)
                         → phase_valide (Feu.etat feu'))
      [nouveau_feu (3, 3) 0%float 0%float;
       nouveau_feu (6, 3) 0%float 12%float]
      (mettre_a_jour_feux 11%float
         [nouveau_feu (3, 3) 0%float 0%float;
          nouveau_feu (6, 3) 0%float 12%float]).
Proof.
  split; [vm_compute; reflexivity|].
  eapply Forall2_impl;
    [apply (mettre_a_jour_feux_automate 11%float
              [nouveau_feu (3, 3) 0%float 0%float;
               nouveau_feu (6, 3) 0%float 12%float])|].
  intros feu feu' (_ & H & _). exact H.
Defined.

(** ** Piétons *)




(** ** Replanification forcée *)

Lemma forcer_recalcul_si_affecte_spec x y voitures :
  replanification_forcee (x, y) voitures
    (forcer_recalcul_si_affecte x y voitures).
Proof.
  unfold replanification_forcee, forcer_recalcul_si_affecte.
  apply Forall2_fmap_r, Forall_Forall2_diag, Forall_forall.
  intros v _ He Hp Ha. rewrite He. simpl.
  rewrite (bool_decide_eq_true_2 _ Hp).
  destruct (_ || _) eqn:E; [done|].
  apply orb_false_elim in E as [E1 E2].
  apply bool_decide_eq_false in E1, E2. by destruct Ha.
Qed.

(** ** Ordonnanceur *)

Lemma est_deplacement_valide_spec pos feux pietons g :
  est_deplacement_valide pos feux pietons g = true
  ↔ praticable g pos ∧ ¬ case_fermee feux pietons pos.
Proof.
  unfold est_deplacement_valide, praticable, case_fermee, est_route.
  destruct (dans_limites _ _ pos); simpl;
    [|split; [done|by intros [[? _] _]]].
  case_bool_decide as Hr; simpl; [|split; [done|by intros [[_ ?] _]]].
  destruct (existsb _ feux) eqn:Ef.
  { split; [done|]. intros [_ Hn]. destruct Hn. left.
    apply existsb_exists in Ef as (feu & Hin & Hf).
    apply andb_prop in Hf as [Hp He]. apply bool_decide_eq_true in Hp.
    apply negb_true_iff, bool_decide_eq_false in He.
    exists feu. by rewrite list_elem_of_In. }
  destruct (existsb _ pietons) eqn:Ep.
  { split; [done|]. intros [_ Hn]. destruct Hn. right.
    apply existsb_exists in Ep as (p & Hin & Hf).
    apply andb_prop in Hf as [Hp He]. apply bool_decide_eq_true in Hp.
    exists p. by rewrite list_elem_of_In. }
  split; [|done]. intros _. split; [done|].
  intros [(feu & Hin & Hp & He)|(p & Hin & Hp & He)].
  - rewrite <- not_true_iff_false in Ef. apply Ef, existsb_exists.
    exists feu. rewrite <- list_elem_of_In. split; [done|].
    rewrite (bool_decide_eq_true_2 _ Hp).
    by rewrite (bool_decide_eq_false_2 _ He).
  - rewrite <- not_true_iff_false in Ep. apply Ep, existsb_exists.
    exists p. rewrite <- list_elem_of_In. split; [done|].
    by rewrite (bool_decide_eq_true_2 _ Hp), He.
Qed.

Global Instance meme_voiture_preordre : PreOrder meme_voiture.
Proof.
  split.
  - intros v. unfold meme_voiture. auto 10.
  - intros a b c (H1 & H2 & H3 & H4 & H5) (G1 & G2 & G3 & G4 & G5).
    unfold meme_voiture. rewrite G1, G2, G3, G4.
    repeat (split; [done|]). destruct G5 as [G5|G5]; rewrite G5; auto.
Qed.

Lemma meme_voiture_active v v' :
  meme_voiture v v' → Voiture.en_route v' = Voiture.en_route v.
Proof. intros (_ & _ & _ & H & _). unfold Voiture.en_route. by rewrite H. Qed.

Lemma meme_voiture_positions l k :
  Forall2 meme_voiture l k →
  positions_actives k = positions_actives l
  ∧ Voiture.id <$> k = Voiture.id <$> l.
Proof.
  unfold positions_actives.
  induction 1 as [|v v' l k Hv Hl [IH1 IH2]]; [done|].
  pose proof (meme_voiture_active _ _ Hv) as He.
  destruct Hv as (Hid & Hp & _).
  rewrite !filter_cons, !fmap_cons, He, Hid, IH2.
  split; [|done]. destruct (decide (Voiture.en_route v)); [|done].
  by rewrite !fmap_cons, Hp, IH1.
Qed.

(** *** Phase 0 *)

Lemma marquer_arrivee_active t v :
  Voiture.en_route (marquer_arrivee t v) = true →
  marquer_arrivee t v = v ∧ Voiture.en_route v = true.
Proof.
  unfold marquer_arrivee. destruct (_ && _) eqn:E; [done|]. done.
Qed.

Lemma marquer_arrivee_champs t v :
  Voiture.id (marquer_arrivee t v) = Voiture.id v
  ∧ Voiture.position (marquer_arrivee t v) = Voiture.position v
  ∧ Voiture.destination (marquer_arrivee t v) = Voiture.destination v
  ∧ (Voiture.recalcul_echecs (marquer_arrivee t v) = Voiture.recalcul_echecs v
     ∨ Voiture.recalcul_echecs (marquer_arrivee t v) = 0).
Proof. unfold marquer_arrivee. destruct (_ && _); simpl; auto. Qed.

Lemma phase_arrivees_positions t voitures :
  positions_actives (phase_arrivees t voitures)
    `sublist_of` positions_actives voitures.
Proof.
  unfold positions_actives, phase_arrivees.
  induction voitures as [|v vs IH]; [done|].
  rewrite fmap_cons, !filter_cons.
  destruct (decide (a_conserver t (marquer_arrivee t v))) as [Hk|Hk].
  - rewrite filter_cons.
    destruct (decide (Voiture.en_route (marquer_arrivee t v))) as [He|He].
    + apply Is_true_true in He.
      apply marquer_arrivee_active in He as [-> He].
      rewrite decide_True by (by apply Is_true_true).
      rewrite !fmap_cons. by apply sublist_skip.
    + destruct (decide (Voiture.en_route v)); [|done].
      rewrite fmap_cons. by apply sublist_cons.
  - destruct (decide (Voiture.en_route v)); [|done].
    rewrite fmap_cons. by apply sublist_cons.
Qed.

Lemma phase_arrivees_ids t voitures :
  (Voiture.id <$> phase_arrivees t voitures)
    `sublist_of` (Voiture.id <$> voitures).
Proof.
  unfold phase_arrivees.
  induction voitures as [|v vs IH]; [done|].
  rewrite !fmap_cons, filter_cons.
  destruct (marquer_arrivee_champs t v) as (Hid & _).
  destruct (decide _).
  - rewrite fmap_cons, Hid. by apply sublist_skip.
  - by apply sublist_cons.
Qed.

(** *** Phase 1 *)

Lemma foldl_maj_Forall2 {A} (R : relation A) `{!PreOrder R} (f : A → A)
    (l : list nat) (vs0 vs : list A) :
  (∀ v, R v (f v)) → Forall2 R vs0 vs →
  Forall2 R vs0
    (foldl (λ vs i, match vs !! i with
                    | Some v => <[i := f v]> vs
                    | None => vs
                    end) vs l).
Proof.
  intros Hf. revert vs. induction l as [|i l IH]; intros vs Hvs; [done|].
  simpl. apply IH. destruct (vs !! i) as [v|] eqn:Hv; [|done].
  destruct (Forall2_lookup_r _ _ _ _ _ Hvs Hv) as (v0 & Hv0 & HR).
  rewrite <- (list_insert_id vs0 i v0 Hv0).
  apply Forall2_insert; [done|]. etrans; [exact HR|apply Hf].
Qed.

Lemma recalculer_meme t g dl dc v : meme_voiture v (recalculer t g dl dc v).
Proof.
  unfold recalculer, meme_voiture.
  destruct (trouver_chemin _ _ _ _ _) as [[|? [|? ?]]| |];
    destruct (Voiture.bloquee_depuis v); simpl; auto 10.
Qed.

Lemma phase_recalcul_meme t g dl dc en_route voitures :
  Forall2 meme_voiture voitures (phase_recalcul t g dl dc en_route voitures).
Proof.
  unfold phase_recalcul.
  apply (foldl_maj_Forall2 meme_voiture (recalculer t g dl dc)).
  - apply recalculer_meme.
  - apply Forall_Forall2_diag, Forall_forall. by intros.
Qed.

(** *** Phase 2 *)

Lemma resoudre_un_inv voitures1 feux pietons g r i :
  inv_resolution voitures1 feux pietons g r →
  inv_resolution voitures1 feux pietons g (resoudre_un feux pietons g r i).
Proof.
  intros Hinv. unfold resoudre_un.
  destruct (voitures_res r !! i) as [v|] eqn:Hv; [|done].
  destruct (Voiture.chemin v) as [|next_pos reste] eqn:Hch; [done|].
  destruct (_ && _) eqn:Hok; [|done].
  apply andb_prop in Hok as [Hlibre Hvalide].
  apply bool_decide_eq_true in Hlibre.
  destruct Hinv as [H1 H2 H3 H4].
  assert (Hfrais : ∀ k, approved_moves r !! k ≠ Some next_pos).
  { intros k Hk. apply Hlibre, H2. right. by exists k. }
  split; simpl.
  - destruct (Forall2_lookup_r _ _ _ _ _ H1 Hv) as (v1 & Hv1 & Hm & Hc & Hr).
    rewrite <- (list_insert_id voitures1 i v1 Hv1).
    apply Forall2_insert; [done|]. simpl.
    split; [|done]. destruct Hm as (? & ? & ? & ? & ?).
    unfold meme_voiture. simpl. auto 10.
  - intros p [Hp|[k Hk]].
    + apply elem_of_union_l, H2. by left.
    + destruct (decide (Voiture.id v = k)) as [<-|Hne].
      * rewrite lookup_insert_eq in Hk. injection Hk as <-.
        apply elem_of_union_r. by apply elem_of_singleton.
      * rewrite lookup_insert_ne in Hk by done.
        apply elem_of_union_l, H2. right. by exists k.
  - intros k p Hk. destruct (decide (Voiture.id v = k)) as [<-|Hne].
    + rewrite lookup_insert_eq in Hk. injection Hk as <-.
      split; [|done]. intros Hp. apply Hlibre, H2. by left.
    + rewrite lookup_insert_ne in Hk by done. by apply (H3 k).
  - intros k k' p Hk Hk'.
    destruct (decide (Voiture.id v = k)) as [<-|Hne];
      destruct (decide (Voiture.id v = k')) as [<-|Hne']; [done|..].
    + rewrite lookup_insert_eq in Hk. injection Hk as <-.
      rewrite lookup_insert_ne in Hk' by done. by destruct (Hfrais k').
    + rewrite lookup_insert_eq in Hk'. injection Hk' as <-.
      rewrite lookup_insert_ne in Hk by done. by destruct (Hfrais k).
    + rewrite lookup_insert_ne in Hk, Hk' by done. by apply (H4 k k' p).
Qed.

Lemma phase_resolution_inv shuffle t feux pietons g en_route voitures1 :
  inv_resolution voitures1 feux pietons g
    (phase_resolution shuffle t feux pietons g en_route voitures1).
Proof.
  unfold phase_resolution.
  match goal with |- context [foldl _ ?r0 ?l] =>
    generalize l; intros ordre;
    assert (H0 : inv_resolution voitures1 feux pietons g r0);
    [|revert H0; generalize r0]
  end.
  - split; simpl.
    + apply Forall_Forall2_diag, Forall_forall. intros v _.
      split; [reflexivity|done].
    + intros p [Hp|[k Hk]]; [|by rewrite lookup_empty in Hk].
      by apply elem_of_list_to_set.
    + intros k p Hk. by rewrite lookup_empty in Hk.
    + intros k k' p Hk. by rewrite lookup_empty in Hk.
  - induction ordre as [|i ordre IH]; intros r Hr; [done|].
    simpl. by apply IH, resoudre_un_inv.
Qed.

(** *** Phase 3 *)

Lemma appliquer_champs t approved v :
  Voiture.id (appliquer t approved v) = Voiture.id v
  ∧ Voiture.destination (appliquer t approved v) = Voiture.destination v
  ∧ Voiture.temps_arrivee (appliquer t approved v) = Voiture.temps_arrivee v
  ∧ Voiture.recalcul_echecs (appliquer t approved v)
    = Voiture.recalcul_echecs v
  ∧ Voiture.position (appliquer t approved v)
    = default (Voiture.position v) (approved !! Voiture.id v).
Proof. unfold appliquer. by destruct (approved !! Voiture.id v). Qed.

(** *** Le tick entier *)

Section Tick.
Context (shuffle : list nat → list nat) (t : float).
Context (voitures : list Voiture.t) (g : Grille) (feux : list Feu.t).
Context (dl dc : gmap Z string) (taille_x taille_y : Z).
Context (pietons : list Pieton.t).

Let voitures0 := phase_arrivees t voitures.
Let r := resolution_du_tick shuffle t voitures g feux dl dc pietons.

(** The cars that enter the apply phase are those phase 0 kept. *)
Lemma resolution_du_tick_meme :
  Forall2 meme_voiture voitures0 (voitures_res r).
Proof.
  subst voitures0 r. unfold resolution_du_tick.
  pose proof (phase_resolution_inv shuffle t feux pietons g
                (voitures_en_route (phase_arrivees t voitures))
                (phase_recalcul t g dl dc
                   (voitures_en_route (phase_arrivees t voitures))
                   (phase_arrivees t voitures))) as [H _ _ _].
  pose proof (phase_recalcul_meme t g dl dc
                (voitures_en_route (phase_arrivees t voitures))
                (phase_arrivees t voitures)) as H1.
  assert (H2 := Forall2_impl _ (λ v v', meme_voiture v v') _ _ H
                  (λ _ _ P, proj1 P)).
  clear H.
  revert H1 H2. generalize (phase_arrivees t voitures).
  intros l0 H1 H2.
  eapply Forall2_trans; [|exact H1|exact H2].
  intros a b c Hab Hbc. by etrans.
Qed.

Lemma resolution_du_tick_approved k p :
  approved_moves r !! k = Some p →
  (p ∉ positions_actives voitures0)
  ∧ est_deplacement_valide p feux pietons g = true.
Proof.
  subst voitures0 r. unfold resolution_du_tick. intros Hk.
  pose proof (phase_resolution_inv shuffle t feux pietons g
                (voitures_en_route (phase_arrivees t voitures))
                (phase_recalcul t g dl dc
                   (voitures_en_route (phase_arrivees t voitures))
                   (phase_arrivees t voitures))) as [_ _ H _].
  destruct (H k p Hk) as [Hp Hv]. split; [|done].
  destruct (meme_voiture_positions _ _
              (phase_recalcul_meme t g dl dc
                 (voitures_en_route (phase_arrivees t voitures))
                 (phase_arrivees t voitures))) as [<- _].
  done.
Qed.

Lemma resolution_du_tick_projected p :
  p ∈ positions_actives voitures0
  ∨ (∃ k, approved_moves r !! k = Some p) →
  p ∈ projected_occupied_cells r.
Proof.
  subst voitures0 r. unfold resolution_du_tick. intros Hp.
  pose proof (phase_resolution_inv shuffle t feux pietons g
                (voitures_en_route (phase_arrivees t voitures))
                (phase_recalcul t g dl dc
                   (voitures_en_route (phase_arrivees t voitures))
                   (phase_arrivees t voitures))) as [_ H _ _].
  apply H.
  destruct (meme_voiture_positions _ _
              (phase_recalcul_meme t g dl dc
                 (voitures_en_route (phase_arrivees t voitures))
                 (phase_arrivees t voitures))) as [-> _].
  done.
Qed.

Lemma resolution_du_tick_injectif k k' p :
  approved_moves r !! k = Some p → approved_moves r !! k' = Some p →
  k = k'.
Proof.
  subst r. unfold resolution_du_tick.
  pose proof (phase_resolution_inv shuffle t feux pietons g
                (voitures_en_route (phase_arrivees t voitures))
                (phase_recalcul t g dl dc
                   (voitures_en_route (phase_arrivees t voitures))
                   (phase_arrivees t voitures))) as [_ _ _ H].
  apply H.
Qed.

(** Each car phase 0 kept is the car at the same rank after the tick,
    either on the cell it was on or on the target of an approved move. *)
Lemma mettre_a_jour_voitures_suivi :
  Forall2 (λ v v',
             Voiture.id v' = Voiture.id v
             ∧ Voiture.destination v' = Voiture.destination v
             ∧ Voiture.temps_arrivee v' = Voiture.temps_arrivee v
             ∧ (Voiture.recalcul_echecs v' = Voiture.recalcul_echecs v
                ∨ Voiture.recalcul_echecs v' = 0)
             ∧ (Voiture.position v' = Voiture.position v
                ∨ approved_moves r !! Voiture.id v
                  = Some (Voiture.position v')))
          voitures0
          (mettre_a_jour_voitures shuffle t voitures g feux dl dc
             taille_x taille_y pietons).
Proof.
  unfold mettre_a_jour_voitures. fold r.
  apply Forall2_fmap_r.
  eapply Forall2_impl; [exact resolution_du_tick_meme|].
  intros v v' (Hid & Hp & Hd & Ha & Hr). simpl.
  destruct (appliquer_champs t (approved_moves r) v')
    as (Gid & Gd & Ga & Gr & Gp).
  rewrite Gid, Gd, Ga, Gr, Gp, Hid, Hd, Ha, Hp.
  split; [done|]. split; [done|]. split; [done|]. split; [exact Hr|].
  destruct (approved_moves r !! Voiture.id v) as [p|]; simpl; auto.
Qed.
End Tick.

(** *** Exclusion mutuelle *)

Lemma positions_actives_cons v l :
  positions_actives (v :: l)
  = if Voiture.en_route v then Voiture.position v :: positions_actives l
    else positions_actives l.
Proof.
  unfold positions_actives. rewrite filter_cons.
  destruct (Voiture.en_route v); simpl; done.
Qed.

Lemma exclusion_apres_application (a : gmap Z Position) (P : list Position)
    (l k : list Voiture.t) :
  Forall2 (λ v v',
             Voiture.id v' = Voiture.id v
             ∧ Voiture.temps_arrivee v' = Voiture.temps_arrivee v
             ∧ (Voiture.position v' = Voiture.position v
                ∨ a !! Voiture.id v = Some (Voiture.position v'))) l k →
  (∀ i p, a !! i = Some p → p ∉ P) →
  (∀ i j p, a !! i = Some p → a !! j = Some p → i = j) →
  (∀ p, p ∈ positions_actives l → p ∈ P) →
  NoDup (Voiture.id <$> l) → NoDup (positions_actives l) →
  NoDup (positions_actives k).
Proof.
  intros HF Hhors Hinj. induction HF as [|v v' l k Hv HF IH];
    intros HP Hid Hpos; [constructor|].
  rewrite positions_actives_cons in HP, Hpos.
  rewrite positions_actives_cons.
  rewrite fmap_cons in Hid. apply NoDup_cons in Hid as [Hidv Hid].
  destruct Hv as (Ei & Et & Ep).
  assert (Ee : Voiture.en_route v' = Voiture.en_route v)
    by (unfold Voiture.en_route; by rewrite Et).
  rewrite Ee. destruct (Voiture.en_route v) eqn:Hen.
  2:{ by apply IH. }
  apply NoDup_cons in Hpos as [Hpv Hpos].
  assert (HPl : ∀ p, p ∈ positions_actives l → p ∈ P).
  { intros p Hp. apply HP. by right. }
  apply NoDup_cons. split; [|by apply IH].
  intros Hin.
  (* the car of [k] that stands on the same cell *)
  assert (∃ w w', w ∈ l ∧ Voiture.en_route w = true
                  ∧ Voiture.position w' = Voiture.position v'
                  ∧ Voiture.id w' = Voiture.id w
                  ∧ (Voiture.position w' = Voiture.position w
                     ∨ a !! Voiture.id w = Some (Voiture.position w')))
    as (w & w' & Hw & Hwe & Hwp & Hwi & Hwm).
  { clear -HF Hin. unfold positions_actives in Hin.
    apply list_elem_of_fmap in Hin as (w' & Hp & Hw').
    apply list_elem_of_filter in Hw' as [He Hw'].
    apply list_elem_of_lookup_1 in Hw' as [i Hi].
    destruct (Forall2_lookup_r _ _ _ _ _ HF Hi) as (w & Hw & Gi & Gt & Gp).
    exists w, w'. split; [by eapply list_elem_of_lookup_2|].
    split; [|done].
    apply Is_true_true in He. unfold Voiture.en_route in *.
    by rewrite <- Gt. }
  assert (Hwl : Voiture.position w ∈ positions_actives l).
  { unfold positions_actives. apply list_elem_of_fmap. exists w.
    split; [done|]. apply list_elem_of_filter.
    split; [by apply Is_true_true|done]. }
  destruct Ep as [Ep|Ep]; destruct Hwm as [Hwm|Hwm].
  - apply Hpv. rewrite <- Ep, <- Hwp, Hwm. done.
  - rewrite Hwp, Ep in Hwm. apply (Hhors _ _ Hwm). apply HP. by left.
  - rewrite <- Hwp, Hwm in Ep. apply (Hhors _ _ Ep). by apply HPl.
  - rewrite Hwp in Hwm. pose proof (Hinj _ _ _ Ep Hwm) as Eid.
    apply Hidv. rewrite Eid. apply list_elem_of_fmap. by exists w.
Qed.

(** *** Feux, piétons et nature des cases *)

(** C4 — Gating. On a rectangular grid, when a light that is not green
    stands on the cell [c], or a pedestrian whose progress is below 1 is
    crossing on it, [est_deplacement_valide] rejects [c], no move approved
    by this call of [mettre_a_jour_voitures] has [c] as its target, and every
    car that is on [c] when the call returns was on [c] already. *)
Theorem aucun_mouvement_vers_case_fermee
    (shuffle : list nat → list nat) (temps_actuel : float)
    (voitures : list Voiture.t) (g : Grille) (feux : list Feu.t)
    (directions_lignes colonnes_directions : gmap Z string)
    (taille_x taille_y : Z) (pietons : list Pieton.t) (c : Position) :
  grille_rect g →
  case_fermee feux pietons c →
  est_deplacement_valide c feux pietons g = false
  ∧ (∀ k, approved_moves
            (resolution_du_tick shuffle temps_actuel voitures g feux
               directions_lignes colonnes_directions pietons) !! k
          ≠ Some c)
  ∧ Forall2 (λ v v', Voiture.position v' = c → Voiture.position v = c)
      (phase_arrivees temps_actuel voitures)
      (mettre_a_jour_voitures shuffle temps_actuel voitures g feux
         directions_lignes colonnes_directions taille_x taille_y pietons).
Proof.
  intros _ Hc.
  assert (Hf : est_deplacement_valide c feux pietons g = false).
  { apply not_true_iff_false. intros H.
    apply est_deplacement_valide_spec in H as [_ H]. by apply H. }
  assert (Ha : ∀ k, approved_moves
                      (resolution_du_tick shuffle temps_actuel voitures g feux
                         directions_lignes colonnes_directions pietons) !! k
                    ≠ Some c).
  { intros k Hk. apply resolution_du_tick_approved in Hk as [_ Hk].
    congruence. }
  split; [done|]. split; [done|].
  eapply Forall2_impl;
    [apply (mettre_a_jour_voitures_suivi shuffle temps_actuel voitures g
              feux directions_lignes colonnes_directions
              taille_x taille_y pietons)|].
  intros v v' (_ & _ & _ & _ & [Hp|Hp]) Hv'; [congruence|].
  rewrite Hv' in Hp. by destruct (Ha _ Hp).
Qed.

Lemma aucun_mouvement_vers_case_fermee_witness :
  grille_rect Exemple.grille_croix
  ∧ case_fermee [Scenario.feu_rouge] [] (1, 2)
  ∧ est_deplacement_valide (1, 2) [Scenario.feu_rouge] []
      Exemple.grille_croix = false
  ∧ Voiture.position
      <$> mettre_a_jour_voitures (λ l, l) 10%float
            [Scenario.voiture_ouest_en_chemin] Exemple.grille_croix
            [Scenario.feu_rouge] Exemple.lignes_croix Exemple.colonnes_croix
            5 5 []
    = [(0, 2)].
Proof.
  assert (Hc : case_fermee [Scenario.feu_rouge] [] (1, 2)).
  { left. exists Scenario.feu_rouge.
    split; [apply list_elem_of_singleton; reflexivity|].
    split; [reflexivity|discriminate]. }
  split; [exact grille_croix_rect|]. split; [exact Hc|].
  split; [|vm_compute; reflexivity].
  apply (aucun_mouvement_vers_case_fermee (λ l, l) 10%float
           [Scenario.voiture_ouest_en_chemin] Exemple.grille_croix
           [Scenario.feu_rouge] Exemple.lignes_croix Exemple.colonnes_croix
           5 5 [] (1, 2) grille_croix_rect Hc).
Defined.

(** C10 — Road-only moves. On a rectangular grid,
    [est_deplacement_valide] rejects every cell that lies outside the grid
    or does not hold the road symbol; every move approved by a call of
    [mettre_a_jour_voitures] targets a road cell of the grid; and a car
    that is on another cell when the call returns is on a road cell,
    whatever its stored path was. *)
Theorem mouvement_seulement_vers_route
    (shuffle : list nat → list nat) (temps_actuel : float)
    (voitures : list Voiture.t) (g : Grille) (feux : list Feu.t)
    (directions_lignes colonnes_directions : gmap Z string)
    (taille_x taille_y : Z) (pietons : list Pieton.t) :
  grille_rect g →
  (∀ pos, dans_limites (largeur g) (hauteur g) pos = false
          ∨ case_grille g pos ≠ Some ROUTE →
          est_deplacement_valide pos feux pietons g = false)
  ∧ (∀ k p, approved_moves
              (resolution_du_tick shuffle temps_actuel voitures g feux
                 directions_lignes colonnes_directions pietons) !! k
            = Some p →
            praticable g p)
  ∧ Forall2 (λ v v', Voiture.position v' ≠ Voiture.position v →
                     praticable g (Voiture.position v'))
      (phase_arrivees temps_actuel voitures)
      (mettre_a_jour_voitures shuffle temps_actuel voitures g feux
         directions_lignes colonnes_directions taille_x taille_y pietons).
Proof.
  intros _.
  assert (Ha : ∀ k p, approved_moves
                        (resolution_du_tick shuffle temps_actuel voitures g
                           feux directions_lignes colonnes_directions pietons)
                        !! k = Some p → praticable g p).
  { intros k p Hk. apply resolution_du_tick_approved in Hk as [_ Hk].
    by apply est_deplacement_valide_spec in Hk as [? _]. }
  split; [|split; [done|]].
  - intros pos H. apply not_true_iff_false. intros Hv.
    apply est_deplacement_valide_spec in Hv as [[Hl Hr] _].
    destruct H; congruence.
  - eapply Forall2_impl;
      [apply (mettre_a_jour_voitures_suivi shuffle temps_actuel voitures g
                feux directions_lignes colonnes_directions
                taille_x taille_y pietons)|].
    intros v v' (_ & _ & _ & _ & [Hp|Hp]) Hv'; [congruence|].
    by eapply Ha.
Qed.

Lemma mouvement_seulement_vers_route_witness :
  grille_rect Scenario.grille_barree
  ∧ est_deplacement_valide (2, 2) [] [] Scenario.grille_barree = false
  ∧ Voiture.position
      <$> mettre_a_jour_voitures (λ l, l) 10%float
            [Scenario.voiture_centre] Scenario.grille_barree []
            Exemple.lignes_croix Exemple.colonnes_croix 5 5 []
    = [(1, 2)].
Proof.
  assert (Hg : grille_rect Scenario.grille_barree)
    by (apply ecrire_case_rect, grille_croix_rect).
  split; [exact Hg|]. split; [|vm_compute; reflexivity].
  apply (mouvement_seulement_vers_route (λ l, l) 10%float
           [Scenario.voiture_centre] Scenario.grille_barree []
           Exemple.lignes_croix Exemple.colonnes_croix 5 5 [] Hg).
  right. vm_compute. discriminate.
Defined.

(** *** Escalade des blocages *)

Lemma phase_arrivees_origine t voitures v0 :
  v0 ∈ phase_arrivees t voitures →
  ∃ v, v ∈ voitures ∧ v0 = marquer_arrivee t v.
Proof.
  unfold phase_arrivees. intros H.
  apply list_elem_of_filter in H as [_ H].
  apply list_elem_of_fmap in H as (v & -> & Hv). eauto.
Qed.

(** What [trouver_nouvelle_destination_valide] returns, when it returns a
    cell: a road cell of the grid, escapable, other than the position of the
    car, outside the forbidden cells, and the goal of a path of more than
    one cell found by the planner. *)
Lemma chercher_destination_correct n tirage k pos interdites
    taille_x taille_y g dl dc d :
  chercher_destination n tirage k pos interdites taille_x taille_y g dl dc
  = Some d →
  dans_limites taille_x taille_y d = true
  ∧ est_route g d = true
  ∧ d ≠ pos
  ∧ (d ∉ interdites)
  ∧ est_case_escapable d taille_x taille_y g = true
  ∧ ∃ p, trouver_chemin g pos d dl dc = Chemin p ∧ (1 < length p)%nat.
Proof.
  revert k. induction n as [|n IH]; intros k; [done|]. simpl.
  destruct (_ && _) eqn:E; [|apply IH].
  destruct (trouver_chemin g pos (tirage k) dl dc) as [[|? [|? ?]]| |] eqn:E';
    try apply IH.
  intros [= <-].
  apply andb_prop in E as [E H5]. apply andb_prop in E as [E H4].
  apply andb_prop in E as [E H3]. apply andb_prop in E as [H1 H2].
  apply bool_decide_eq_true in H3, H4.
  repeat (split; [done|]). eexists. split; [done|]. simpl. lia.
Qed.

Lemma trouver_nouvelle_destination_valide_correct tirage v taille_x taille_y
    feux g dl dc voitures d :
  trouver_nouvelle_destination_valide tirage v taille_x taille_y feux g dl dc
    voitures = Some d →
  dans_limites taille_x taille_y d = true
  ∧ est_route g d = true
  ∧ d ≠ Voiture.position v
  ∧ (d ∉ positions_interdites_perm taille_x taille_y feux g)
  ∧ est_case_escapable d taille_x taille_y g = true
  ∧ ∃ p, trouver_chemin g (Voiture.position v) d dl dc = Chemin p
         ∧ (1 < length p)%nat.
Proof. apply chercher_destination_correct. Qed.

(** C1 — what the code does instead of escalating. No call of
    [mettre_a_jour_voitures] ever raises a failure count or changes a
    destination: every car of the list it returns is a car of the list it
    received, with the same destination and a failure count that is the same
    or 0. On the cross of the example with an obstacle on its centre, the
    car at (0, 2) bound for (2, 4) fails to replan at each of eight
    successive calls and ends them with a count of 0, its destination and
    the [bloquee_depuis] of the first failure; and a car whose count is
    already 7, above [MAX_RECALCUL_ECHECS], goes through a call with its
    count and destination untouched. *)
Theorem escalade_jamais_declenchee :
  (∀ (shuffle : list nat → list nat) (temps_actuel : float)
     (voitures : list Voiture.t) (g : Grille) (feux : list Feu.t)
     (directions_lignes colonnes_directions : gmap Z string)
     (taille_x taille_y : Z) (pietons : list Pieton.t),
     Forall (λ v', ∃ v, v ∈ voitures
                        ∧ Voiture.id v' = Voiture.id v
                        ∧ Voiture.destination v' = Voiture.destination v
                        ∧ (Voiture.recalcul_echecs v'
                           = Voiture.recalcul_echecs v
                           ∨ Voiture.recalcul_echecs v' = 0))
       (mettre_a_jour_voitures shuffle temps_actuel voitures g feux
          directions_lignes colonnes_directions taille_x taille_y pietons))
  ∧ trouver_chemin Scenario.grille_barree (0, 2) (2, 4)
      Exemple.lignes_croix Exemple.colonnes_croix = AucunChemin
  ∧ repeter_ticks 8 10%float [Scenario.voiture_ouest] Scenario.grille_barree
      [] Exemple.lignes_croix Exemple.colonnes_croix 5 5 []
    = [Voiture.mk 1 (0, 2) (2, 4) [] None 0%float 0 (Some 10%float) 0]
  ∧ mettre_a_jour_voitures (λ l, l) 10%float
      [Voiture.mk 1 (0, 2) (2, 4) [] None 0%float 0 (Some 0%float) 7]
      Scenario.grille_barree [] Exemple.lignes_croix Exemple.colonnes_croix
      5 5 []
    = [Voiture.mk 1 (0, 2) (2, 4) [] None 0%float 0 (Some 0%float) 7].
Proof.
  split; [|split; [|split]]; [|vm_compute; reflexivity..].
  intros. apply Forall_lookup. intros i v' Hv'.
  pose proof (mettre_a_jour_voitures_suivi shuffle temps_actuel voitures g
                feux directions_lignes colonnes_directions
                taille_x taille_y pietons) as HF.
  destruct (Forall2_lookup_r _ _ _ _ _ HF Hv')
    as (v0 & Hv0 & Hid & Hd & _ & Hr & _).
  apply list_elem_of_lookup_2, phase_arrivees_origine in Hv0
    as (v & Hv & ->).
  destruct (marquer_arrivee_champs temps_actuel v) as (Gid & _ & Gd & Gr).
  exists v. split; [done|]. rewrite Hid, Hd, Gid, Gd.
  split; [done|]. split; [done|].
  destruct Hr as [Hr|Hr]; [|by right]. rewrite Hr. exact Gr.
Qed.

(** * Propriétés complémentaires *)

(** ** Planificateur : chemins sans répétition *)

Section CheminsSimples.
Context (grille : Grille) (dl dc : gmap Z string).

Local Abbreviation itin := (itineraire grille dl dc).

Lemma itineraire_suffixe u w l x :
  itin u w l → x ∈ l →
  ∃ l', itin x w l' ∧ (length l' ≤ length l)%nat.
Proof.
induction 1 as [u Hu|u v w l Hu Huv Hl IH]; intros Hx.
- apply list_elem_of_singleton in Hx as ->.
  exists [u]. split; [by apply itineraire_fin|done].
- apply elem_of_cons in Hx as [->|Hx].
  + exists (u :: l). split; [by eapply itineraire_pas|done].
  + destruct (IH Hx) as (l' & Hl' & Hlen). exists l'.
    split; [done|simpl; lia].
Qed.

(** A route that visits a cell twice can be shortened. *)
Lemma itineraire_raccourci u w l :
  itin u w l → ¬ NoDup l →
  ∃ l', itin u w l' ∧ (length l' < length l)%nat.
Proof.
induction 1 as [u Hu|u v w l Hu Huv Hl IH]; intros Hnd.
- destruct Hnd. apply NoDup_singleton.
- destruct (decide (u ∈ l)) as [Hin|Hin].
  + destruct (itineraire_suffixe _ _ _ _ Hl Hin) as (l' & Hl' & Hlen).
    exists l'. split; [done|simpl; lia].
  + destruct IH as (l' & Hl' & Hlen).
    { intros Hl'. apply Hnd. by apply NoDup_cons. }
    exists (u :: l'). split; [by eapply itineraire_pas|simpl; lia].
Qed.

Lemma largeur_hauteur_cellules :
  nb_cellules grille = largeur grille * hauteur grille.
Proof. unfold nb_cellules, largeur, hauteur. lia. Qed.
End CheminsSimples.

(** X1 — A path returned by [trouver_chemin] never visits a cell twice: it
    has at most as many cells as the grid, and at least one more than the
    Manhattan distance between its ends. *)
Theorem trouver_chemin_sans_repetition
    (grille : Grille) (depart arrivee : Position)
    (directions_lignes directions_colonnes : gmap Z string)
    (p : list Position) :
  grille_rect grille →
  trouver_chemin grille depart arrivee directions_lignes directions_colonnes
  = Chemin p →
  NoDup p
  ∧ Z.of_nat (length p) ≤ largeur grille * hauteur grille
  ∧ heuristique depart arrivee + 1 ≤ Z.of_nat (length p).
Proof.
intros _ Hp.
pose proof (trouver_chemin_correct grille directions_lignes
              directions_colonnes depart arrivee) as H.
rewrite Hp in H. destruct H as [Hit Hmin].
assert (Hnd : NoDup p).
{ destruct (decide (NoDup p)) as [|Hn]; [done|].
  destruct (itineraire_raccourci _ _ _ _ _ _ Hit Hn) as (l' & Hl' & Hlen).
  specialize (Hmin l' Hl'). lia. }
split; [done|]. split.
- rewrite <- largeur_hauteur_cellules. by eapply itineraire_borne.
- by eapply heuristique_admissible.
Qed.

Lemma trouver_chemin_sans_repetition_witness :
  grille_rect Exemple.grille_croix
  ∧ trouver_chemin Exemple.grille_croix (0, 2) (2, 4)
      Exemple.lignes_croix Exemple.colonnes_croix
    = Chemin [(0, 2); (1, 2); (2, 2); (2, 3); (2, 4)]
  ∧ NoDup [(0, 2); (1, 2); (2, 2); (2, 3); (2, 4)]
  ∧ Z.of_nat (length [(0, 2); (1, 2); (2, 2); (2, 3); (2, 4)])
    ≤ largeur Exemple.grille_croix * hauteur Exemple.grille_croix
  ∧ heuristique (0, 2) (2, 4) + 1
    ≤ Z.of_nat (length [(0, 2); (1, 2); (2, 2); (2, 3); (2, 4)]).
Proof.
assert (H : trouver_chemin Exemple.grille_croix (0, 2) (2, 4)
              Exemple.lignes_croix Exemple.colonnes_croix
            = Chemin [(0, 2); (1, 2); (2, 2); (2, 3); (2, 4)])
  by (vm_compute; reflexivity).
split; [exact grille_croix_rect|]. split; [exact H|].
exact (trouver_chemin_sans_repetition Exemple.grille_croix (0, 2) (2, 4)
         Exemple.lignes_croix Exemple.colonnes_croix _ grille_croix_rect H).
Defined.

(** ** Grille : écritures *)

Lemma ecrire_case_dims g p s :
  largeur (ecrire_case g p s) = largeur g
  ∧ hauteur (ecrire_case g p s) = hauteur g.
Proof.
unfold ecrire_case, largeur, hauteur.
destruct (g !! Z.to_nat p.2) as [row|] eqn:Hrow; [|done].
rewrite length_insert. split; [|done]. f_equal.
destruct g as [|r g]; [done|].
destruct (Z.to_nat p.2) as [|n]; simpl; [|done].
injection Hrow as ->. by rewrite length_insert.
Qed.

Lemma ecrire_case_ecrire g p s s' :
  ecrire_case (ecrire_case g p s) p s' = ecrire_case g p s'.
Proof.
unfold ecrire_case.
destruct (g !! Z.to_nat p.2) as [row|] eqn:Hrow; [|by rewrite Hrow].
rewrite list_lookup_insert_eq by (by eapply lookup_lt_Some).
by rewrite !list_insert_insert_eq.
Qed.

Lemma ecrire_case_id g p s :
  case_grille g p = Some s → ecrire_case g p s = g.
Proof.
intros H. apply case_grille_Some in H as (_ & _ & row & Hrow & Hcol).
unfold ecrire_case. rewrite Hrow.
rewrite (list_insert_id row _ _ Hcol). by apply list_insert_id.
Qed.

Lemma toutes_positions_elem taille_x taille_y p :
  p ∈ toutes_positions taille_x taille_y
  ↔ dans_limites taille_x taille_y p = true.
Proof.
unfold toutes_positions, dans_limites. destruct p as [x y]. simpl.
rewrite list_elem_of_bind. split.
- intros (y' & Hx & Hy). apply list_elem_of_fmap in Hx as (x' & [= -> ->] & Hx).
  apply elem_of_seqZ in Hx, Hy. lia.
- intros H. exists y. split.
  + apply list_elem_of_fmap. exists x. split; [done|]. apply elem_of_seqZ. lia.
  + apply elem_of_seqZ. lia.
Qed.

(** What one successful placement does. *)
Lemma ajouter_obstacle_succes g x y feux g' :
  ajouter_obstacle_manuel g x y feux = (true, g')
  ∨ ajouter_obstacle_auto g x y feux = (true, g') →
  case_grille g (x, y) = Some ROUTE
  ∧ ((x, y) ∉ positions_feux feux)
  ∧ ∃ s, (s = OBSTACLE_MANUEL ∨ s = OBSTACLE_AUTO_SYM)
         ∧ g' = ecrire_case g (x, y) s.
Proof.
unfold ajouter_obstacle_manuel, ajouter_obstacle_auto.
destruct (case_grille g (x, y)) as [c|]; [|by intros [|]].
destruct (_ && _) eqn:E; [|by intros [|]].
apply andb_prop in E as [E _]. apply andb_prop in E as [E1 E2].
apply bool_decide_eq_true in E1 as ->. apply bool_decide_eq_true in E2.
intros [[= <-]|[= <-]]; eauto 10.
Qed.

Lemma ajouter_obstacle_echec g x y feux :
  (ajouter_obstacle_manuel g x y feux).1 = false →
  ajouter_obstacle_manuel g x y feux = (false, g).
Proof.
unfold ajouter_obstacle_manuel.
destruct (case_grille g (x, y)) as [c|]; [|done]. by destruct (_ && _).
Qed.

(** ** Planificateur et obstacles *)

Lemma itineraire_transfert g g' dl dc u w l :
  largeur g' = largeur g → hauteur g' = hauteur g →
  itineraire g dl dc u w l →
  (∀ x, x ∈ l → case_grille g' x = Some ROUTE) →
  itineraire g' dl dc u w l.
Proof.
intros Hl Hh. induction 1 as [u [Hu1 Hu2]|u v w l [Hu1 Hu2] Huv Hit IH];
  intros Hr.
- apply itineraire_fin. split; [by rewrite Hl, Hh|]. apply Hr. by left.
- assert (Hv : v ∈ l).
  { apply itineraire_tete in Hit. destruct l; [done|].
    injection Hit as ->. by left. }
  eapply itineraire_pas.
  + split; [by rewrite Hl, Hh|]. apply Hr. by left.
  + destruct Huv as [[Hv1 Hv2] Hd]. split; [|exact Hd].
    split; [by rewrite Hl, Hh|]. apply Hr. by right.
  + apply IH. intros x Hx. apply Hr. by right.
Qed.

Lemma itineraire_avec_obstacle g c s dl dc u w l :
  case_grille g c = Some ROUTE → s ≠ ROUTE →
  itineraire (ecrire_case g c s) dl dc u w l →
  itineraire g dl dc u w l ∧ c ∉ l.
Proof.
intros Hc Hs Hit.
pose proof (ecrire_case_modifiee g c ROUTE s Hc) as Hm.
destruct (ecrire_case_dims g c s) as [Hl Hh].
assert (Hr : ∀ x, x ∈ l → case_grille (ecrire_case g c s) x = Some ROUTE).
{ intros x Hx. by destruct (itineraire_praticable _ _ _ _ _ _ _ Hit Hx). }
split.
- eapply (itineraire_transfert (ecrire_case g c s) g); [done..|].
  intros x Hx. specialize (Hr x Hx). rewrite Hm in Hr.
  destruct (decide (x = c)); [congruence|done].
- intros Hin. specialize (Hr c Hin). rewrite Hm in Hr.
  rewrite decide_True in Hr by done. congruence.
Qed.

Lemma itineraire_sans_obstacle g c s dl dc u w l :
  case_grille g c = Some ROUTE →
  itineraire g dl dc u w l → c ∉ l →
  itineraire (ecrire_case g c s) dl dc u w l.
Proof.
intros Hc Hit Hin.
pose proof (ecrire_case_modifiee g c ROUTE s Hc) as Hm.
destruct (ecrire_case_dims g c s) as [Hl Hh].
eapply itineraire_transfert; [done..|].
intros x Hx. rewrite Hm. destruct (decide (x = c)) as [->|]; [done|].
by destruct (itineraire_praticable _ _ _ _ _ _ _ Hit Hx).
Qed.

Lemma obstacle_pas_route s :
  s = OBSTACLE_MANUEL ∨ s = OBSTACLE_AUTO_SYM → s ≠ ROUTE.
Proof. by intros [->| ->]. Qed.

(** X2 — An obstacle placed off the path. When [trouver_chemin] has returned
    a path and an obstacle, manual or automatic, is then placed on a cell
    that is not on it, [trouver_chemin] still returns a path for the same
    ends, of the same length. *)
Theorem obstacle_hors_du_chemin
    (g g' : Grille) (depart arrivee : Position)
    (directions_lignes directions_colonnes : gmap Z string)
    (p : list Position) (x y : Z) (feux : list Feu.t) :
  grille_rect g →
  trouver_chemin g depart arrivee directions_lignes directions_colonnes
  = Chemin p →
  (x, y) ∉ p →
  ajouter_obstacle_manuel g x y feux = (true, g')
  ∨ ajouter_obstacle_auto g x y feux = (true, g') →
  ∃ p', trouver_chemin g' depart arrivee
          directions_lignes directions_colonnes = Chemin p'
        ∧ length p' = length p.
Proof.
intros _ Hp Hxy Hg'.
apply ajouter_obstacle_succes in Hg' as (Hc & _ & s & Hs & ->).
apply obstacle_pas_route in Hs.
pose proof (trouver_chemin_correct g directions_lignes
              directions_colonnes depart arrivee) as H.
rewrite Hp in H. destruct H as [Hit Hmin].
pose proof (trouver_chemin_correct (ecrire_case g (x, y) s)
              directions_lignes directions_colonnes depart arrivee) as H'.
destruct (trouver_chemin (ecrire_case g (x, y) s) depart arrivee
            directions_lignes directions_colonnes) as [p'| |]; [| |done].
- destruct H' as [Hit' Hmin']. exists p'. split; [done|].
  apply (itineraire_avec_obstacle g (x, y) s) in Hit' as [Hit' _]; [|done..].
  specialize (Hmin p' Hit').
  specialize (Hmin' p (itineraire_sans_obstacle g (x, y) s _ _ _ _ _
                         Hc Hit Hxy)).
  lia.
- destruct (H' p). by apply itineraire_sans_obstacle.
Qed.

Lemma obstacle_hors_du_chemin_witness :
  grille_rect Exemple.grille_croix
  ∧ trouver_chemin Exemple.grille_croix (0, 2) (2, 2)
      Exemple.lignes_croix Exemple.colonnes_croix
    = Chemin [(0, 2); (1, 2); (2, 2)]
  ∧ ((2, 3) ∉ [(0, 2); (1, 2); (2, 2)])
  ∧ ajouter_obstacle_manuel Exemple.grille_croix 2 3 []
    = (true, ecrire_case Exemple.grille_croix (2, 3) OBSTACLE_MANUEL)
  ∧ ∃ p', trouver_chemin
            (ecrire_case Exemple.grille_croix (2, 3) OBSTACLE_MANUEL)
            (0, 2) (2, 2) Exemple.lignes_croix Exemple.colonnes_croix
          = Chemin p'
          ∧ length p' = length [(0, 2); (1, 2); (2, 2)].
Proof.
assert (H1 : trouver_chemin Exemple.grille_croix (0, 2) (2, 2)
               Exemple.lignes_croix Exemple.colonnes_croix
             = Chemin [(0, 2); (1, 2); (2, 2)]) by (vm_compute; reflexivity).
assert (H2 : (2, 3) ∉ [(0, 2); (1, 2); (2, 2)]) by compute_done.
assert (H3 : ajouter_obstacle_manuel Exemple.grille_croix 2 3 []
             = (true, ecrire_case Exemple.grille_croix (2, 3)
                        OBSTACLE_MANUEL)) by (vm_compute; reflexivity).
split; [exact grille_croix_rect|]. split; [exact H1|]. split; [exact H2|].
split; [exact H3|].
exact (obstacle_hors_du_chemin Exemple.grille_croix _ (0, 2) (2, 2)
         Exemple.lignes_croix Exemple.colonnes_croix _ 2 3 []
         grille_croix_rect H1 H2 (or_introl H3)).
Defined.

(** X3 — Obstacles and routes. After an obstacle, manual or automatic, has
    been placed on a cell, no path returned by [trouver_chemin] goes through
    that cell, and whenever a path is returned, the grid without the obstacle
    had a path for the same ends that is not longer: an obstacle never opens
    or shortens a route. *)
Theorem obstacle_jamais_traverse
    (g g' : Grille) (depart arrivee : Position)
    (directions_lignes directions_colonnes : gmap Z string)
    (p' : list Position) (x y : Z) (feux : list Feu.t) :
  grille_rect g →
  ajouter_obstacle_manuel g x y feux = (true, g')
  ∨ ajouter_obstacle_auto g x y feux = (true, g') →
  trouver_chemin g' depart arrivee directions_lignes directions_colonnes
  = Chemin p' →
  ((x, y) ∉ p')
  ∧ ∃ p, trouver_chemin g depart arrivee
           directions_lignes directions_colonnes = Chemin p
         ∧ (length p ≤ length p')%nat.
Proof.
intros _ Hg' Hp'.
apply ajouter_obstacle_succes in Hg' as (Hc & _ & s & Hs & ->).
apply obstacle_pas_route in Hs.
pose proof (trouver_chemin_correct (ecrire_case g (x, y) s)
              directions_lignes directions_colonnes depart arrivee) as H'.
rewrite Hp' in H'. destruct H' as [Hit' _].
apply (itineraire_avec_obstacle g (x, y) s) in Hit' as [Hit' Hxy]; [|done..].
split; [done|].
pose proof (trouver_chemin_correct g directions_lignes
              directions_colonnes depart arrivee) as H.
destruct (trouver_chemin g depart arrivee directions_lignes
            directions_colonnes) as [p| |]; [| |done].
- destruct H as [_ Hmin]. exists p. split; [done|]. by apply Hmin.
- by destruct (H p').
Qed.

Lemma obstacle_jamais_traverse_witness :
  grille_rect Exemple.grille_croix
  ∧ ajouter_obstacle_auto Exemple.grille_croix 2 3 []
    = (true, ecrire_case Exemple.grille_croix (2, 3) OBSTACLE_AUTO_SYM)
  ∧ trouver_chemin (ecrire_case Exemple.grille_croix (2, 3) OBSTACLE_AUTO_SYM)
      (0, 2) (4, 2) Exemple.lignes_croix Exemple.colonnes_croix
    = Chemin [(0, 2); (1, 2); (2, 2); (3, 2); (4, 2)]
  ∧ ((2, 3) ∉ [(0, 2); (1, 2); (2, 2); (3, 2); (4, 2)])
  ∧ ∃ p, trouver_chemin Exemple.grille_croix (0, 2) (4, 2)
           Exemple.lignes_croix Exemple.colonnes_croix = Chemin p
         ∧ (length p ≤ length [(0, 2); (1, 2); (2, 2); (3, 2); (4, 2)])%nat.
Proof.
assert (H1 : ajouter_obstacle_auto Exemple.grille_croix 2 3 []
             = (true, ecrire_case Exemple.grille_croix (2, 3)
                        OBSTACLE_AUTO_SYM)) by (vm_compute; reflexivity).
assert (H2 : trouver_chemin
               (ecrire_case Exemple.grille_croix (2, 3) OBSTACLE_AUTO_SYM)
               (0, 2) (4, 2) Exemple.lignes_croix Exemple.colonnes_croix
             = Chemin [(0, 2); (1, 2); (2, 2); (3, 2); (4, 2)])
  by (vm_compute; reflexivity).
split; [exact grille_croix_rect|]. split; [exact H1|]. split; [exact H2|].
exact (obstacle_jamais_traverse Exemple.grille_croix _ (0, 2) (4, 2)
         Exemple.lignes_croix Exemple.colonnes_croix _ 2 3 []
         grille_croix_rect (or_intror H1) H2).
Defined.

(** ** Modifications de la grille par la boucle principale *)

Lemma ecrire_case_ailleurs g c s0 s q :
  case_grille g c = Some s0 → q ≠ c →
  case_grille (ecrire_case g c s) q = case_grille g q.
Proof.
intros Hc Hq. rewrite (ecrire_case_modifiee g c s0 s Hc q).
by rewrite decide_False.
Qed.

Lemma ecrire_case_ici g c s0 s :
  case_grille g c = Some s0 → case_grille (ecrire_case g c s) c = Some s.
Proof.
intros Hc. rewrite (ecrire_case_modifiee g c s0 s Hc c).
by rewrite decide_True.
Qed.

(** The four edits as one write, or nothing. *)
Lemma appliquer_edition_cas taille_x taille_y feux ed e :
  (appliquer_edition taille_x taille_y feux ed e).1 = e.1
  ∨ ∃ c s,
      (appliquer_edition taille_x taille_y feux ed e).1 = ecrire_case e.1 c s
      ∧ dans_limites taille_x taille_y c = true
      ∧ ((case_grille e.1 c = Some ROUTE ∧ (c ∉ positions_feux feux)
          ∧ (s = OBSTACLE_MANUEL ∨ s = OBSTACLE_AUTO_SYM))
         ∨ ((case_grille e.1 c = Some OBSTACLE_MANUEL
             ∨ case_grille e.1 c = Some OBSTACLE_AUTO_SYM) ∧ s = ROUTE)).
Proof.
destruct e as [g vs]. destruct ed as [cx cy|cx cy|choix|choix]; simpl.
- unfold clic_gauche. simpl.
  destruct (dans_limites _ _ _) eqn:Hlim; [|by left].
  destruct (ajouter_obstacle_manuel g cx cy feux) as [[] g'] eqn:Ha; simpl.
  + destruct (ajouter_obstacle_succes g cx cy feux g' (or_introl Ha))
      as (Hc & Hf & s & Hs & ->).
    right. exists (cx, cy), s. eauto 10.
  + left. pose proof (ajouter_obstacle_echec g cx cy feux) as H.
    rewrite Ha in H. by injection (H eq_refl).
- unfold clic_droit. simpl.
  destruct (dans_limites _ _ _) eqn:Hlim; [|by left].
  case_bool_decide as Hc; [|by left].
  right. exists (cx, cy), ROUTE. eauto 10.
- unfold obstacle_auto_ajout. simpl.
  destruct (possible_add_positions _ _ _ _ !! choix) as [[ox oy]|] eqn:Hp;
    [|by left].
  apply list_elem_of_lookup_2, list_elem_of_filter in Hp as [_ Hlim].
  apply toutes_positions_elem in Hlim.
  destruct (ajouter_obstacle_auto g ox oy feux) as [[] g'] eqn:Ha; simpl.
  + destruct (ajouter_obstacle_succes g ox oy feux g' (or_intror Ha))
      as (Hc & Hf & s & Hs & ->).
    right. exists (ox, oy), s. eauto 10.
  + left. revert Ha. unfold ajouter_obstacle_auto.
    destruct (case_grille g (ox, oy)); [|congruence].
    destruct (_ && _); congruence.
- unfold obstacle_auto_retrait. simpl.
  destruct (current_obstacle_auto_positions _ _ _ !! choix) as [c|] eqn:Hp;
    [|by left].
  apply list_elem_of_lookup_2, list_elem_of_filter in Hp as [Hc Hlim].
  apply toutes_positions_elem in Hlim.
  right. exists c, ROUTE. eauto 10.
Qed.

(** X4 — Left click then right click. On a cell that does not already hold
    a manual obstacle, a left click followed by a right click on the same
    cell leaves the grid exactly as it was, whether the left click placed an
    obstacle or was refused. *)
Theorem clic_gauche_puis_droit
    (taille_x taille_y : Z) (feux : list Feu.t) (cx cy : Z) (e : Etat) :
  case_grille e.1 (cx, cy) ≠ Some OBSTACLE_MANUEL →
  (clic_droit taille_x taille_y cx cy
     (clic_gauche taille_x taille_y feux cx cy e)).1 = e.1.
Proof.
destruct e as [g vs]. simpl. intros Hc.
unfold clic_gauche, clic_droit. simpl.
destruct (dans_limites _ _ _) eqn:Hlim; simpl; [|done].
unfold ajouter_obstacle_manuel.
destruct (case_grille g (cx, cy)) as [c|] eqn:Hcell; simpl;
  [|by rewrite Hcell].
destruct (_ && _) eqn:E; simpl.
- apply andb_prop in E as [E _]. apply andb_prop in E as [E _].
  apply bool_decide_eq_true in E as ->.
  rewrite (ecrire_case_ici _ _ _ OBSTACLE_MANUEL Hcell).
  rewrite bool_decide_eq_true_2 by done. simpl.
  rewrite ecrire_case_ecrire. by apply ecrire_case_id.
- rewrite Hcell. by rewrite bool_decide_eq_false_2.
Qed.

Lemma clic_gauche_puis_droit_witness :
  case_grille (Exemple.grille_croix, [Scenario.voiture_ouest_en_chemin]).1
    (2, 2) ≠ Some OBSTACLE_MANUEL
  ∧ (clic_gauche 5 5 [] 2 2
       (Exemple.grille_croix, [Scenario.voiture_ouest_en_chemin])).1
    = Scenario.grille_barree
  ∧ (clic_droit 5 5 2 2
       (clic_gauche 5 5 [] 2 2
          (Exemple.grille_croix, [Scenario.voiture_ouest_en_chemin]))).1
    = Exemple.grille_croix.
Proof.
assert (H : case_grille
              (Exemple.grille_croix, [Scenario.voiture_ouest_en_chemin]).1
              (2, 2) ≠ Some OBSTACLE_MANUEL) by (vm_compute; congruence).
split; [exact H|]. split; [vm_compute; reflexivity|].
exact (clic_gauche_puis_droit 5 5 [] 2 2
         (Exemple.grille_croix, [Scenario.voiture_ouest_en_chemin]) H).
Defined.

(** X5 — What an edit of the main loop does to the grid. Each of the four
    edits (left click, right click, automatic add, automatic removal) keeps
    the dimensions and the rectangular shape of the grid, and either leaves
    the grid as it is or changes one cell, inside the limits: a road cell
    with no light on it becomes an obstacle, or an obstacle becomes road. *)
Theorem edition_change_une_case
    (taille_x taille_y : Z) (feux : list Feu.t) (ed : Edition) (e : Etat) :
  largeur (appliquer_edition taille_x taille_y feux ed e).1 = largeur e.1
  ∧ hauteur (appliquer_edition taille_x taille_y feux ed e).1 = hauteur e.1
  ∧ (grille_rect e.1 →
     grille_rect (appliquer_edition taille_x taille_y feux ed e).1)
  ∧ ((appliquer_edition taille_x taille_y feux ed e).1 = e.1
     ∨ ∃ c,
         dans_limites taille_x taille_y c = true
         ∧ changement_permis
             (case_grille e.1 c)
             (case_grille (appliquer_edition taille_x taille_y feux ed e).1 c)
         ∧ (case_grille e.1 c = Some ROUTE → c ∉ positions_feux feux)
         ∧ ∀ q, q ≠ c →
             case_grille (appliquer_edition taille_x taille_y feux ed e).1 q
             = case_grille e.1 q).
Proof.
destruct (appliquer_edition_cas taille_x taille_y feux ed e)
  as [->|(c & s & -> & Hlim & Hcas)]; [by auto|].
destruct (ecrire_case_dims e.1 c s) as [Hl Hh].
split; [done|]. split; [done|]. split; [apply ecrire_case_rect|].
right. exists c. split; [done|].
destruct Hcas as [(Hc & Hf & Hs)|[Hc ->]].
- rewrite (ecrire_case_ici _ _ _ s Hc). split; [|split].
  + unfold changement_permis. destruct Hs as [->| ->]; auto.
  + done.
  + intros q Hq. by eapply ecrire_case_ailleurs.
- assert (∃ s0, case_grille e.1 c = Some s0 ∧ s0 ≠ ROUTE
                ∧ (s0 = OBSTACLE_MANUEL ∨ s0 = OBSTACLE_AUTO_SYM))
    as (s0 & Hs0 & Hne & Hs).
  { destruct Hc as [Hc|Hc]; eexists; (split; [exact Hc|]); split; auto;
      done. }
  rewrite (ecrire_case_ici _ _ _ ROUTE Hs0). split; [|split].
  + unfold changement_permis. rewrite Hs0. destruct Hs as [->| ->]; auto.
  + rewrite Hs0. by intros [= ->].
  + intros q Hq. by eapply ecrire_case_ailleurs.
Qed.

(** X6 — The decor is out of reach of the edits. Through any sequence of
    edits of the main loop, a non-road cell stays a non-road cell and a road
    cell under a traffic light stays a road cell. *)
Theorem editions_preservent_decor
    (taille_x taille_y : Z) (feux : list Feu.t) (eds : list Edition)
    (e : Etat) (q : Position) :
  case_grille e.1 q = Some NON_ROUTIER
  ∨ (q ∈ positions_feux feux ∧ case_grille e.1 q = Some ROUTE) →
  case_grille
    (foldl (λ e ed, appliquer_edition taille_x taille_y feux ed e) e eds).1 q
  = case_grille e.1 q.
Proof.
revert e. induction eds as [|ed eds IH]; intros e Hq; [done|]. simpl.
assert (Hstep : case_grille
                  (appliquer_edition taille_x taille_y feux ed e).1 q
                = case_grille e.1 q).
{ destruct (appliquer_edition_cas taille_x taille_y feux ed e)
    as [->|(c & s & -> & _ & Hcas)]; [done|].
  destruct (decide (q = c)) as [->|Hne].
  - exfalso. destruct Hq as [Hq|[Hf Hq]], Hcas as [(Hc & Hnf & _)|[[Hc|Hc] _]];
      rewrite Hq in Hc; done.
  - destruct Hcas as [(Hc & _)|[[Hc|Hc] _]];
      by eapply ecrire_case_ailleurs. }
rewrite IH; rewrite Hstep; done.
Qed.

Lemma editions_preservent_decor_witness :
  (case_grille (Exemple.grille_croix, @nil Voiture.t).1 (0, 0)
   = Some NON_ROUTIER
   ∨ ((0, 0) ∈ positions_feux []
      ∧ case_grille (Exemple.grille_croix, @nil Voiture.t).1 (0, 0)
        = Some ROUTE))
  ∧ case_grille
      (foldl (λ e ed, appliquer_edition 5 5 [] ed e)
         (Exemple.grille_croix, [])
         [ClicGauche 0 0; AutoAjout 0; ClicDroit 0 0; AutoRetrait 0]).1 (0, 0)
    = case_grille (Exemple.grille_croix, @nil Voiture.t).1 (0, 0).
Proof.
assert (H : case_grille (Exemple.grille_croix, @nil Voiture.t).1 (0, 0)
            = Some NON_ROUTIER
            ∨ ((0, 0) ∈ positions_feux []
               ∧ case_grille (Exemple.grille_croix, @nil Voiture.t).1 (0, 0)
                 = Some ROUTE)) by (left; vm_compute; reflexivity).
split; [exact H|].
exact (editions_preservent_decor 5 5 []
         [ClicGauche 0 0; AutoAjout 0; ClicDroit 0 0; AutoRetrait 0]
         (Exemple.grille_croix, []) (0, 0) H).
Defined.

(** X7 — The automatic add never fails on its candidate. Every cell of
    [possible_add_positions] is accepted by [ajouter_obstacle_auto]: when the
    list has an element at the drawn index, the add action writes an
    automatic obstacle there and replans the cars the cell affects; and the
    cell was a road cell inside the limits, with no light on it. *)
Theorem obstacle_auto_ajout_reussit
    (taille_x taille_y : Z) (feux : list Feu.t) (choix : nat) (e : Etat)
    (ox oy : Z) :
  possible_add_positions taille_x taille_y feux e.1 !! choix
  = Some (ox, oy) →
  obstacle_auto_ajout taille_x taille_y feux choix e
  = (ecrire_case e.1 (ox, oy) OBSTACLE_AUTO_SYM,
     forcer_recalcul_si_affecte ox oy e.2)
  ∧ case_grille e.1 (ox, oy) = Some ROUTE
  ∧ dans_limites taille_x taille_y (ox, oy) = true
  ∧ (ox, oy) ∉ positions_feux feux.
Proof.
intros Hp. unfold obstacle_auto_ajout. rewrite Hp.
apply list_elem_of_lookup_2, list_elem_of_filter in Hp as [Hok Hlim].
apply toutes_positions_elem in Hlim.
apply Is_true_true, andb_prop in Hok as [Hr Hi].
apply bool_decide_eq_true in Hr, Hi.
assert (Hf : (ox, oy) ∉ positions_feux feux).
{ intros Hf. apply Hi. unfold positions_interdites_perm.
  apply elem_of_union. by left. }
split; [|done].
unfold ajouter_obstacle_auto. rewrite Hr.
rewrite (bool_decide_eq_true_2 _ Hf). done.
Qed.

Lemma obstacle_auto_ajout_reussit_witness :
  possible_add_positions 5 5 []
    (Exemple.grille_croix, [Scenario.voiture_ouest_en_chemin]).1 !! 4%nat
  = Some (2, 2)
  ∧ obstacle_auto_ajout 5 5 [] 4
      (Exemple.grille_croix, [Scenario.voiture_ouest_en_chemin])
    = (ecrire_case Exemple.grille_croix (2, 2) OBSTACLE_AUTO_SYM,
       forcer_recalcul_si_affecte 2 2 [Scenario.voiture_ouest_en_chemin]).
Proof.
assert (H : possible_add_positions 5 5 []
              (Exemple.grille_croix, [Scenario.voiture_ouest_en_chemin]).1
              !! 4%nat = Some (2, 2)) by (vm_compute; reflexivity).
split; [exact H|].
exact (proj1 (obstacle_auto_ajout_reussit 5 5 [] 4
                (Exemple.grille_croix, [Scenario.voiture_ouest_en_chemin])
                2 2 H)).
Defined.

(** ** Replanification forcée et nouvelle destination *)

(** X8 — The forced-replan hook touches nothing else. For an obstacle on
    [(x, y)], [forcer_recalcul_si_affecte] leaves every car as it is, except
    the cars that have not arrived, do not stand on the cell and have it on
    their path or as their destination: of those it empties the path and
    zeroes the failure count, and changes nothing else. Afterwards no such
    car has the cell on its path, and a second call changes nothing. *)
Theorem forcer_recalcul_cadre (x y : Z) (voitures : list Voiture.t) :
  Forall2 (λ v v',
             v' = v
             ∨ (v' = Voiture.set_recalcul_echecs 0 (Voiture.set_chemin [] v)
                ∧ Voiture.en_route v = true
                ∧ Voiture.position v ≠ (x, y)
                ∧ ((x, y) ∈ Voiture.chemin v
                   ∨ Voiture.destination v = (x, y))))
          voitures (forcer_recalcul_si_affecte x y voitures)
  ∧ (∀ v', v' ∈ forcer_recalcul_si_affecte x y voitures →
           Voiture.en_route v' = true → Voiture.position v' ≠ (x, y) →
           (x, y) ∉ Voiture.chemin v')
  ∧ forcer_recalcul_si_affecte x y (forcer_recalcul_si_affecte x y voitures)
    = forcer_recalcul_si_affecte x y voitures.
Proof.
unfold forcer_recalcul_si_affecte. split; [|split].
- apply Forall2_fmap_r, Forall_Forall2_diag, Forall_forall. intros v _.
  simpl. destruct (Voiture.en_route v) eqn:He; simpl; [|by left].
  case_bool_decide as Hp; simpl; [|by left].
  destruct (_ || _) eqn:E; [|by left].
  right. apply orb_prop in E as [E|E]; apply bool_decide_eq_true in E; auto.
- intros v' Hv' He Hp. apply list_elem_of_fmap in Hv' as (v & -> & _).
  revert He Hp. cbv beta zeta. destruct (Voiture.en_route v) eqn:He; simpl.
  + case_bool_decide as Hp; simpl.
    * destruct (_ || _) eqn:E; simpl.
      -- intros _ _. apply not_elem_of_nil.
      -- intros _ _. apply orb_false_elim in E as [E _].
         by apply bool_decide_eq_false in E.
    * by rewrite He.
  + by rewrite He.
- rewrite <- list_fmap_compose. apply list_fmap_ext. intros _ v _. simpl.
  destruct v as [i po de ch ta dd o bd re]. unfold Voiture.en_route. simpl.
  destruct ta as [ta|]; simpl; [done|].
  case_bool_decide as Hp; simpl;
    [|by rewrite bool_decide_eq_false_2 by auto].
  destruct (_ || _) eqn:E; simpl.
  + rewrite bool_decide_eq_true_2 by done. simpl.
    by destruct (bool_decide (de = (x, y))).
  + rewrite bool_decide_eq_true_2 by done. simpl. by rewrite E.
Qed.

Lemma chercher_destination_premier n tirage k pos interdites
    taille_x taille_y g dl dc :
  chercher_destination n tirage k pos interdites taille_x taille_y g dl dc
  = head (filter (λ d, destination_admissible pos interdites
                         taille_x taille_y g dl dc d)
                 (tirage <$> seq k n)).
Proof.
revert k. induction n as [|n IH]; intros k; [done|].
simpl. rewrite filter_cons.
destruct (decide _) as [Ha|Ha].
- apply Is_true_true in Ha. unfold destination_admissible in Ha.
  apply andb_prop in Ha as [-> Ha].
  by destruct (trouver_chemin g pos (tirage k) dl dc) as [[|? [|? ?]]| |].
- apply Is_true_false in Ha. unfold destination_admissible in Ha.
  match goal with
  | |- context [if ?b then _ else _] => destruct b; [|apply IH]
  end.
  simpl in Ha.
  destruct (trouver_chemin g pos (tirage k) dl dc) as [[|? [|? ?]]| |];
    try apply IH. done.
Qed.

(** X9 — The destination search. [trouver_nouvelle_destination_valide]
    returns the first of its 300 draws that passes all the tests, and
    nothing when none does. A cell it returns is never the cell of the car
    nor the cell of a traffic light, and the grid has a shortest legal route
    from the car to it, of at least two cells. *)
Theorem trouver_nouvelle_destination_premier_tirage
    (tirage : nat → Position) (v : Voiture.t) (taille_x taille_y : Z)
    (feux : list Feu.t) (g : Grille)
    (directions_lignes colonnes_directions : gmap Z string)
    (voitures : list Voiture.t) :
  trouver_nouvelle_destination_valide tirage v taille_x taille_y feux g
    directions_lignes colonnes_directions voitures
  = head (filter (λ d, destination_admissible (Voiture.position v)
                         (positions_interdites_perm taille_x taille_y feux g)
                         taille_x taille_y g
                         directions_lignes colonnes_directions d)
                 (tirage <$> seq 0 300))
  ∧ ∀ d,
      trouver_nouvelle_destination_valide tirage v taille_x taille_y feux g
        directions_lignes colonnes_directions voitures = Some d →
      d ≠ Voiture.position v
      ∧ (d ∉ positions_feux feux)
      ∧ ∃ p, plus_court_itineraire g directions_lignes colonnes_directions
               (Voiture.position v) d p
             ∧ (2 ≤ length p)%nat.
Proof.
split; [apply chercher_destination_premier|].
intros d Hd.
apply trouver_nouvelle_destination_valide_correct in Hd
  as (_ & _ & Hne & Hi & _ & p & Hp & Hlen).
split; [done|]. split.
- intros Hf. apply Hi. unfold positions_interdites_perm.
  apply elem_of_union. by left.
- exists p. split; [|lia].
  pose proof (trouver_chemin_correct g directions_lignes colonnes_directions
                (Voiture.position v) d) as H.
  rewrite Hp in H. destruct H as [H1 H2]. split; [done|].
  intros r Hr. specialize (H2 r Hr). lia.
Qed.

(** ** Piétons : invariants *)

Lemma avancer_champs voitures p :
  Pieton.id (avancer voitures p) = Pieton.id p
  ∧ Pieton.passage_pos (avancer voitures p) = Pieton.passage_pos p
  ∧ Pieton.orientation (avancer voitures p) = Pieton.orientation p.
Proof. unfold avancer. by destruct (negb _). Qed.

Lemma faire_avancer_origine pietons voitures p' :
  p' ∈ faire_avancer pietons voitures →
  en_traversee p' = true
  ∧ ∃ p, p ∈ pietons ∧ p' = avancer voitures p.
Proof.
unfold faire_avancer. intros H.
apply list_elem_of_filter in H as [Ht H].
apply list_elem_of_fmap in H as (p & -> & Hp).
split; [by apply Is_true_true|eauto].
Qed.

Lemma faire_avancer_sous_liste {A} (f : Pieton.t → A) pietons voitures :
  (∀ p, f (avancer voitures p) = f p) →
  (f <$> faire_avancer pietons voitures) `sublist_of` (f <$> pietons).
Proof.
intros Hf. unfold faire_avancer.
induction pietons as [|p l IH]; [done|].
rewrite !fmap_cons, filter_cons. destruct (decide _).
- rewrite fmap_cons, Hf. by apply sublist_skip.
- by apply sublist_cons.
Qed.

Lemma faire_avancer_coherents passages pietons voitures prochain :
  pietons_coherents passages pietons prochain →
  pietons_coherents passages (faire_avancer pietons voitures) prochain.
Proof.
intros [H1 H2 H3 H4 H5]. split.
- eapply sublist_NoDup; [exact H1|].
  apply faire_avancer_sous_liste. intros p. apply avancer_champs.
- eapply sublist_NoDup; [exact H2|].
  apply faire_avancer_sous_liste. intros p. apply avancer_champs.
- intros p' Hp'. apply faire_avancer_origine in Hp' as (_ & p & Hp & ->).
  destruct (avancer_champs voitures p) as (-> & _). by apply H3.
- intros p' Hp'. by apply faire_avancer_origine in Hp' as (? & _).
- intros p' Hp'. apply faire_avancer_origine in Hp' as (_ & p & Hp & ->).
  destruct (avancer_champs voitures p) as (_ & -> & ->). by apply H5.
Qed.

(** What the spawning part does: nothing, or one pedestrian more. *)
Lemma faire_apparaitre_cas alea choix prochain passages pietons voitures :
  faire_apparaitre alea choix prochain passages pietons voitures
  = (pietons, prochain)
  ∨ ∃ c, passages !! choix = Some c
         ∧ (∀ p, p ∈ pietons → Pieton.passage_pos p ≠ Passage.position c)
         ∧ (∀ v, v ∈ voitures → Voiture.position v ≠ Passage.position c)
         ∧ faire_apparaitre alea choix prochain passages pietons voitures
           = (pietons ++ [Pieton.mk prochain (Passage.position c)
                            (Passage.orientation c) 0%float],
              prochain + 1).
Proof.
unfold faire_apparaitre.
destruct (_ && _); [|by left].
destruct (passages !! choix) as [c|] eqn:Hc; [|by left].
destruct (existsb _ pietons) eqn:Ep; simpl; [by left|].
destruct (existsb _ voitures) eqn:Ev; simpl; [by left|].
right. exists c. split; [done|].
rewrite <- not_true_iff_false in Ep, Ev. split; [|split; [|done]].
- intros p Hp Heq. apply Ep, existsb_exists. exists p.
  rewrite <- list_elem_of_In. split; [done|]. by apply bool_decide_eq_true.
- intros v Hv Heq. apply Ev, existsb_exists. exists v.
  rewrite <- list_elem_of_In. split; [done|]. by apply bool_decide_eq_true.
Qed.

Lemma faire_apparaitre_coherents alea choix prochain passages pietons
    voitures :
  pietons_coherents passages pietons prochain →
  pietons_coherents passages
    (faire_apparaitre alea choix prochain passages pietons voitures).1
    (faire_apparaitre alea choix prochain passages pietons voitures).2.
Proof.
intros Hc.
destruct (faire_apparaitre_cas alea choix prochain passages pietons
            voitures) as [->|(c & Hch & Hp & _ & ->)]; simpl; [done|].
destruct Hc as [H1 H2 H3 H4 H5]. split.
- rewrite fmap_app. simpl. apply NoDup_app. split; [done|]. split.
  + intros x Hx Hx'. apply list_elem_of_singleton in Hx' as ->.
    apply list_elem_of_fmap in Hx as (p & Heq & Hin). by apply (Hp p).
  + apply NoDup_singleton.
- rewrite fmap_app. simpl. apply NoDup_app. split; [done|]. split.
  + intros x Hx Hx'. apply list_elem_of_singleton in Hx' as ->.
    apply list_elem_of_fmap in Hx as (p & Heq & Hin).
    specialize (H3 p Hin). lia.
  + apply NoDup_singleton.
- intros p Hin. apply elem_of_app in Hin as [Hin|Hin].
  + specialize (H3 p Hin). lia.
  + apply list_elem_of_singleton in Hin as ->. simpl. lia.
- intros p Hin. apply elem_of_app in Hin as [Hin|Hin]; [by apply H4|].
  by apply list_elem_of_singleton in Hin as ->.
- intros p Hin. apply elem_of_app in Hin as [Hin|Hin]; [by apply H5|].
  apply list_elem_of_singleton in Hin as ->. simpl.
  exists c. split; [|done]. by eapply list_elem_of_lookup_2.
Qed.

(** X10 — The pedestrians stay in order. When the active pedestrians are at
    most one per crossing, carry distinct identifiers below the counter
    [prochain_id_pieton], are all still crossing and each stand on a
    crossing of the list with its orientation, the same holds after
    [mettre_a_jour_pietons], for the new counter, which never decreases. The
    empty list the simulation starts from is in that state. *)
Theorem mettre_a_jour_pietons_coherents
    (alea : float) (choix : nat) (prochain_id_pieton : Z)
    (passages_pietons : list Passage.t) (pietons_actifs : list Pieton.t)
    (voitures : list Voiture.t) :
  pietons_coherents passages_pietons pietons_actifs prochain_id_pieton →
  pietons_coherents passages_pietons
    (mettre_a_jour_pietons alea choix prochain_id_pieton passages_pietons
       pietons_actifs voitures).1
    (mettre_a_jour_pietons alea choix prochain_id_pieton passages_pietons
       pietons_actifs voitures).2
  ∧ prochain_id_pieton
    ≤ (mettre_a_jour_pietons alea choix prochain_id_pieton passages_pietons
         pietons_actifs voitures).2
  ∧ pietons_coherents passages_pietons [] 0.
Proof.
intros Hc. split; [|split].
- unfold mettre_a_jour_pietons.
  by apply faire_apparaitre_coherents, faire_avancer_coherents.
- unfold mettre_a_jour_pietons.
  destruct (faire_apparaitre_cas alea choix prochain_id_pieton
              passages_pietons
              (faire_avancer pietons_actifs voitures) voitures)
    as [->|(c & _ & _ & _ & ->)]; simpl; lia.
- split; simpl; try constructor; intros p Hp; by apply elem_of_nil in Hp.
Qed.

Lemma mettre_a_jour_pietons_coherents_witness :
  pietons_coherents [Passage.mk (1, 2) "horizontal"] [] 0
  ∧ (mettre_a_jour_pietons 0%float 0 0 [Passage.mk (1, 2) "horizontal"]
       [] []).1
    = [Pieton.mk 0 (1, 2) "horizontal" 0%float]
  ∧ pietons_coherents [Passage.mk (1, 2) "horizontal"]
      (mettre_a_jour_pietons 0%float 0 0 [Passage.mk (1, 2) "horizontal"]
         [] []).1
      (mettre_a_jour_pietons 0%float 0 0 [Passage.mk (1, 2) "horizontal"]
         [] []).2.
Proof.
assert (H : pietons_coherents [Passage.mk (1, 2) "horizontal"] [] 0).
{ split; simpl; try constructor; intros p Hp; by apply elem_of_nil in Hp. }
split; [exact H|]. split; [vm_compute; reflexivity|].
exact (proj1 (mettre_a_jour_pietons_coherents 0%float 0 0
                [Passage.mk (1, 2) "horizontal"] [] [] H)).
Defined.

(** ** Ordonnanceur : qui bouge, et comment *)

Lemma selectionner_elem cond voitures l i :
  i ∈ selectionner cond voitures l
  ↔ i ∈ l ∧ ∃ v, voitures !! i = Some v ∧ cond v = true.
Proof.
unfold selectionner, verifie. rewrite list_elem_of_filter. split.
- intros [H Hi]. split; [done|].
  destruct (voitures !! i) as [v|]; [|done].
  exists v. split; [done|]. by apply Is_true_true.
- intros [Hi (v & -> & Hc)]. split; [by apply Is_true_true|done].
Qed.

Lemma inserer_elem voitures i l j :
  j ∈ inserer voitures i l ↔ j = i ∨ j ∈ l.
Proof.
induction l as [|k l IH]; simpl.
- rewrite list_elem_of_singleton. split; [auto|]. intros [?|H]; [done|].
  by apply elem_of_nil in H.
- destruct (_ <? _)%float.
  + rewrite !elem_of_cons, IH. tauto.
  + rewrite !elem_of_cons. tauto.
Qed.

Lemma trier_par_blocage_elem voitures l j :
  j ∈ trier_par_blocage voitures l ↔ j ∈ l.
Proof.
unfold trier_par_blocage. induction l as [|i l IH]; simpl; [done|].
rewrite inserer_elem, elem_of_cons, IH. tauto.
Qed.

Lemma set_bloquee_depuis_idem v :
  Voiture.set_bloquee_depuis None (Voiture.set_bloquee_depuis None v)
  = Voiture.set_bloquee_depuis None v.
Proof. by destruct v. Qed.

Lemma resoudre_un_mouvements candidats voitures1 feux pietons g r i :
  i ∈ candidats →
  inv_mouvements candidats voitures1 r →
  inv_mouvements candidats voitures1 (resoudre_un feux pietons g r i).
Proof.
intros Hi Hinv. unfold resoudre_un.
destruct (voitures_res r !! i) as [v|] eqn:Hv; [|done].
destruct (Voiture.chemin v) as [|next_pos reste] eqn:Hch; [done|].
destruct (_ && _); [|done].
destruct Hinv as [H1 H2 H3].
destruct (Forall2_lookup_r _ _ _ _ _ H1 Hv) as (v1 & Hv1 & Hvv1).
assert (Hset : Voiture.set_bloquee_depuis None v
               = Voiture.set_bloquee_depuis None v1).
{ destruct Hvv1 as [->| ->]; [done|apply set_bloquee_depuis_idem]. }
assert (Hid : Voiture.id v = Voiture.id v1)
  by (by destruct Hvv1 as [->| ->]).
assert (Hc1 : Voiture.chemin v1 = next_pos :: reste)
  by (by destruct Hvv1 as [->| ->]).
split; simpl.
- rewrite <- (list_insert_id voitures1 i v1 Hv1).
  apply Forall2_insert; [done|]. right. exact Hset.
- intros k p Hk. destruct (decide (Voiture.id v = k)) as [<-|Hne].
  + rewrite lookup_insert_eq in Hk. injection Hk as <-.
    exists i, v1. rewrite Hc1, Hset. repeat split; try done.
    rewrite list_lookup_insert_eq; [done|by eapply lookup_lt_Some].
  + rewrite lookup_insert_ne in Hk by done.
    destruct (H2 k p Hk) as (i' & v' & Hi' & Hv' & Hid' & Hh & Hr).
    exists i', v'. repeat split; try done.
    destruct (decide (i' = i)) as [->|Hni].
    * rewrite Hv in Hr. injection Hr as ->.
      rewrite list_lookup_insert_eq by (by eapply lookup_lt_Some).
      by rewrite set_bloquee_depuis_idem.
    * by rewrite list_lookup_insert_ne.
- intros i' v' Hv' Hk.
  destruct (decide (Voiture.id v = Voiture.id v')) as [Heq|Hne].
  + by rewrite Heq, lookup_insert_eq in Hk.
  + rewrite lookup_insert_ne in Hk by done.
    specialize (H3 i' v' Hv' Hk).
    destruct (decide (i' = i)) as [->|Hni]; [congruence|].
    by rewrite list_lookup_insert_ne.
Qed.

Lemma foldl_resoudre_mouvements candidats voitures1 feux pietons g ordre r :
  (∀ i, i ∈ ordre → i ∈ candidats) →
  inv_mouvements candidats voitures1 r →
  inv_mouvements candidats voitures1
    (foldl (resoudre_un feux pietons g) r ordre).
Proof.
revert r. induction ordre as [|i ordre IH]; intros r Hsub Hr; [done|].
simpl. apply IH.
- intros j Hj. apply Hsub. by right.
- apply resoudre_un_mouvements; [|done]. apply Hsub. by left.
Qed.

Lemma phase_resolution_mouvements shuffle t feux pietons g en_route
    voitures1 :
  (∀ l, shuffle l ≡ₚ l) →
  inv_mouvements (selectionner (eligible t) voitures1 en_route) voitures1
    (phase_resolution shuffle t feux pietons g en_route voitures1).
Proof.
intros Hperm. unfold phase_resolution.
apply foldl_resoudre_mouvements.
- intros i Hi. apply elem_of_app in Hi as [Hi|Hi].
  + apply trier_par_blocage_elem, selectionner_elem in Hi as [Hi _]. done.
  + rewrite (Hperm _) in Hi. by apply selectionner_elem in Hi as [Hi _].
- split; simpl.
  + apply Forall_Forall2_diag, Forall_forall. intros v _. by left.
  + intros k p Hk. by rewrite lookup_empty in Hk.
  + done.
Qed.

(** What the apply phase does to a car whose move was approved. *)
Lemma appliquer_approuve t approved v p reste :
  approved !! Voiture.id v = Some p →
  Voiture.chemin v = p :: reste →
  Voiture.id (appliquer t approved v) = Voiture.id v
  ∧ Voiture.position (appliquer t approved v) = p
  ∧ Voiture.destination (appliquer t approved v) = Voiture.destination v
  ∧ Voiture.chemin (appliquer t approved v) = reste
  ∧ Voiture.temps_arrivee (appliquer t approved v) = Voiture.temps_arrivee v
  ∧ Voiture.dernier_deplacement (appliquer t approved v) = t
  ∧ Voiture.bloquee_depuis (appliquer t approved v)
    = Voiture.bloquee_depuis v
  ∧ Voiture.recalcul_echecs (appliquer t approved v)
    = Voiture.recalcul_echecs v.
Proof.
intros Ha Hc. unfold appliquer. unfold Position in *. rewrite Ha, Hc. simpl.
by rewrite bool_decide_eq_true_2.
Qed.

Lemma appliquer_orientation t approved v p :
  approved !! Voiture.id v = Some p →
  (p = ((Voiture.position v).1 + 1, (Voiture.position v).2)
   ∨ p = ((Voiture.position v).1 - 1, (Voiture.position v).2)
   ∨ p = ((Voiture.position v).1, (Voiture.position v).2 + 1)
   ∨ p = ((Voiture.position v).1, (Voiture.position v).2 - 1)) →
  Voiture.orientation (appliquer t approved v)
  = orientation_du_pas (Voiture.position v) p.
Proof.
intros Ha Hp. unfold appliquer, orientation_du_pas. unfold Position in *.
rewrite Ha.
destruct (Voiture.position v) as [x y]. simpl in *.
destruct Hp as [->|[->|[->| ->]]]; simpl.
- replace (x + 1 - x =? 1) with true by lia.
  replace (y - y =? 0) with true by lia. simpl.
  by rewrite bool_decide_eq_true_2.
- replace (x - 1 - x =? 1) with false by lia.
  replace (x - 1 - x =? -1) with true by lia.
  replace (y - y =? 0) with true by lia. simpl.
  rewrite bool_decide_eq_false_2 by (intros [=]; lia).
  by rewrite bool_decide_eq_true_2.
- replace (x - x =? 1) with false by lia.
  replace (x - x =? -1) with false by lia.
  replace (x - x =? 0) with true by lia.
  replace (y + 1 - y =? 1) with true by lia. simpl.
  rewrite bool_decide_eq_false_2 by (intros [=]; lia).
  rewrite bool_decide_eq_false_2 by (intros [=]; lia).
  by rewrite bool_decide_eq_true_2.
- replace (x - x =? 1) with false by lia.
  replace (x - x =? -1) with false by lia.
  replace (x - x =? 0) with true by lia.
  replace (y - 1 - y =? 1) with false by lia.
  replace (y - 1 - y =? -1) with true by lia. simpl.
  rewrite bool_decide_eq_false_2 by (intros [=]; lia).
  rewrite bool_decide_eq_false_2 by (intros [=]; lia).
  by rewrite bool_decide_eq_false_2 by (intros [=]; lia).
Qed.

Section TickMouvements.
Context (shuffle : list nat → list nat) (t : float).
Context (voitures : list Voiture.t) (g : Grille) (feux : list Feu.t).
Context (dl dc : gmap Z string) (taille_x taille_y : Z).
Context (pietons : list Pieton.t).
Hypothesis shuffle_perm : ∀ l, shuffle l ≡ₚ l.
Hypothesis ids_distincts : NoDup (Voiture.id <$> voitures).

Local Abbreviation voitures0 := (phase_arrivees t voitures).
Local Abbreviation voitures1 :=
  (phase_recalcul t g dl dc (voitures_en_route voitures0) voitures0).
Local Abbreviation r :=
  (resolution_du_tick shuffle t voitures g feux dl dc pietons).

Lemma ids_distincts_phase1 : NoDup (Voiture.id <$> voitures1).
Proof.
destruct (meme_voiture_positions _ _
            (phase_recalcul_meme t g dl dc
               (voitures_en_route voitures0) voitures0)) as [_ ->].
eapply sublist_NoDup; [exact ids_distincts|]. apply phase_arrivees_ids.
Qed.

Lemma tick_mouvements :
  inv_mouvements
    (selectionner (eligible t) voitures1 (voitures_en_route voitures0))
    voitures1 r.
Proof. by apply phase_resolution_mouvements. Qed.

Lemma ids_injectifs i j v w :
  voitures1 !! i = Some v → voitures1 !! j = Some w →
  Voiture.id v = Voiture.id w → i = j ∧ v = w.
Proof.
intros Hv Hw Hid.
assert (i = j) as ->.
{ eapply (NoDup_lookup _ i j (Voiture.id v) ids_distincts_phase1).
  - by rewrite list_lookup_fmap, Hv.
  - by rewrite list_lookup_fmap, Hw, Hid. }
split; [done|congruence].
Qed.

(** A car of the list that enters the resolution has not arrived exactly
    when phase 0 left it so. *)
Lemma candidat_en_route i v :
  i ∈ voitures_en_route voitures0 → voitures1 !! i = Some v →
  Voiture.en_route v = true.
Proof.
intros Hi Hv. apply selectionner_elem in Hi as (_ & v0 & Hv0 & He).
pose proof (phase_recalcul_meme t g dl dc
              (voitures_en_route voitures0) voitures0) as HF.
destruct (Forall2_lookup_l _ _ _ _ _ HF Hv0) as (v' & Hv' & Hm).
rewrite Hv in Hv'. injection Hv' as <-.
by rewrite (meme_voiture_active _ _ Hm).
Qed.

(** The fate of the car of rank [i] in the tick. *)
Lemma tick_voiture i v1 :
  voitures1 !! i = Some v1 →
  (approved_moves r !! Voiture.id v1 = None
   ∧ mettre_a_jour_voitures shuffle t voitures g feux dl dc
       taille_x taille_y pietons !! i = Some v1)
  ∨ ∃ p reste,
      approved_moves r !! Voiture.id v1 = Some p
      ∧ Voiture.chemin v1 = p :: reste
      ∧ Voiture.en_route v1 = true
      ∧ eligible t v1 = true
      ∧ mettre_a_jour_voitures shuffle t voitures g feux dl dc
          taille_x taille_y pietons !! i
        = Some (appliquer t (approved_moves r)
                  (Voiture.set_bloquee_depuis None v1)).
Proof.
intros Hv1. destruct tick_mouvements as [H1 H2 H3].
unfold mettre_a_jour_voitures. rewrite list_lookup_fmap.
destruct (approved_moves r !! Voiture.id v1) as [p|] eqn:Ha.
- right. destruct (H2 _ _ Ha) as (j & w & Hj & Hw & Hid & Hh & Hr).
  destruct (ids_injectifs j i w v1 Hw Hv1 Hid) as [-> ->].
  destruct (Voiture.chemin v1) as [|p' reste] eqn:Hc; [done|].
  injection Hh as ->. exists p, reste.
  apply selectionner_elem in Hj as (Hj & v & Hv & He).
  rewrite Hv1 in Hv. injection Hv as <-.
  rewrite Hr. simpl. repeat split; try done.
  by eapply candidat_en_route.
- left. split; [done|]. rewrite (H3 i v1 Hv1 Ha). simpl.
  unfold appliquer. unfold Position in *. by rewrite Ha.
Qed.
End TickMouvements.

(** ** Le tick des voitures *)

(** X11 — Who moves, and how. When the identifiers of the cars are distinct,
    a call of [mettre_a_jour_voitures] leaves each car exactly as phases 0
    and 1 left it, or moves it. A car that moves had not arrived, had a path
    and had waited [DELAI_MIN_MOUVEMENT]; it goes to the first cell of its
    path, which is taken off the path; that cell is a road cell open to cars
    on which no car in route stood; its blocking mark is cleared and its
    last-move time is the time of the call. *)
Theorem mettre_a_jour_voitures_mouvements
    (shuffle : list nat → list nat) (temps_actuel : float)
    (voitures : list Voiture.t) (g : Grille) (feux : list Feu.t)
    (directions_lignes colonnes_directions : gmap Z string)
    (taille_x taille_y : Z) (pietons : list Pieton.t) :
  (∀ l, shuffle l ≡ₚ l) →
  NoDup (Voiture.id <$> voitures) →
  Forall2 (λ v1 v',
             v' = v1
             ∨ (Voiture.en_route v1 = true
                ∧ eligible temps_actuel v1 = true
                ∧ ∃ p reste,
                    Voiture.chemin v1 = p :: reste
                    ∧ est_deplacement_valide p feux pietons g = true
                    ∧ (p ∉ positions_actives
                             (phase_arrivees temps_actuel voitures))
                    ∧ Voiture.position v' = p
                    ∧ Voiture.chemin v' = reste
                    ∧ Voiture.dernier_deplacement v' = temps_actuel
                    ∧ Voiture.bloquee_depuis v' = None
                    ∧ Voiture.id v' = Voiture.id v1
                    ∧ Voiture.destination v' = Voiture.destination v1
                    ∧ Voiture.temps_arrivee v' = Voiture.temps_arrivee v1
                    ∧ Voiture.recalcul_echecs v'
                      = Voiture.recalcul_echecs v1))
    (phase_recalcul temps_actuel g directions_lignes colonnes_directions
       (voitures_en_route (phase_arrivees temps_actuel voitures))
       (phase_arrivees temps_actuel voitures))
    (mettre_a_jour_voitures shuffle temps_actuel voitures g feux
       directions_lignes colonnes_directions taille_x taille_y pietons).
Proof.
intros Hperm Hid. apply Forall2_same_length_lookup. split.
- unfold mettre_a_jour_voitures. rewrite length_fmap.
  destruct (tick_mouvements shuffle temps_actuel voitures g feux
              directions_lignes colonnes_directions pietons Hperm)
    as [H _ _].
  by apply Forall2_length in H.
- intros i v1 v' Hv1 Hv'.
  destruct (tick_voiture shuffle temps_actuel voitures g feux
              directions_lignes colonnes_directions taille_x taille_y
              pietons Hperm Hid i v1 Hv1)
    as [[_ H]|(p & reste & Ha & Hc & He & Hel & H)];
    rewrite H in Hv'; injection Hv' as <-; [by left|].
  right. split; [done|]. split; [done|]. exists p, reste.
  destruct (resolution_du_tick_approved shuffle temps_actuel voitures g feux
              directions_lignes colonnes_directions pietons _ _ Ha)
    as [Hlibre Hval].
  destruct (appliquer_approuve temps_actuel _
              (Voiture.set_bloquee_depuis None v1) p reste Ha Hc)
    as (G1 & G2 & G3 & G4 & G5 & G6 & G7 & G8).
  rewrite G1, G2, G3, G4, G5, G6, G7, G8. by repeat split.
Qed.

Lemma mettre_a_jour_voitures_mouvements_witness :
  (∀ l : list nat, (λ l, l) l ≡ₚ l)
  ∧ NoDup (Voiture.id <$> [Scenario.voiture_ouest; Scenario.voiture_centre])
  ∧ Voiture.position
      <$> mettre_a_jour_voitures (λ l, l) 10%float
            [Scenario.voiture_ouest; Scenario.voiture_centre]
            Exemple.grille_croix []
            Exemple.lignes_croix Exemple.colonnes_croix 5 5 []
    = [(0, 2); (2, 2)]
  ∧ Forall2 (λ v1 v',
               v' = v1
               ∨ (Voiture.en_route v1 = true
                  ∧ eligible 10%float v1 = true
                  ∧ ∃ p reste,
                      Voiture.chemin v1 = p :: reste
                      ∧ est_deplacement_valide p [] [] Exemple.grille_croix
                        = true
                      ∧ (p ∉ positions_actives
                               (phase_arrivees 10%float
                                  [Scenario.voiture_ouest;
                                   Scenario.voiture_centre]))
                      ∧ Voiture.position v' = p
                      ∧ Voiture.chemin v' = reste
                      ∧ Voiture.dernier_deplacement v' = 10%float
                      ∧ Voiture.bloquee_depuis v' = None
                      ∧ Voiture.id v' = Voiture.id v1
                      ∧ Voiture.destination v' = Voiture.destination v1
                      ∧ Voiture.temps_arrivee v' = Voiture.temps_arrivee v1
                      ∧ Voiture.recalcul_echecs v'
                        = Voiture.recalcul_echecs v1))
      (phase_recalcul 10%float Exemple.grille_croix
         Exemple.lignes_croix Exemple.colonnes_croix
         (voitures_en_route
            (phase_arrivees 10%float
               [Scenario.voiture_ouest; Scenario.voiture_centre]))
         (phase_arrivees 10%float
            [Scenario.voiture_ouest; Scenario.voiture_centre]))
      (mettre_a_jour_voitures (λ l, l) 10%float
         [Scenario.voiture_ouest; Scenario.voiture_centre]
         Exemple.grille_croix []
         Exemple.lignes_croix Exemple.colonnes_croix 5 5 []).
Proof.
assert (H1 : ∀ l : list nat, (λ l, l) l ≡ₚ l) by done.
assert (H2 : NoDup (Voiture.id <$> [Scenario.voiture_ouest;
                                     Scenario.voiture_centre]))
  by compute_done.
split; [exact H1|]. split; [exact H2|]. split; [vm_compute; reflexivity|].
exact (mettre_a_jour_voitures_mouvements (λ l, l) 10%float
         [Scenario.voiture_ouest; Scenario.voiture_centre]
         Exemple.grille_croix [] Exemple.lignes_croix Exemple.colonnes_croix
         5 5 [] H1 H2).
Defined.

(** *** Chemins cohérents *)

Lemma legal_pas_permis g dl dc u v :
  mouvement_legal g dl dc u v → pas_permis dl dc u v.
Proof. by intros [_ H]. Qed.

Lemma itineraire_chaine g dl dc u w l :
  itineraire g dl dc u w l →
  ∃ l', l = u :: l' ∧ chaine dl dc u l'
        ∧ ((l' = [] ∧ u = w) ∨ last l' = Some w).
Proof.
induction 1 as [u Hu|u v w l Hu Huv Hit (l' & -> & Hch & Hl)].
- exists []. split; [done|]. split; [done|]. by left.
- exists (v :: l'). split; [done|]. split.
  + split; [by eapply legal_pas_permis|done].
  + right. destruct Hl as [[-> ->]|Hl]; [done|].
    destruct l' as [|x l']; [done|]. by rewrite last_cons_cons.
Qed.

Lemma recalculer_orientation t g dl dc v :
  Voiture.orientation (recalculer t g dl dc v) = Voiture.orientation v.
Proof.
unfold recalculer.
destruct (trouver_chemin _ _ _ _ _) as [[|? [|? ?]]| |];
  by destruct (Voiture.bloquee_depuis v).
Qed.

Lemma recalculer_coherent t g dl dc v :
  chemin_coherent dl dc (recalculer t g dl dc v).
Proof.
unfold recalculer, chemin_coherent.
pose proof (trouver_chemin_correct g dl dc (Voiture.position v)
              (Voiture.destination v)) as H.
destruct (trouver_chemin _ _ _ _ _) as [[|a [|p reste]]| |];
  try (destruct (Voiture.bloquee_depuis v); simpl; by auto).
destruct H as [H _]. apply itineraire_chaine in H as (l' & [= -> <-] & Hc & Hl).
simpl. split; [done|]. right. by destruct Hl as [[? _]|Hl].
Qed.

Lemma marquer_arrivee_coherent t dl dc v :
  chemin_coherent dl dc v → chemin_coherent dl dc (marquer_arrivee t v).
Proof.
unfold marquer_arrivee. destruct (_ && _); [|done].
intros _. unfold chemin_coherent. simpl. auto.
Qed.

Lemma phase_arrivees_coherents t dl dc voitures :
  Forall (chemin_coherent dl dc) voitures →
  Forall (chemin_coherent dl dc) (phase_arrivees t voitures).
Proof.
intros H. unfold phase_arrivees. apply Forall_forall. intros v' Hv'.
apply list_elem_of_filter in Hv' as [_ Hv'].
apply list_elem_of_fmap in Hv' as (v & -> & Hv).
apply marquer_arrivee_coherent. by eapply (proj1 (Forall_forall _ _) H).
Qed.

Lemma phase_recalcul_coherents t g dl dc en_route voitures :
  Forall (chemin_coherent dl dc) voitures →
  Forall (chemin_coherent dl dc)
    (phase_recalcul t g dl dc en_route voitures).
Proof.
unfold phase_recalcul. generalize (selectionner (a_besoin_de_chemin t)
                                     voitures en_route).
intros l. revert voitures. induction l as [|i l IH]; intros vs Hvs; [done|].
simpl. apply IH. destruct (vs !! i) as [v|]; [|done].
apply Forall_insert; [done|]. apply recalculer_coherent.
Qed.

(** The car of rank [i] after the tick, when the paths were coherent. *)
Lemma tick_voiture_coherent
    (shuffle : list nat → list nat) (temps_actuel : float)
    (voitures : list Voiture.t) (g : Grille) (feux : list Feu.t)
    (directions_lignes colonnes_directions : gmap Z string)
    (taille_x taille_y : Z) (pietons : list Pieton.t)
    (i : nat) (v1 v' : Voiture.t) :
  (∀ l, shuffle l ≡ₚ l) →
  NoDup (Voiture.id <$> voitures) →
  Forall (chemin_coherent directions_lignes colonnes_directions) voitures →
  phase_recalcul temps_actuel g directions_lignes colonnes_directions
    (voitures_en_route (phase_arrivees temps_actuel voitures))
    (phase_arrivees temps_actuel voitures) !! i = Some v1 →
  mettre_a_jour_voitures shuffle temps_actuel voitures g feux
    directions_lignes colonnes_directions taille_x taille_y pietons !! i
  = Some v' →
  chemin_coherent directions_lignes colonnes_directions v'
  ∧ ((Voiture.position v' = Voiture.position v1
      ∧ Voiture.orientation v' = Voiture.orientation v1)
     ∨ (pas_permis directions_lignes colonnes_directions
          (Voiture.position v1) (Voiture.position v')
        ∧ Voiture.orientation v'
          = orientation_du_pas (Voiture.position v1) (Voiture.position v')
        ∧ (Voiture.chemin v' = [] →
           Voiture.position v' = Voiture.destination v'))).
Proof.
intros Hperm Hid Hcoh Hv1 Hv'.
pose proof (phase_recalcul_coherents temps_actuel g directions_lignes
              colonnes_directions
              (voitures_en_route (phase_arrivees temps_actuel voitures)) _
              (phase_arrivees_coherents temps_actuel directions_lignes
                 colonnes_directions _ Hcoh)) as Hcoh1.
pose proof (proj1 (Forall_lookup _ _) Hcoh1 i v1 Hv1) as [Hch Hl].
destruct (tick_voiture shuffle temps_actuel voitures g feux
            directions_lignes colonnes_directions taille_x taille_y
            pietons Hperm Hid i v1 Hv1)
  as [[_ H]|(p & reste & Ha & Hc & He & Hel & H)];
  rewrite H in Hv'; injection Hv' as <-; [by split; [|left]|].
destruct (appliquer_approuve temps_actuel _
            (Voiture.set_bloquee_depuis None v1) p reste Ha Hc)
  as (G1 & G2 & G3 & G4 & _).
rewrite Hc in Hch, Hl. destruct Hch as [Hpas Hch].
assert (Hor := appliquer_orientation temps_actuel _
                 (Voiture.set_bloquee_depuis None v1) p Ha).
simpl in Hor.
split.
- unfold chemin_coherent. rewrite G2, G3, G4. simpl. split; [done|].
  destruct Hl as [Hl|Hl]; [done|].
  destruct reste as [|x reste]; [by left|right].
  by rewrite last_cons_cons in Hl.
- right. rewrite G2, G3, G4. simpl. split; [done|]. split.
  + apply Hor. unfold pas_permis in Hpas. tauto.
  + intros ->. destruct Hl as [Hl|Hl]; [done|]. by injection Hl.
Qed.

Lemma tick_longueur shuffle t voitures g feux dl dc taille_x taille_y
    pietons :
  length (phase_recalcul t g dl dc
            (voitures_en_route (phase_arrivees t voitures))
            (phase_arrivees t voitures))
  = length (mettre_a_jour_voitures shuffle t voitures g feux dl dc
              taille_x taille_y pietons).
Proof.
pose proof (mettre_a_jour_voitures_suivi shuffle t voitures g feux dl dc
              taille_x taille_y pietons) as H1.
pose proof (phase_recalcul_meme t g dl dc
              (voitures_en_route (phase_arrivees t voitures))
              (phase_arrivees t voitures)) as H2.
apply Forall2_length in H1, H2. congruence.
Qed.

(** X12 — Cars follow the one-way streets. When the identifiers are distinct
    and the stored path of every car is empty or leads from its cell to its
    destination by unit steps in the directions of the rows and columns,
    the same holds after [mettre_a_jour_voitures]. In that call a car stays
    on its cell with its orientation, or makes one such step: its
    orientation is then that of the step (0 towards +x, 180 towards -x, 270
    towards +y, 90 towards -y), and if the step empties its path it stands
    on its destination. *)
Theorem chemins_coherents_preserves
    (shuffle : list nat → list nat) (temps_actuel : float)
    (voitures : list Voiture.t) (g : Grille) (feux : list Feu.t)
    (directions_lignes colonnes_directions : gmap Z string)
    (taille_x taille_y : Z) (pietons : list Pieton.t) :
  (∀ l, shuffle l ≡ₚ l) →
  NoDup (Voiture.id <$> voitures) →
  Forall (chemin_coherent directions_lignes colonnes_directions) voitures →
  Forall (chemin_coherent directions_lignes colonnes_directions)
    (mettre_a_jour_voitures shuffle temps_actuel voitures g feux
       directions_lignes colonnes_directions taille_x taille_y pietons)
  ∧ Forall2 (λ v1 v',
               (Voiture.position v' = Voiture.position v1
                ∧ Voiture.orientation v' = Voiture.orientation v1)
               ∨ (pas_permis directions_lignes colonnes_directions
                    (Voiture.position v1) (Voiture.position v')
                  ∧ Voiture.orientation v'
                    = orientation_du_pas (Voiture.position v1)
                        (Voiture.position v')
                  ∧ (Voiture.chemin v' = [] →
                     Voiture.position v' = Voiture.destination v')))
      (phase_recalcul temps_actuel g directions_lignes colonnes_directions
         (voitures_en_route (phase_arrivees temps_actuel voitures))
         (phase_arrivees temps_actuel voitures))
      (mettre_a_jour_voitures shuffle temps_actuel voitures g feux
         directions_lignes colonnes_directions taille_x taille_y pietons).
Proof.
intros Hperm Hid Hcoh.
pose proof (tick_longueur shuffle temps_actuel voitures g feux
              directions_lignes colonnes_directions taille_x taille_y
              pietons) as Hlen.
split.
- apply Forall_lookup. intros i v' Hv'.
  destruct (lookup_lt_is_Some_2
              (phase_recalcul temps_actuel g directions_lignes
                 colonnes_directions
                 (voitures_en_route (phase_arrivees temps_actuel voitures))
                 (phase_arrivees temps_actuel voitures)) i) as [v1 Hv1].
  { rewrite Hlen. by eapply lookup_lt_Some. }
  by destruct (tick_voiture_coherent shuffle temps_actuel voitures g feux
                 directions_lignes colonnes_directions taille_x taille_y
                 pietons i v1 v' Hperm Hid Hcoh Hv1 Hv').
- apply Forall2_same_length_lookup. split; [done|].
  intros i v1 v' Hv1 Hv'.
  by destruct (tick_voiture_coherent shuffle temps_actuel voitures g feux
                 directions_lignes colonnes_directions taille_x taille_y
                 pietons i v1 v' Hperm Hid Hcoh Hv1 Hv').
Qed.

Lemma chemins_coherents_preserves_witness :
  (∀ l : list nat, (λ l, l) l ≡ₚ l)
  ∧ NoDup (Voiture.id <$> [Scenario.voiture_ouest; Scenario.voiture_centre])
  ∧ Forall (chemin_coherent Exemple.lignes_croix Exemple.colonnes_croix)
      [Scenario.voiture_ouest; Scenario.voiture_centre]
  ∧ Forall (chemin_coherent Exemple.lignes_croix Exemple.colonnes_croix)
      (mettre_a_jour_voitures (λ l, l) 10%float
         [Scenario.voiture_ouest; Scenario.voiture_centre]
         Exemple.grille_croix []
         Exemple.lignes_croix Exemple.colonnes_croix 5 5 []).
Proof.
assert (H1 : ∀ l : list nat, (λ l, l) l ≡ₚ l) by done.
assert (H2 : NoDup (Voiture.id <$> [Scenario.voiture_ouest;
                                     Scenario.voiture_centre]))
  by compute_done.
assert (H3 : Forall (chemin_coherent Exemple.lignes_croix
                       Exemple.colonnes_croix)
               [Scenario.voiture_ouest; Scenario.voiture_centre]).
{ constructor; [split; [exact I|by left]|].
  constructor; [|constructor]. split; [|by right].
  split; [left; split; reflexivity|].
  split; [right; right; left; split; reflexivity|].
  split; [right; right; left; split; reflexivity|exact I]. }
split; [exact H1|]. split; [exact H2|]. split; [exact H3|].
exact (proj1 (chemins_coherents_preserves (λ l, l) 10%float
                [Scenario.voiture_ouest; Scenario.voiture_centre]
                Exemple.grille_croix []
                Exemple.lignes_croix Exemple.colonnes_croix 5 5 []
                H1 H2 H3)).
Defined.

(** *** Piétons et voitures *)

Lemma mettre_a_jour_pietons_origine alea choix prochain passages pietons
    voitures p' :
  p' ∈ (mettre_a_jour_pietons alea choix prochain passages pietons
          voitures).1 →
  en_traversee p' = true
  ∧ ((∃ p, p ∈ pietons ∧ Pieton.passage_pos p' = Pieton.passage_pos p)
     ∨ ∀ v, v ∈ voitures → Voiture.position v ≠ Pieton.passage_pos p').
Proof.
unfold mettre_a_jour_pietons.
assert (Hav : ∀ q, q ∈ faire_avancer pietons voitures →
  en_traversee q = true
  ∧ ((∃ p, p ∈ pietons ∧ Pieton.passage_pos q = Pieton.passage_pos p)
     ∨ ∀ v, v ∈ voitures → Voiture.position v ≠ Pieton.passage_pos q)).
{ intros q Hq. apply faire_avancer_origine in Hq as (Ht & p & Hp & ->).
  split; [done|]. left. exists p. split; [done|].
  by destruct (avancer_champs voitures p) as (_ & -> & _). }
destruct (faire_apparaitre_cas alea choix prochain passages
            (faire_avancer pietons voitures) voitures)
  as [->|(c & _ & _ & Hv & ->)]; simpl; [apply Hav|].
intros Hin. apply elem_of_app in Hin as [Hin|Hin]; [by apply Hav|].
apply list_elem_of_singleton in Hin as ->. simpl. split; [done|by right].
Qed.

(** X13 — Cars and pedestrians keep apart. If no car in route stands on the
    crossing of an active pedestrian, then after the two updates of an
    iteration of the main loop, [mettre_a_jour_pietons] and then
    [mettre_a_jour_voitures] with the new pedestrians, none does either: a
    pedestrian never appears under a car and a car never drives onto a
    pedestrian. *)
Theorem pietons_et_voitures_separes
    (alea : float) (choix : nat) (prochain_id_pieton : Z)
    (passages_pietons : list Passage.t) (pietons_actifs : list Pieton.t)
    (shuffle : list nat → list nat) (temps_actuel : float)
    (voitures : list Voiture.t) (g : Grille) (feux : list Feu.t)
    (directions_lignes colonnes_directions : gmap Z string)
    (taille_x taille_y : Z) :
  separes voitures pietons_actifs →
  separes
    (mettre_a_jour_voitures shuffle temps_actuel voitures g feux
       directions_lignes colonnes_directions taille_x taille_y
       (mettre_a_jour_pietons alea choix prochain_id_pieton passages_pietons
          pietons_actifs voitures).1)
    (mettre_a_jour_pietons alea choix prochain_id_pieton passages_pietons
       pietons_actifs voitures).1.
Proof.
intros Hsep v' p' Hv' He' Hp' Heq.
destruct (mettre_a_jour_pietons_origine _ _ _ _ _ _ _ Hp') as [Ht Hor].
apply list_elem_of_lookup in Hv' as [i Hv'].
pose proof (mettre_a_jour_voitures_suivi shuffle temps_actuel voitures g
              feux directions_lignes colonnes_directions taille_x taille_y
              (mettre_a_jour_pietons alea choix prochain_id_pieton
                 passages_pietons pietons_actifs voitures).1) as HF.
destruct (Forall2_lookup_r _ _ _ _ _ HF Hv')
  as (v0 & Hv0 & _ & _ & Hta & _ & Hpos).
apply list_elem_of_lookup_2, phase_arrivees_origine in Hv0 as (v & Hv & ->).
assert (He0 : Voiture.en_route (marquer_arrivee temps_actuel v) = true).
{ unfold Voiture.en_route in *. by rewrite <- Hta. }
apply marquer_arrivee_active in He0 as [Hm He].
rewrite Hm in Hpos. destruct Hpos as [Hpos|Hpos].
- destruct Hor as [(p & Hp & Hpp)|Hor].
  + apply (Hsep v p Hv He Hp). congruence.
  + apply (Hor v Hv). congruence.
- apply resolution_du_tick_approved in Hpos as [_ Hval].
  apply est_deplacement_valide_spec in Hval as [_ Hnf].
  apply Hnf. right. exists p'. done.
Qed.

Lemma pietons_et_voitures_separes_witness :
  separes [Scenario.voiture_centre] []
  ∧ separes
      (mettre_a_jour_voitures (λ l, l) 10%float [Scenario.voiture_centre]
         Exemple.grille_croix [] Exemple.lignes_croix Exemple.colonnes_croix
         5 5
         (mettre_a_jour_pietons 0%float 0 0 [Passage.mk (2, 2) "vertical"]
            [] [Scenario.voiture_centre]).1)
      (mettre_a_jour_pietons 0%float 0 0 [Passage.mk (2, 2) "vertical"]
         [] [Scenario.voiture_centre]).1
  ∧ (mettre_a_jour_pietons 0%float 0 0 [Passage.mk (2, 2) "vertical"]
       [] [Scenario.voiture_centre]).1
    = [Pieton.mk 0 (2, 2) "vertical" 0%float]
  ∧ Voiture.position
      <$> mettre_a_jour_voitures (λ l, l) 10%float [Scenario.voiture_centre]
            Exemple.grille_croix [] Exemple.lignes_croix
            Exemple.colonnes_croix 5 5
            (mettre_a_jour_pietons 0%float 0 0
               [Passage.mk (2, 2) "vertical"] [] [Scenario.voiture_centre]).1
    = [(1, 2)].
Proof.
assert (H : separes [Scenario.voiture_centre] []).
{ intros v p _ _ Hp. by apply elem_of_nil in Hp. }
split; [exact H|]. split; [|split; vm_compute; reflexivity].
exact (pietons_et_voitures_separes 0%float 0 0
         [Passage.mk (2, 2) "vertical"] [] (λ l, l) 10%float
         [Scenario.voiture_centre] Exemple.grille_croix []
         Exemple.lignes_croix Exemple.colonnes_croix 5 5 H).
Defined.

(** *** Arrivées et population *)

Lemma phase_recalcul_hors_selection t g dl dc en_route voitures i :
  i ∉ selectionner (a_besoin_de_chemin t) voitures en_route →
  phase_recalcul t g dl dc en_route voitures !! i = voitures !! i.
Proof.
unfold phase_recalcul.
generalize (selectionner (a_besoin_de_chemin t) voitures en_route).
intros l. revert voitures. induction l as [|j l IH]; intros vs Hi; [done|].
simpl. apply not_elem_of_cons in Hi as [Hne Hi].
rewrite IH by done. destruct (vs !! j); [|done].
by rewrite list_lookup_insert_ne.
Qed.

Lemma marquer_arrivee_arrivee t v :
  Voiture.en_route v = false → marquer_arrivee t v = v.
Proof. unfold marquer_arrivee. by intros ->. Qed.

Lemma ids_distincts_memes (l : list Voiture.t) v w :
  NoDup (Voiture.id <$> l) → v ∈ l → w ∈ l →
  Voiture.id v = Voiture.id w → v = w.
Proof.
intros Hnd Hv Hw Hid.
apply list_elem_of_lookup in Hv as [i Hv].
apply list_elem_of_lookup in Hw as [j Hw].
assert (i = j) as ->; [|congruence].
eapply (NoDup_lookup _ i j (Voiture.id v) Hnd).
- by rewrite list_lookup_fmap, Hv.
- by rewrite list_lookup_fmap, Hw, Hid.
Qed.

Lemma mettre_a_jour_voitures_ids shuffle t voitures g feux dl dc
    taille_x taille_y pietons :
  Voiture.id <$> mettre_a_jour_voitures shuffle t voitures g feux dl dc
                   taille_x taille_y pietons
  = Voiture.id <$> phase_arrivees t voitures.
Proof.
pose proof (mettre_a_jour_voitures_suivi shuffle t voitures g feux dl dc
              taille_x taille_y pietons) as HF.
induction HF as [|v v' l l' (Hid & _) _ IH]; [done|].
by rewrite !fmap_cons, Hid, IH.
Qed.

(** X14 — Arrived cars are frozen, then removed. When the identifiers are
    distinct, a car that has arrived goes through [mettre_a_jour_voitures]
    unchanged as long as less than [DELAI_DISPARITION_APRES_ARRIVEE] has
    passed since its arrival, and is no longer in the list after the first
    call made later than that. *)
Theorem voitures_arrivees_figees
    (shuffle : list nat → list nat) (temps_actuel : float)
    (voitures : list Voiture.t) (g : Grille) (feux : list Feu.t)
    (directions_lignes colonnes_directions : gmap Z string)
    (taille_x taille_y : Z) (pietons : list Pieton.t) (v : Voiture.t) :
  (∀ l, shuffle l ≡ₚ l) →
  NoDup (Voiture.id <$> voitures) →
  v ∈ voitures →
  Voiture.en_route v = false →
  if a_conserver temps_actuel v
  then v ∈ mettre_a_jour_voitures shuffle temps_actuel voitures g feux
             directions_lignes colonnes_directions taille_x taille_y pietons
  else Voiture.id v
       ∉ Voiture.id
           <$> mettre_a_jour_voitures shuffle temps_actuel voitures g feux
                 directions_lignes colonnes_directions taille_x taille_y
                 pietons.
Proof.
intros Hperm Hnd Hv He.
pose proof (marquer_arrivee_arrivee temps_actuel v He) as Hm.
destruct (a_conserver temps_actuel v) eqn:Hk.
- assert (Hv0 : v ∈ phase_arrivees temps_actuel voitures).
  { unfold phase_arrivees. apply list_elem_of_filter.
    split; [by apply Is_true_true|].
    apply list_elem_of_fmap. exists v. by rewrite Hm. }
  apply list_elem_of_lookup in Hv0 as [i Hi].
  assert (Hv1 : phase_recalcul temps_actuel g directions_lignes
                  colonnes_directions
                  (voitures_en_route (phase_arrivees temps_actuel voitures))
                  (phase_arrivees temps_actuel voitures) !! i = Some v).
  { rewrite phase_recalcul_hors_selection; [done|].
    intros Hs. apply selectionner_elem in Hs as [Hs _].
    apply selectionner_elem in Hs as (_ & w & Hw & Hew). congruence. }
  destruct (tick_voiture shuffle temps_actuel voitures g feux
              directions_lignes colonnes_directions taille_x taille_y
              pietons Hperm Hnd i v Hv1)
    as [[_ H]|(p & reste & _ & _ & He' & _)]; [|congruence].
  by eapply list_elem_of_lookup_2.
- rewrite mettre_a_jour_voitures_ids. intros Hin.
  apply list_elem_of_fmap in Hin as (w0 & Hid & Hw0).
  unfold phase_arrivees in Hw0.
  apply list_elem_of_filter in Hw0 as [Hkw Hw0].
  apply list_elem_of_fmap in Hw0 as (w & -> & Hw).
  destruct (marquer_arrivee_champs temps_actuel w) as (Hidw & _).
  assert (w = v) as ->.
  { apply (ids_distincts_memes voitures); [done..|congruence]. }
  rewrite Hm, Hk in Hkw. done.
Qed.

Lemma voitures_arrivees_figees_witness :
  (∀ l : list nat, (λ l, l) l ≡ₚ l)
  ∧ NoDup (Voiture.id
             <$> [Voiture.mk 7 (2, 4) (2, 4) [] (Some 9.5%float) 9%float 270
                    None 0; Scenario.voiture_centre])
  ∧ a_conserver 10%float
      (Voiture.mk 7 (2, 4) (2, 4) [] (Some 9.5%float) 9%float 270 None 0)
    = true
  ∧ Voiture.mk 7 (2, 4) (2, 4) [] (Some 9.5%float) 9%float 270 None 0
    ∈ mettre_a_jour_voitures (λ l, l) 10%float
        [Voiture.mk 7 (2, 4) (2, 4) [] (Some 9.5%float) 9%float 270 None 0;
         Scenario.voiture_centre]
        Exemple.grille_croix [] Exemple.lignes_croix Exemple.colonnes_croix
        5 5 [].
Proof.
assert (H1 : ∀ l : list nat, (λ l, l) l ≡ₚ l) by done.
assert (H2 : NoDup (Voiture.id
                      <$> [Voiture.mk 7 (2, 4) (2, 4) [] (Some 9.5%float)
                             9%float 270 None 0; Scenario.voiture_centre]))
  by compute_done.
split; [exact H1|]. split; [exact H2|]. split; [vm_compute; reflexivity|].
exact (voitures_arrivees_figees (λ l, l) 10%float
         [Voiture.mk 7 (2, 4) (2, 4) [] (Some 9.5%float) 9%float 270 None 0;
          Scenario.voiture_centre]
         Exemple.grille_croix [] Exemple.lignes_croix Exemple.colonnes_croix
         5 5 []
         (Voiture.mk 7 (2, 4) (2, 4) [] (Some 9.5%float) 9%float 270 None 0)
         H1 H2 (list_elem_of_here _ _) eq_refl).
Defined.

(** X15 — No car is created and no travelling car is lost. The identifiers
    of the cars after [mettre_a_jour_voitures] are identifiers of the cars
    before it, in the same order; every car that had not arrived and was not
    on its destination is still there, not arrived, with its destination;
    and every car that was on its destination without being marked is
    marked as arrived at the time of the call, if it is still there. *)
Theorem population_du_tick
    (shuffle : list nat → list nat) (temps_actuel : float)
    (voitures : list Voiture.t) (g : Grille) (feux : list Feu.t)
    (directions_lignes colonnes_directions : gmap Z string)
    (taille_x taille_y : Z) (pietons : list Pieton.t) :
  (Voiture.id
     <$> mettre_a_jour_voitures shuffle temps_actuel voitures g feux
           directions_lignes colonnes_directions taille_x taille_y pietons)
    `sublist_of` (Voiture.id <$> voitures)
  ∧ (∀ v, v ∈ voitures → Voiture.en_route v = true →
          Voiture.position v ≠ Voiture.destination v →
          ∃ v', v' ∈ mettre_a_jour_voitures shuffle temps_actuel voitures g
                       feux directions_lignes colonnes_directions
                       taille_x taille_y pietons
                ∧ Voiture.id v' = Voiture.id v
                ∧ Voiture.en_route v' = true
                ∧ Voiture.destination v' = Voiture.destination v)
  ∧ (∀ v', v' ∈ mettre_a_jour_voitures shuffle temps_actuel voitures g
                  feux directions_lignes colonnes_directions
                  taille_x taille_y pietons →
           ∃ v, v ∈ voitures ∧ Voiture.id v' = Voiture.id v
                ∧ (Voiture.temps_arrivee v' = Voiture.temps_arrivee v
                   ∨ (Voiture.en_route v = true
                      ∧ Voiture.position v = Voiture.destination v
                      ∧ Voiture.temps_arrivee v' = Some temps_actuel))).
Proof.
pose proof (mettre_a_jour_voitures_suivi shuffle temps_actuel voitures g
              feux directions_lignes colonnes_directions taille_x taille_y
              pietons) as HF.
split; [|split].
- rewrite mettre_a_jour_voitures_ids. apply phase_arrivees_ids.
- intros v Hv He Hp.
  assert (Hm : marquer_arrivee temps_actuel v = v).
  { unfold marquer_arrivee. rewrite He. simpl.
    by rewrite bool_decide_eq_false_2. }
  assert (Hv0 : v ∈ phase_arrivees temps_actuel voitures).
  { unfold phase_arrivees. apply list_elem_of_filter. split.
    - apply Is_true_true. unfold a_conserver.
      unfold Voiture.en_route in He.
      by destruct (Voiture.temps_arrivee v).
    - apply list_elem_of_fmap. exists v. by rewrite Hm. }
  apply list_elem_of_lookup in Hv0 as [i Hi].
  destruct (Forall2_lookup_l _ _ _ _ _ HF Hi)
    as (v' & Hv' & Hid & Hd & Hta & _).
  exists v'. split; [by eapply list_elem_of_lookup_2|].
  split; [done|]. split; [|done].
  unfold Voiture.en_route in *. by rewrite Hta.
- intros v' Hv'. apply list_elem_of_lookup in Hv' as [i Hv'].
  destruct (Forall2_lookup_r _ _ _ _ _ HF Hv')
    as (v0 & Hv0 & Hid & _ & Hta & _).
  apply list_elem_of_lookup_2, phase_arrivees_origine in Hv0
    as (v & Hv & ->).
  exists v. split; [done|].
  destruct (marquer_arrivee_champs temps_actuel v) as (Gid & _).
  split; [congruence|]. rewrite Hta. unfold marquer_arrivee.
  destruct (Voiture.en_route v) eqn:He; simpl; [|by left].
  case_bool_decide; simpl; [by right|by left].
Qed.

(** ** Réseau initial *)

Lemma creer_grille_case nx ny p :
  case_grille (creer_grille nx ny) p
  = if dans_limites (Z.of_nat nx) (Z.of_nat ny) p then Some NON_ROUTIER
    else None.
Proof.
unfold case_grille, creer_grille, dans_limites. destruct p as [x y]. simpl.
destruct (0 <=? x) eqn:Hx; simpl; [|done].
destruct (0 <=? y) eqn:Hy; simpl; [|by rewrite andb_false_r].
destruct (decide (Z.to_nat y < ny)%nat) as [Hly|Hly].
- rewrite lookup_replicate_2 by done. simpl.
  destruct (decide (Z.to_nat x < nx)%nat) as [Hlx|Hlx].
  + rewrite lookup_replicate_2 by done.
    replace (x <? Z.of_nat nx) with true by lia.
    by replace (y <? Z.of_nat ny) with true by lia.
  + rewrite (proj1 (lookup_replicate_None _ _ _)) by lia.
    by replace (x <? Z.of_nat nx) with false by lia.
- rewrite (proj1 (lookup_replicate_None _ _ _)) by lia. simpl.
  replace (y <? Z.of_nat ny) with false by lia. by rewrite andb_false_r.
Qed.

Lemma creer_grille_dims nx ny :
  (0 < ny)%nat →
  largeur (creer_grille nx ny) = Z.of_nat nx
  ∧ hauteur (creer_grille nx ny) = Z.of_nat ny.
Proof.
intros H. unfold largeur, hauteur, creer_grille.
rewrite length_replicate. split; [|done].
destruct ny; [lia|]. simpl. by rewrite length_replicate.
Qed.

(** A loop of conditional writes of [ROUTE] over cells that exist. *)
Lemma ecritures_conditionnelles (cond : Position → bool) l g :
  (∀ p, p ∈ l → is_Some (case_grille g p)) →
  let g' := foldl (λ g p, if cond p then ecrire_case g p ROUTE else g) g l in
  largeur g' = largeur g ∧ hauteur g' = hauteur g
  ∧ (grille_rect g → grille_rect g')
  ∧ ∀ q, case_grille g' q
         = if bool_decide (q ∈ l) && cond q then Some ROUTE
           else case_grille g q.
Proof.
induction l as [|p l IH] using rev_ind; intros Hl; simpl.
- split; [done|]. split; [done|]. split; [done|]. done.
- rewrite foldl_app. simpl.
  destruct IH as (IH1 & IH2 & IH3 & IH4).
  { intros q Hq. apply Hl, elem_of_app. by left. }
  set (g1 := foldl (λ g p, if cond p then ecrire_case g p ROUTE else g) g l)
    in *.
  assert (Hp : is_Some (case_grille g1 p)).
  { rewrite IH4. destruct (_ && _); [done|].
    apply Hl, elem_of_app. right. by apply list_elem_of_singleton. }
  destruct Hp as [s Hs].
  destruct (cond p) eqn:Hc.
  + destruct (ecrire_case_dims g1 p ROUTE) as [-> ->].
    split; [done|]. split; [done|].
    split; [intros; by apply ecrire_case_rect, IH3|].
    intros q. rewrite (ecrire_case_modifiee g1 p s ROUTE Hs q).
    destruct (decide (q = p)) as [->|Hne].
    * rewrite bool_decide_eq_true_2, Hc; [done|].
      apply elem_of_app. right. by apply list_elem_of_singleton.
    * rewrite IH4. rewrite (bool_decide_ext (q ∈ l ++ [p]) (q ∈ l)); [done|].
      rewrite elem_of_app, list_elem_of_singleton. tauto.
  + split; [done|]. split; [done|]. split; [done|].
    intros q. rewrite IH4.
    destruct (decide (q = p)) as [->|Hne].
    * rewrite Hc, !andb_false_r. done.
    * rewrite (bool_decide_ext (q ∈ l ++ [p]) (q ∈ l)); [done|].
      rewrite elem_of_app, list_elem_of_singleton. tauto.
Qed.

(** X16 — The initial road network. On the grid [creer_grille] builds,
    [definir_reseau_routier] gives a rectangular grid of the same
    dimensions in which a cell is a road cell exactly when it is inside the
    limits and its column or its row is a multiple of 3; the other cells
    inside the limits stay non-road, and no cell holds an obstacle. *)
Theorem reseau_initial (taille_x taille_y : Z) (p : Position) :
  0 ≤ taille_x → 0 < taille_y →
  grille_rect
    (definir_reseau_routier
       (creer_grille (Z.to_nat taille_x) (Z.to_nat taille_y))
       taille_x taille_y)
  ∧ largeur
      (definir_reseau_routier
         (creer_grille (Z.to_nat taille_x) (Z.to_nat taille_y))
         taille_x taille_y) = taille_x
  ∧ hauteur
      (definir_reseau_routier
         (creer_grille (Z.to_nat taille_x) (Z.to_nat taille_y))
         taille_x taille_y) = taille_y
  ∧ case_grille
      (definir_reseau_routier
         (creer_grille (Z.to_nat taille_x) (Z.to_nat taille_y))
         taille_x taille_y) p
    = if dans_limites taille_x taille_y p then
        Some (if (p.1 mod 3 =? 0) || (p.2 mod 3 =? 0) then ROUTE
              else NON_ROUTIER)
      else None.
Proof.
intros Hx Hy. unfold definir_reseau_routier.
destruct (ecritures_conditionnelles
            (λ p, (p.1 mod 3 =? 0) || (p.2 mod 3 =? 0))
            (toutes_positions taille_x taille_y)
            (creer_grille (Z.to_nat taille_x) (Z.to_nat taille_y)))
  as (H1 & H2 & H3 & H4).
{ intros q Hq. apply toutes_positions_elem in Hq.
  rewrite creer_grille_case, !Z2Nat.id by lia. by rewrite Hq. }
destruct (creer_grille_dims (Z.to_nat taille_x) (Z.to_nat taille_y))
  as [G1 G2]; [lia|].
split; [apply H3, creer_grille_rect; lia|].
split; [etrans; [apply H1|]; rewrite G1; lia|].
split; [etrans; [apply H2|]; rewrite G2; lia|].
etrans; [apply H4|]. rewrite creer_grille_case, !Z2Nat.id by lia.
destruct (dans_limites taille_x taille_y p) eqn:Hl.
- rewrite bool_decide_eq_true_2 by (by apply toutes_positions_elem).
  simpl. by destruct (_ || _).
- rewrite bool_decide_eq_false_2; [done|].
  rewrite toutes_positions_elem. congruence.
Qed.

Lemma reseau_initial_witness :
  0 ≤ 5 ∧ 0 < 4
  ∧ definir_reseau_routier (creer_grille 5 4) 5 4
    = [ [" "; " "; " "; " "; " "];
        [" "; "N"; "N"; " "; "N"];
        [" "; "N"; "N"; " "; "N"];
        [" "; " "; " "; " "; " "] ]
  ∧ case_grille (definir_reseau_routier (creer_grille 5 4) 5 4) (4, 2)
    = Some NON_ROUTIER.
Proof.
split; [lia|]. split; [lia|]. split; [vm_compute; reflexivity|].
exact (proj2 (proj2 (proj2 (reseau_initial 5 4 (4, 2) ltac:(lia)
                              ltac:(lia))))).
Defined.

Lemma est_route_reseau_initial taille_x taille_y p :
  0 ≤ taille_x → 0 < taille_y →
  est_route
    (definir_reseau_routier
       (creer_grille (Z.to_nat taille_x) (Z.to_nat taille_y))
       taille_x taille_y) p
  = dans_limites taille_x taille_y p
    && ((p.1 mod 3 =? 0) || (p.2 mod 3 =? 0)).
Proof.
intros Hx Hy.
destruct (ecritures_conditionnelles
            (λ p, (p.1 mod 3 =? 0) || (p.2 mod 3 =? 0))
            (toutes_positions taille_x taille_y)
            (creer_grille (Z.to_nat taille_x) (Z.to_nat taille_y)))
  as (_ & _ & _ & H4).
{ intros q Hq. apply toutes_positions_elem in Hq.
  rewrite creer_grille_case, !Z2Nat.id by lia. by rewrite Hq. }
assert (Hcase : case_grille
                  (definir_reseau_routier
                     (creer_grille (Z.to_nat taille_x) (Z.to_nat taille_y))
                     taille_x taille_y) p
                = if bool_decide (p ∈ toutes_positions taille_x taille_y)
                     && ((p.1 mod 3 =? 0) || (p.2 mod 3 =? 0))
                  then Some ROUTE
                  else case_grille
                         (creer_grille (Z.to_nat taille_x)
                            (Z.to_nat taille_y)) p) by exact (H4 p).
unfold est_route. rewrite Hcase.
rewrite creer_grille_case, !Z2Nat.id by lia.
destruct (dans_limites taille_x taille_y p) eqn:Hl.
- rewrite (bool_decide_eq_true_2 (p ∈ _))
    by (by apply toutes_positions_elem).
  simpl. by destruct (_ || _).
- rewrite (bool_decide_eq_false_2 (p ∈ _)); [done|].
  rewrite toutes_positions_elem. congruence.
Qed.

(** X17 — No dead-end cell in the initial network. When the grid has at
    least two columns and two rows, every road cell of the initial network
    passes [est_case_escapable]: it has a road cell next to it, in its
    column when the column is a multiple of 3 and in its row otherwise. *)
Theorem reseau_initial_escapable (taille_x taille_y : Z) (p : Position) :
  2 ≤ taille_x → 2 ≤ taille_y →
  est_route
    (definir_reseau_routier
       (creer_grille (Z.to_nat taille_x) (Z.to_nat taille_y))
       taille_x taille_y) p = true →
  est_case_escapable p taille_x taille_y
    (definir_reseau_routier
       (creer_grille (Z.to_nat taille_x) (Z.to_nat taille_y))
       taille_x taille_y) = true.
Proof.
intros Hx Hy Hr. unfold est_case_escapable. rewrite Hr.
rewrite est_route_reseau_initial in Hr by lia.
apply andb_prop in Hr as [Hl Hm]. rewrite Hl. simpl.
rewrite !est_route_reseau_initial by lia.
destruct p as [x y]. unfold dans_limites in *. simpl in *.
rewrite !Z.add_0_r.
apply orb_prop in Hm as [Hm|Hm]; rewrite Hm; simpl;
  rewrite ?orb_true_r, ?andb_true_r.
- destruct (decide (y + 1 < taille_y)).
  + assert ((0 <=? x) && (x <? taille_x) && (0 <=? y + 1)
            && (y + 1 <? taille_y) = true) as -> by lia. done.
  + assert ((0 <=? x) && (x <? taille_x) && (0 <=? y + -1)
            && (y + -1 <? taille_y) = true) as -> by lia.
    simpl. by rewrite orb_true_r.
- destruct (decide (x + 1 < taille_x)).
  + assert ((0 <=? x + 1) && (x + 1 <? taille_x) && (0 <=? y)
            && (y <? taille_y) = true) as -> by lia.
    simpl. by rewrite !orb_true_r.
  + assert ((0 <=? x + -1) && (x + -1 <? taille_x) && (0 <=? y)
            && (y <? taille_y) = true) as -> by lia.
    simpl. by rewrite !orb_true_r.
Qed.

Lemma reseau_initial_escapable_witness :
  2 ≤ 30 ∧ 2 ≤ 15
  ∧ est_route (definir_reseau_routier (creer_grille 30 15) 30 15) (29, 0)
    = true
  ∧ est_case_escapable (29, 0) 30 15
      (definir_reseau_routier (creer_grille 30 15) 30 15) = true.
Proof.
assert (H : est_route (definir_reseau_routier (creer_grille 30 15) 30 15)
              (29, 0) = true) by (vm_compute; reflexivity).
split; [lia|]. split; [lia|]. split; [exact H|].
exact (reseau_initial_escapable 30 15 (29, 0) ltac:(lia) ltac:(lia) H).
Defined.

(** ** Sens de circulation *)

Lemma creer_directions_lignes taille_x taille_y y :
  (creer_directions_routes taille_x taille_y).1 !! y
  = if (0 <=? y) && (y <? taille_y)
    then Some (if y mod 2 =? 0 then "droite" else "gauche") else None.
Proof.
unfold creer_directions_routes. simpl.
destruct ((0 <=? y) && (y <? taille_y)) eqn:E.
- apply elem_of_list_to_map_1.
  + rewrite <- list_fmap_compose. simpl.
    rewrite list_fmap_id. apply NoDup_seqZ.
  + apply list_elem_of_fmap. exists y. split; [done|].
    apply elem_of_seqZ. lia.
- apply not_elem_of_list_to_map_1. rewrite <- list_fmap_compose. simpl.
  rewrite list_fmap_id, elem_of_seqZ. lia.
Qed.

Lemma creer_directions_colonnes taille_x taille_y x :
  (creer_directions_routes taille_x taille_y).2 !! x
  = if (0 <=? x) && (x <? taille_x)
    then Some (if x mod 2 =? 0 then "bas" else "haut") else None.
Proof.
unfold creer_directions_routes. simpl.
destruct ((0 <=? x) && (x <? taille_x)) eqn:E.
- apply elem_of_list_to_map_1.
  + rewrite <- list_fmap_compose. simpl.
    rewrite list_fmap_id. apply NoDup_seqZ.
  + apply list_elem_of_fmap. exists x. split; [done|].
    apply elem_of_seqZ. lia.
- apply not_elem_of_list_to_map_1. rewrite <- list_fmap_compose. simpl.
  rewrite list_fmap_id, elem_of_seqZ. lia.
Qed.

(** X18 — The corner nobody reaches. With the directions
    [creer_directions_routes] builds, row 0 runs towards +x and column 0
    towards +y, so no move enters the cell (0, 0): on any grid,
    [trouver_chemin] finds no path to it from another cell. *)
Theorem coin_origine_inaccessible
    (taille_x taille_y : Z) (g : Grille) (depart : Position) :
  depart ≠ (0, 0) →
  trouver_chemin g depart (0, 0)
    (creer_directions_routes taille_x taille_y).1
    (creer_directions_routes taille_x taille_y).2
  = AucunChemin.
Proof.
intros Hd.
pose proof (creer_directions_lignes taille_x taille_y) as Hdl.
pose proof (creer_directions_colonnes taille_x taille_y) as Hdc.
revert Hdl Hdc.
generalize (creer_directions_routes taille_x taille_y).1
           (creer_directions_routes taille_x taille_y).2.
intros dl dc Hdl Hdc.
pose proof (trouver_chemin_correct g dl dc depart (0, 0)) as H.
destruct (trouver_chemin _ _ _ _ _) as [p| |]; [|done|done].
exfalso. destruct H as [H _]. clear -H Hd Hdl Hdc.
remember (0, 0) as w eqn:Hw.
induction H as [u Hu|u v w l Hu Huv Hit IH]; [congruence|].
subst w. destruct (decide (v = (0, 0))) as [->|Hne]; [|by apply IH].
clear IH Hit. destruct Huv as [_ Hs].
assert (Hlim : dans_limites (largeur g) (hauteur g) u = true)
  by (by destruct Hu).
destruct u as [x y]. unfold dans_limites in Hlim. simpl in *.
rewrite Hdl, Hdc in Hs.
destruct Hs as [[[= ? ?] _]|[[[= ? ?] Hs]|[[[= ? ?] _]|[[= ? ?] Hs]]]];
  try lia.
- assert (y = 0) as -> by lia. simpl in Hs.
  by destruct (0 <? taille_y).
- assert (x = 0) as -> by lia. simpl in Hs.
  by destruct (0 <? taille_x).
Qed.

Lemma coin_origine_inaccessible_witness :
  (3, 0) ≠ (0, 0)
  ∧ est_route (definir_reseau_routier (creer_grille 30 15) 30 15) (0, 0)
    = true
  ∧ trouver_chemin (definir_reseau_routier (creer_grille 30 15) 30 15)
      (3, 0) (0, 0)
      (creer_directions_routes 30 15).1 (creer_directions_routes 30 15).2
    = AucunChemin.
Proof.
split; [done|]. split; [vm_compute; reflexivity|].
exact (coin_origine_inaccessible 30 15
         (definir_reseau_routier (creer_grille 30 15) 30 15) (3, 0)
         ltac:(done)).
Defined.

(** ** Passages piétons et feux initiaux *)

Lemma placer_passages_inv (restant : nat) (tirage : nat → Position)
    (k n : nat) (taille_x taille_y : Z) (g : Grille)
    (interdites0 interdites : gset Position) (nouveaux : list Passage.t) :
  interdites0 ⊆ interdites →
  (∀ c, c ∈ nouveaux → Passage.position c ∈ interdites) →
  (length nouveaux ≤ n)%nat →
  NoDup (Passage.position <$> nouveaux) →
  (∀ c, c ∈ nouveaux →
        passage_valide taille_x taille_y g c
        ∧ Passage.position c ∉ interdites0) →
  (length (placer_passages restant tirage k n taille_x taille_y g
             interdites nouveaux) ≤ n)%nat
  ∧ NoDup (Passage.position
             <$> placer_passages restant tirage k n taille_x taille_y g
                   interdites nouveaux)
  ∧ ∀ c, c ∈ placer_passages restant tirage k n taille_x taille_y g
               interdites nouveaux →
         passage_valide taille_x taille_y g c
         ∧ Passage.position c ∉ interdites0.
Proof.
revert k interdites nouveaux.
induction restant as [|restant IH]; intros k interdites nouveaux
  Hsub Hocc Hlen Hnd Hval; [done|].
simpl. case_bool_decide as Hlt; [|done].
destruct (est_route g (tirage k)) eqn:Hr; simpl; [|by apply IH].
case_bool_decide as Hint; simpl; [|by apply IH].
case_bool_decide as Hnew; simpl; [|by apply IH].
assert (Hajout : ∀ o,
  passage_valide taille_x taille_y g (Passage.mk (tirage k) o) →
  (length (placer_passages restant tirage (S k) n taille_x taille_y g
             (interdites ∪ {[tirage k]})
             (nouveaux ++ [Passage.mk (tirage k) o])) ≤ n)%nat
  ∧ NoDup (Passage.position
             <$> placer_passages restant tirage (S k) n taille_x taille_y g
                   (interdites ∪ {[tirage k]})
                   (nouveaux ++ [Passage.mk (tirage k) o]))
  ∧ ∀ c, c ∈ placer_passages restant tirage (S k) n taille_x taille_y g
               (interdites ∪ {[tirage k]})
               (nouveaux ++ [Passage.mk (tirage k) o]) →
         passage_valide taille_x taille_y g c
         ∧ Passage.position c ∉ interdites0).
{ intros o Ho. apply IH.
  - by apply union_subseteq_l'.
  - intros c Hc. apply elem_of_app in Hc as [Hc|Hc].
    + apply elem_of_union_l. by apply Hocc.
    + apply list_elem_of_singleton in Hc as ->. simpl.
      apply elem_of_union_r. by apply elem_of_singleton.
  - rewrite length_app. simpl. lia.
  - rewrite fmap_app. simpl. apply NoDup_app. split; [done|]. split.
    + intros x Hx Hx'. by apply list_elem_of_singleton in Hx' as ->.
    + apply NoDup_singleton.
  - intros c Hc. apply elem_of_app in Hc as [Hc|Hc]; [by apply Hval|].
    apply list_elem_of_singleton in Hc as ->. split; [done|]. simpl.
    intros Hin. by apply Hint, Hsub. }
destruct (tirage k) as [px py] eqn:Htk. simpl in *.
destruct ((0 <? px) && (px <? taille_x - 1) && est_route g (px - 1, py)
          && est_route g (px + 1, py)) eqn:Eh.
- apply Hajout. unfold passage_valide. simpl. split; [done|]. left.
  apply andb_prop in Eh as [Eh E4]. apply andb_prop in Eh as [Eh E3].
  apply andb_prop in Eh as [E1 E2]. repeat split; try done; lia.
- destruct ((0 <? py) && (py <? taille_y - 1) && est_route g (px, py - 1)
            && est_route g (px, py + 1)) eqn:Ev.
  + apply Hajout. unfold passage_valide. simpl. split; [done|]. right.
    apply andb_prop in Ev as [Ev E4]. apply andb_prop in Ev as [Ev E3].
    apply andb_prop in Ev as [E1 E2]. repeat split; try done; try lia.
    intros ([? ?] & G3 & G4). rewrite G3, G4 in Eh.
    replace (0 <? px) with true in Eh by lia.
    by replace (px <? taille_x - 1) with true in Eh by lia.
  + by apply IH.
Qed.

(** X19 — The crossings placed at start-up. Whatever the draws,
    [initialiser_passages_pietons_sur_routes] returns at most [n_passages]
    crossings, on pairwise distinct cells, none on the cell of a traffic
    light; each stands on a road cell and is horizontal between the two road
    cells of its row, or vertical between the two road cells of its column
    when its row does not qualify. *)
Theorem initialiser_passages_valides
    (tirage : nat → Position) (n_passages : nat) (taille_x taille_y : Z)
    (feux : list Feu.t) (g : Grille) :
  (length (initialiser_passages_pietons_sur_routes tirage n_passages
             taille_x taille_y feux g) ≤ n_passages)%nat
  ∧ NoDup (Passage.position
             <$> initialiser_passages_pietons_sur_routes tirage n_passages
                   taille_x taille_y feux g)
  ∧ ∀ c, c ∈ initialiser_passages_pietons_sur_routes tirage n_passages
               taille_x taille_y feux g →
         passage_valide taille_x taille_y g c
         ∧ Passage.position c ∉ positions_feux feux.
Proof.
unfold initialiser_passages_pietons_sur_routes.
match goal with
| |- context [placer_passages _ _ _ _ _ _ _ ?i _] => set (interdites := i)
end.
destruct (placer_passages_inv (n_passages * 200) tirage 0 n_passages
            taille_x taille_y g interdites interdites [])
  as (H1 & H2 & H3).
- done.
- intros c Hc. by apply elem_of_nil in Hc.
- simpl. lia.
- constructor.
- intros c Hc. by apply elem_of_nil in Hc.
- split; [done|]. split; [done|]. intros c Hc.
  destruct (H3 c Hc) as [Hv Hi]. split; [done|].
  intros Hf. apply Hi. subst interdites. by apply elem_of_union_l.
Qed.

(** *** Feux *)

Lemma feux_sur_ligne_app feux f y :
  feux_sur_ligne (feux ++ [f]) y
  = (feux_sur_ligne feux y
     + if decide ((Feu.position f).2 = y) then 1 else 0)%nat.
Proof.
unfold feux_sur_ligne. rewrite filter_app, length_app, filter_cons.
by destruct (decide _).
Qed.

Lemma feux_sur_colonne_app feux f x :
  feux_sur_colonne (feux ++ [f]) x
  = (feux_sur_colonne feux x
     + if decide ((Feu.position f).1 = x) then 1 else 0)%nat.
Proof.
unfold feux_sur_colonne. rewrite filter_app, length_app, filter_cons.
by destruct (decide _).
Qed.

Lemma placer_feu_inv max_l max_c g candidats t ph st pos :
  pos ∈ candidats →
  inv_placement max_l max_c g candidats st →
  inv_placement max_l max_c g candidats
    (placer_feu max_l max_c g t ph st pos).
Proof.
intros Hpos [H1 H2 H3 H4 H5 H6 H7]. unfold placer_feu.
destruct (_ && _) eqn:E; [|done].
apply andb_prop in E as [E Eo]. apply andb_prop in E as [E En].
apply andb_prop in E as [El Ec]. apply negb_true_iff in Eo.
apply bool_decide_eq_true in En.
destruct (nouveau_feu_valide pos t ph) as [Hv Hp].
split; simpl.
- intros p. rewrite elem_of_union, elem_of_singleton, fmap_app, elem_of_app.
  simpl. rewrite list_elem_of_singleton, Hp, H1. done.
- rewrite fmap_app. simpl. apply NoDup_app. split; [done|]. split.
  + intros x Hx Hx'. apply list_elem_of_singleton in Hx' as ->.
    rewrite Hp in Hx. by apply En, H1.
  + apply NoDup_singleton.
- intros y. rewrite feux_sur_ligne_app, Hp.
  destruct (decide (pos.2 = y)) as [<-|Hne].
  + rewrite lookup_insert_eq. simpl. rewrite H3. lia.
  + rewrite lookup_insert_ne by done. rewrite H3. lia.
- intros x. rewrite feux_sur_colonne_app, Hp.
  destruct (decide (pos.1 = x)) as [<-|Hne].
  + rewrite lookup_insert_eq. simpl. rewrite H4. lia.
  + rewrite lookup_insert_ne by done. rewrite H4. lia.
- intros y. rewrite feux_sur_ligne_app, Hp.
  destruct (decide (pos.2 = y)) as [<-|Hne].
  + rewrite H3 in El. lia.
  + specialize (H5 y). lia.
- intros x. rewrite feux_sur_colonne_app, Hp.
  destruct (decide (pos.1 = x)) as [<-|Hne].
  + rewrite H4 in Ec. lia.
  + specialize (H6 x). lia.
- intros f Hf. apply elem_of_app in Hf as [Hf|Hf]; [by apply H7|].
  apply list_elem_of_singleton in Hf as ->. by rewrite Hp.
Qed.

Lemma placer_feux_inv max_l max_c g candidats temps phase k l st :
  (∀ p, p ∈ l → p ∈ candidats) →
  inv_placement max_l max_c g candidats st →
  inv_placement max_l max_c g candidats
    (placer_feux max_l max_c g temps phase k l st).
Proof.
revert k st. induction l as [|pos l IH]; intros k st Hl Hst; [done|].
simpl. apply IH.
- intros p Hp. apply Hl. by right.
- apply placer_feu_inv; [|done]. apply Hl. by left.
Qed.

Lemma placer_feux_croissant max_l max_c g temps phase k l st :
  (length (feux_places st)
   ≤ length (feux_places (placer_feux max_l max_c g temps phase k l st)))%nat.
Proof.
revert k st. induction l as [|pos l IH]; intros k st; [done|].
simpl. etrans; [|apply IH]. unfold placer_feu.
destruct (_ && _); [|done]. simpl. rewrite length_app. lia.
Qed.

Lemma intersections_candidates_elem taille_x taille_y g p :
  p ∈ intersections_candidates taille_x taille_y g →
  dans_limites taille_x taille_y p = true ∧ est_route g p = true.
Proof.
unfold intersections_candidates. case_bool_decide.
- intros Hp. apply list_elem_of_filter in Hp as [Hr Hp].
  split; [by apply toutes_positions_elem|by apply Is_true_true].
- intros Hp. apply list_elem_of_filter in Hp as [Hr Hp].
  apply Is_true_true, andb_prop in Hr as [Hr _].
  split; [by apply toutes_positions_elem|done].
Qed.

Lemma intersections_candidates_vide taille_x taille_y g :
  intersections_candidates taille_x taille_y g = [] ↔
  ∀ p, dans_limites taille_x taille_y p = true → est_route g p = false.
Proof.
split.
- intros Hv p Hl. destruct (est_route g p) eqn:Hr; [|done]. exfalso.
  unfold intersections_candidates in Hv.
  assert (Hin : p ∈ filter (λ p, est_route g p)
                      (toutes_positions taille_x taille_y)).
  { apply list_elem_of_filter.
    split; [by apply Is_true_true|by apply toutes_positions_elem]. }
  case_bool_decide as Hi.
  + rewrite Hv in Hin. by apply elem_of_nil in Hin.
  + done.
- intros Hno. destruct (intersections_candidates taille_x taille_y g)
    as [|p l] eqn:E; [done|]. exfalso.
  destruct (intersections_candidates_elem taille_x taille_y g p)
    as [Hl Hr]; [rewrite E; by left|].
  rewrite (Hno p Hl) in Hr. done.
Qed.

Lemma est_route_pas_obstacle g p :
  est_route g p = true → est_obstacle g p = false.
Proof.
unfold est_route, est_obstacle. intros H.
apply bool_decide_eq_true in H. rewrite H.
apply bool_decide_eq_false. intros Hin.
by apply elem_of_cons in Hin as [|Hin%list_elem_of_singleton].
Qed.

(** X20 — The lights placed at start-up. When [random.shuffle] permutes
    its list, [initialiser_feux_repartis_sur_routes] returns lights on
    pairwise distinct road cells inside the limits, each in one of the three
    phases, with at most [max(1, taille_x // 15)] lights on a row and
    [max(1, taille_y // 8)] on a column; and it returns no light only when
    the grid has no road cell inside the limits. *)
Theorem initialiser_feux_valides
    (shuffle : list Position → list Position) (temps phase : nat → float)
    (taille_x taille_y : Z) (g : Grille) :
  (∀ l, shuffle l ≡ₚ l) →
  NoDup (Feu.position
           <$> initialiser_feux_repartis_sur_routes shuffle temps phase
                 taille_x taille_y g)
  ∧ (∀ f, f ∈ initialiser_feux_repartis_sur_routes shuffle temps phase
                taille_x taille_y g →
          dans_limites taille_x taille_y (Feu.position f) = true
          ∧ case_grille g (Feu.position f) = Some ROUTE
          ∧ phase_valide (Feu.etat f))
  ∧ (∀ y, Z.of_nat (feux_sur_ligne
                      (initialiser_feux_repartis_sur_routes shuffle temps
                         phase taille_x taille_y g) y)
          ≤ Z.max 1 (taille_x / 15))
  ∧ (∀ x, Z.of_nat (feux_sur_colonne
                      (initialiser_feux_repartis_sur_routes shuffle temps
                         phase taille_x taille_y g) x)
          ≤ Z.max 1 (taille_y / 8))
  ∧ (initialiser_feux_repartis_sur_routes shuffle temps phase
       taille_x taille_y g = []
     ↔ ∀ p, dans_limites taille_x taille_y p = true → est_route g p = false).
Proof.
intros Hperm. unfold initialiser_feux_repartis_sur_routes.
set (candidats := intersections_candidates taille_x taille_y g).
set (st0 := {| feux_places := []; positions_occupees := ∅;
               feux_par_ligne := ∅; feux_par_colonne := ∅ |}).
assert (H0 : inv_placement (Z.max 1 (taille_x / 15))
               (Z.max 1 (taille_y / 8)) g candidats st0).
{ split; simpl.
  - intros p. rewrite elem_of_empty. split; [done|].
    intros Hp. by apply elem_of_nil in Hp.
  - constructor.
  - done.
  - done.
  - intros y. unfold feux_sur_ligne. simpl. lia.
  - intros x. unfold feux_sur_colonne. simpl. lia.
  - intros f Hf. by apply elem_of_nil in Hf. }
pose proof (placer_feux_inv (Z.max 1 (taille_x / 15))
              (Z.max 1 (taille_y / 8)) g candidats temps phase 0
              (shuffle candidats) st0) as Hinv.
destruct Hinv as [H1 H2 H3 H4 H5 H6 H7]; [|done|].
{ intros p Hp. by rewrite (Hperm candidats) in Hp. }
case_bool_decide as Hvide.
- split; [constructor|]. split; [intros f Hf; by apply elem_of_nil in Hf|].
  split; [intros y; unfold feux_sur_ligne; simpl; lia|].
  split; [intros x; unfold feux_sur_colonne; simpl; lia|].
  split; [intros _|done]. by apply intersections_candidates_vide.
- split; [done|]. split; [|split; [done|split; [done|]]].
  + intros f Hf. destruct (H7 f Hf) as (Hc & _ & Hv).
    apply intersections_candidates_elem in Hc as [Hl Hr].
    split; [done|]. split; [|done]. by apply bool_decide_eq_true in Hr.
  + split.
    * intros Hnil. exfalso.
      destruct (shuffle candidats) as [|c l] eqn:Hs.
      { apply Hvide. apply Permutation_nil. by rewrite <- Hs, Hperm. }
      assert (Hc : c ∈ candidats).
      { rewrite <- (Hperm candidats), Hs. by left. }
      apply intersections_candidates_elem in Hc as [_ Hr].
      simpl in Hnil.
      pose proof (placer_feux_croissant (Z.max 1 (taille_x / 15))
                    (Z.max 1 (taille_y / 8)) g temps phase 1 l
                    (placer_feu (Z.max 1 (taille_x / 15))
                       (Z.max 1 (taille_y / 8)) g (temps 0%nat)
                       (phase 0%nat) st0 c)) as Hcr.
      rewrite Hnil in Hcr. revert Hcr. unfold placer_feu. simpl.
      rewrite !lookup_empty. simpl.
      rewrite (est_route_pas_obstacle g c Hr). simpl.
      replace (0 <? Z.max 1 (taille_x / 15)) with true by lia.
      replace (0 <? Z.max 1 (taille_y / 8)) with true by lia. simpl.
      rewrite bool_decide_eq_true_2 by apply not_elem_of_empty. simpl. lia.
    * intros Hno. by apply intersections_candidates_vide in Hno.
Qed.

Lemma initialiser_feux_valides_witness :
  (∀ l : list Position, (λ l, l) l ≡ₚ l)
  ∧ Feu.position
      <$> initialiser_feux_repartis_sur_routes (λ l, l)
            (λ _, 100%float) (λ _, 12%float) 5 5 Exemple.grille_croix
    = [(2, 1); (1, 2)]
  ∧ Feu.etat
      <$> initialiser_feux_repartis_sur_routes (λ l, l)
            (λ _, 100%float) (λ _, 12%float) 5 5 Exemple.grille_croix
    = ["orange"; "orange"]
  ∧ NoDup (Feu.position
             <$> initialiser_feux_repartis_sur_routes (λ l, l)
                   (λ _, 100%float) (λ _, 12%float) 5 5
                   Exemple.grille_croix).
Proof.
assert (H : ∀ l : list Position, (λ l, l) l ≡ₚ l) by done.
split; [exact H|]. split; [vm_compute; reflexivity|].
split; [vm_compute; reflexivity|].
exact (proj1 (initialiser_feux_valides (λ l, l) (λ _, 100%float)
                (λ _, 12%float) 5 5 Exemple.grille_croix H)).
Defined.

(** ** Génération des voitures *)

Lemma chercher_depart_spec (n : nat) (tirage : nat → Position) (k : nat)
    (taille_x taille_y : Z) (g : Grille)
    (interdites occupees : gset Position) (r : option Position) (k' : nat) :
  chercher_depart n tirage k taille_x taille_y g interdites occupees
  = (r, k') →
  (k ≤ k')%nat
  ∧ ∀ pos, r = Some pos →
      (k < k')%nat
      ∧ dans_limites taille_x taille_y pos = true
      ∧ est_route g pos = true
      ∧ (pos ∉ interdites) ∧ (pos ∉ occupees)
      ∧ est_case_escapable pos taille_x taille_y g = true.
Proof.
revert k. induction n as [|n IH]; intros k; simpl.
- intros [= <- <-]. split; [lia|done].
- destruct (_ && _) eqn:E.
  + intros [= <- <-]. split; [lia|]. intros pos [= <-].
    apply andb_prop in E as [E H5]. apply andb_prop in E as [E H4].
    apply andb_prop in E as [E H3]. apply andb_prop in E as [H1 H2].
    apply bool_decide_eq_true in H3, H4. repeat split; try done. lia.
  + intros H. destruct (IH _ H) as [Hk Hr]. split; [lia|].
    intros pos Hp. destruct (Hr pos Hp) as (? & ?). split; [lia|done].
Qed.

Lemma chercher_arrivee_spec (n : nat) (tirage : nat → Position) (k : nat)
    (pos : Position) (taille_x taille_y : Z) (g : Grille)
    (interdites : gset Position) (dl dc : gmap Z string)
    (r : option (Position * list Position)) (k' : nat) :
  chercher_arrivee n tirage k pos taille_x taille_y g interdites dl dc
  = (r, k') →
  (k ≤ k')%nat
  ∧ ∀ dest chemin_initial, r = Some (dest, chemin_initial) →
      (k < k')%nat
      ∧ dans_limites taille_x taille_y dest = true
      ∧ est_route g dest = true
      ∧ dest ≠ pos
      ∧ (dest ∉ interdites)
      ∧ est_case_escapable dest taille_x taille_y g = true
      ∧ trouver_chemin g pos dest dl dc = Chemin chemin_initial
      ∧ (2 ≤ length chemin_initial)%nat.
Proof.
revert k. induction n as [|n IH]; intros k; simpl.
- intros [= <- <-]. split; [lia|done].
- assert (Hsuite :
    chercher_arrivee n tirage (S k) pos taille_x taille_y g interdites dl dc
    = (r, k') →
    (k ≤ k')%nat
    ∧ ∀ dest chemin_initial, r = Some (dest, chemin_initial) →
        (k < k')%nat
        ∧ dans_limites taille_x taille_y dest = true
        ∧ est_route g dest = true
        ∧ dest ≠ pos
        ∧ (dest ∉ interdites)
        ∧ est_case_escapable dest taille_x taille_y g = true
        ∧ trouver_chemin g pos dest dl dc = Chemin chemin_initial
        ∧ (2 ≤ length chemin_initial)%nat).
  { intros H. destruct (IH _ H) as [Hk Hr]. split; [lia|].
    intros dest ch Hd. destruct (Hr dest ch Hd) as (? & ?).
    split; [lia|done]. }
  destruct (_ && _) eqn:E; [|done].
  destruct (trouver_chemin g pos (tirage k) dl dc)
    as [[|a [|b reste]]| |] eqn:Hch; try done.
  intros [= <- <-]. split; [lia|]. intros dest ch [= <- <-].
  apply andb_prop in E as [E H5]. apply andb_prop in E as [E H4].
  apply andb_prop in E as [E H3]. apply andb_prop in E as [H1 H2].
  apply bool_decide_eq_true in H3, H4. repeat split; try done; simpl; lia.
Qed.

Lemma chercher_paire_spec (n : nat) (tirage : nat → Position) (k : nat)
    (taille_x taille_y : Z) (g : Grille)
    (interdites occupees : gset Position) (dl dc : gmap Z string)
    (r : option (Position * Position * list Position)) (k' : nat) :
  chercher_paire n tirage k taille_x taille_y g interdites occupees dl dc
  = (r, k') →
  (k ≤ k')%nat
  ∧ ∀ pos dest chemin_initial, r = Some (pos, dest, chemin_initial) →
      (k < k')%nat
      ∧ (dans_limites taille_x taille_y pos = true
         ∧ est_route g pos = true
         ∧ (pos ∉ interdites) ∧ (pos ∉ occupees)
         ∧ est_case_escapable pos taille_x taille_y g = true)
      ∧ (dans_limites taille_x taille_y dest = true
         ∧ est_route g dest = true
         ∧ dest ≠ pos
         ∧ (dest ∉ interdites)
         ∧ est_case_escapable dest taille_x taille_y g = true)
      ∧ trouver_chemin g pos dest dl dc = Chemin chemin_initial
      ∧ (2 ≤ length chemin_initial)%nat.
Proof.
revert k. induction n as [|n IH]; intros k.
- simpl. intros [= <- <-]. split; [lia|done].
- cbn [chercher_paire].
  destruct (chercher_depart 50 tirage k taille_x taille_y g interdites
              occupees) as [[pos|] k1] eqn:Hd;
    apply chercher_depart_spec in Hd as [Hk1 Hd].
  + destruct (Hd pos eq_refl) as (Hk1' & Hpos).
    destruct (chercher_arrivee 50 tirage k1 pos taille_x taille_y g
                interdites dl dc) as [[[dest ch]|] k2] eqn:Ha;
      apply chercher_arrivee_spec in Ha as [Hk2 Ha].
    * intros [= <- <-]. split; [lia|]. intros ? ? ? [= <- <- <-].
      destruct (Ha dest ch eq_refl) as (? & ? & ? & ? & ? & ? & ? & ?).
      split; [lia|]. split; [done|]. by repeat split.
    * intros H. destruct (IH _ H) as [Hk Hr]. split; [lia|].
      intros p d c Hp. destruct (Hr p d c Hp) as (? & ?).
      split; [lia|done].
  + intros H. destruct (IH _ H) as [Hk Hr]. split; [lia|].
    intros p d c Hp. destruct (Hr p d c Hp) as (? & ?).
    split; [lia|done].
Qed.

Lemma positions_actives_set (voitures : list Voiture.t) p :
  p ∈ (list_to_set (Voiture.position
                      <$> filter (λ v, Voiture.en_route v) voitures)
       : gset Position)
  ↔ p ∈ positions_actives voitures.
Proof. by rewrite elem_of_list_to_set. Qed.

(** What one call of the generator gives. *)
Lemma generer_une_nouvelle_voiture_cas tirage horloge s taille_x taille_y
    feux g dl dc voitures :
  match generer_une_nouvelle_voiture tirage horloge s taille_x taille_y
          feux g dl dc voitures with
  | (Some v, s') =>
      Voiture.id v = prochain_id_voiture s
      ∧ prochain_id_voiture s' = prochain_id_voiture s + 1
      ∧ (tirages_faits s < tirages_faits s')%nat
      ∧ Voiture.dernier_deplacement v = horloge (tirages_faits s')
      ∧ voiture_neuve taille_x taille_y feux g dl dc voitures v
  | (None, s') =>
      prochain_id_voiture s' = prochain_id_voiture s
      ∧ (tirages_faits s ≤ tirages_faits s')%nat
  end.
Proof.
unfold generer_une_nouvelle_voiture.
destruct (chercher_paire _ _ _ _ _ _ _ _ _ _)
  as [[[[pos dest] ch]|] k'] eqn:Hp;
  apply chercher_paire_spec in Hp as [Hk Hp]; [|done].
destruct (Hp pos dest ch eq_refl)
  as (Hk' & (P1 & P2 & P3 & P4 & P5) & (D1 & D2 & D3 & D4 & D5)
      & Hch & Hlen).
simpl. repeat split; try done.
- intros Hf. apply P3. unfold positions_interdites_perm.
  by apply elem_of_union_l.
- intros Ho. apply P4. by apply positions_actives_set.
- intros Hf. apply D4. unfold positions_interdites_perm.
  by apply elem_of_union_l.
- clear Hp. destruct ch as [|a [|b reste]]; simpl in *;
    [exfalso; lia|exfalso; lia|done].
- pose proof (trouver_chemin_correct g dl dc pos dest) as H.
  rewrite Hch in H. destruct H as [H _].
  pose proof (itineraire_tete _ _ _ _ _ _ H) as Ht.
  destruct ch as [|a ch]; [done|]. injection Ht as ->. done.
- pose proof (trouver_chemin_correct g dl dc pos dest) as H.
  rewrite Hch in H. destruct H as [H Hmin].
  pose proof (itineraire_tete _ _ _ _ _ _ H) as Ht.
  destruct ch as [|a ch]; [done|]. injection Ht as ->.
  clear Hp. intros r Hr. specialize (Hmin r Hr). simpl in *.
  rewrite drop_0. lia.
Qed.

(** X21 — A generated car. When [generer_une_nouvelle_voiture] returns a
    car, the car carries the identifier [prochain_id_voiture], which is then
    incremented; it has not arrived and is not blocked; it stands on a road
    cell inside the limits, escapable, with no light and no car in route on
    it; its destination is another such road cell; and its stored path,
    which is not empty, is the tail of a shortest legal route from its cell
    to its destination. When no car is returned the counter is unchanged. *)
Theorem generer_une_nouvelle_voiture_valide
    (tirage : nat → Position) (horloge : nat → float) (s s' : Source)
    (taille_x taille_y : Z) (feux : list Feu.t) (g : Grille)
    (directions_lignes colonnes_directions : gmap Z string)
    (voitures : list Voiture.t) (r : option Voiture.t) :
  generer_une_nouvelle_voiture tirage horloge s taille_x taille_y feux g
    directions_lignes colonnes_directions voitures = (r, s') →
  match r with
  | Some v =>
      Voiture.id v = prochain_id_voiture s
      ∧ prochain_id_voiture s' = prochain_id_voiture s + 1
      ∧ voiture_neuve taille_x taille_y feux g
          directions_lignes colonnes_directions voitures v
  | None => prochain_id_voiture s' = prochain_id_voiture s
  end.
Proof.
intros H.
pose proof (generer_une_nouvelle_voiture_cas tirage horloge s
              taille_x taille_y feux g directions_lignes
              colonnes_directions voitures) as Hc.
rewrite H in Hc. destruct r as [v|].
- destruct Hc as (H1 & H2 & _ & _ & H5). split; [done|]. by split.
- by destruct Hc as [H1 _].
Qed.

Lemma generer_une_nouvelle_voiture_valide_witness :
  generer_une_nouvelle_voiture
    (λ k, match k with O => (0, 2) | _ => (2, 4) end) (λ _, 7%float)
    {| tirages_faits := 0; prochain_id_voiture := 1 |} 5 5 []
    Exemple.grille_croix Exemple.lignes_croix Exemple.colonnes_croix []
  = (Some (Voiture.mk 1 (0, 2) (2, 4) [(1, 2); (2, 2); (2, 3); (2, 4)]
             None 7%float 0 None 0),
     {| tirages_faits := 2; prochain_id_voiture := 2 |})
  ∧ voiture_neuve 5 5 [] Exemple.grille_croix
      Exemple.lignes_croix Exemple.colonnes_croix []
      (Voiture.mk 1 (0, 2) (2, 4) [(1, 2); (2, 2); (2, 3); (2, 4)]
         None 7%float 0 None 0).
Proof.
assert (H : generer_une_nouvelle_voiture
              (λ k, match k with O => (0, 2) | _ => (2, 4) end)
              (λ _, 7%float)
              {| tirages_faits := 0; prochain_id_voiture := 1 |} 5 5 []
              Exemple.grille_croix Exemple.lignes_croix
              Exemple.colonnes_croix []
            = (Some (Voiture.mk 1 (0, 2) (2, 4)
                       [(1, 2); (2, 2); (2, 3); (2, 4)]
                       None 7%float 0 None 0),
               {| tirages_faits := 2; prochain_id_voiture := 2 |}))
  by (vm_compute; reflexivity).
split; [exact H|].
exact (proj2 (proj2 (generer_une_nouvelle_voiture_valide _ _ _ _ 5 5 []
                       Exemple.grille_croix Exemple.lignes_croix
                       Exemple.colonnes_croix [] _ H))).
Defined.

(** *** La flotte *)

Lemma positions_actives_app l k :
  positions_actives (l ++ k) = positions_actives l ++ positions_actives k.
Proof. unfold positions_actives. by rewrite filter_app, fmap_app. Qed.

Lemma voiture_neuve_coherente taille_x taille_y feux g dl dc voitures v :
  voiture_neuve taille_x taille_y feux g dl dc voitures v →
  chemin_coherent dl dc v.
Proof.
intros [_ _ _ [Hne [Hit _]]].
apply itineraire_chaine in Hit as (l' & [= <-] & Hch & Hl).
split; [done|]. right. by destruct Hl as [[? _]|Hl].
Qed.

Lemma flotte_ajout dl dc voitures v prochain :
  flotte_coherente dl dc voitures prochain →
  Voiture.id v = prochain →
  (Voiture.position v ∉ positions_actives voitures) →
  chemin_coherent dl dc v →
  flotte_coherente dl dc (voitures ++ [v]) (prochain + 1).
Proof.
intros [H1 H2 H3 H4] Hid Hpos Hch. split.
- rewrite fmap_app. simpl. apply NoDup_app. split; [done|]. split.
  + intros x Hx Hx'. apply list_elem_of_singleton in Hx' as ->.
    apply list_elem_of_fmap in Hx as (w & Hw & Hin).
    specialize (H2 w Hin). lia.
  + apply NoDup_singleton.
- intros w Hw. apply elem_of_app in Hw as [Hw|Hw].
  + specialize (H2 w Hw). lia.
  + apply list_elem_of_singleton in Hw as ->. lia.
- unfold exclusion_mutuelle in *. rewrite positions_actives_app.
  apply NoDup_app. split; [done|]. split.
  + intros x Hx Hx'. rewrite positions_actives_cons in Hx'.
    destruct (Voiture.en_route v); [|by apply elem_of_nil in Hx'].
    apply list_elem_of_singleton in Hx' as ->. done.
  + rewrite positions_actives_cons.
    destruct (Voiture.en_route v); [apply NoDup_singleton|constructor].
- apply Forall_app. split; [done|]. by constructor.
Qed.

Lemma flotte_compteur dl dc voitures p p' :
  p ≤ p' → flotte_coherente dl dc voitures p →
  flotte_coherente dl dc voitures p'.
Proof.
intros Hle [H1 H2 H3 H4]. split; try done.
intros v Hv. specialize (H2 v Hv). lia.
Qed.

(** What the cars of the two generation loops have in common. *)
Lemma boucle_generation_initiale_inv restant tirage horloge s
    taille_x taille_y feux g dl dc n (P : Voiture.t → Prop) initial :
  (∀ voitures v,
     voiture_neuve taille_x taille_y feux g dl dc voitures v → P v) →
  flotte_coherente dl dc initial (prochain_id_voiture s) →
  (length initial ≤ n)%nat →
  Forall P initial →
  flotte_coherente dl dc
    (boucle_generation_initiale restant tirage horloge s taille_x taille_y
       feux g dl dc n initial).1
    (prochain_id_voiture
       (boucle_generation_initiale restant tirage horloge s taille_x
          taille_y feux g dl dc n initial).2)
  ∧ (length (boucle_generation_initiale restant tirage horloge s taille_x
               taille_y feux g dl dc n initial).1 ≤ n)%nat
  ∧ Forall P
      (boucle_generation_initiale restant tirage horloge s taille_x
         taille_y feux g dl dc n initial).1
  ∧ prochain_id_voiture
      (boucle_generation_initiale restant tirage horloge s taille_x
         taille_y feux g dl dc n initial).2
    - prochain_id_voiture s
    = Z.of_nat
        (length (boucle_generation_initiale restant tirage horloge s
                   taille_x taille_y feux g dl dc n initial).1)
      - Z.of_nat (length initial).
Proof.
intros HP. revert s initial.
induction restant as [|restant IH]; intros s initial Hfl Hlen HF.
- simpl. split; [done|]. split; [done|]. split; [done|]. lia.
- cbn [boucle_generation_initiale].
  case_bool_decide as Hlt;
    [|cbn [fst snd]; split; [done|]; split; [done|]; split; [done|]; lia].
  pose proof (generer_une_nouvelle_voiture_cas tirage horloge s
                taille_x taille_y feux g dl dc initial) as Hc.
  destruct (generer_une_nouvelle_voiture _ _ _ _ _ _ _ _ _ _)
    as [[v|] s'].
  + destruct Hc as (Hid & Hs' & _ & _ & Hn).
    destruct (IH s' (initial ++ [v])) as (G1 & G2 & G3 & G4).
    * rewrite Hs'. apply flotte_ajout; [done..| |].
      -- by destruct Hn as [_ (_ & _ & _ & _ & ?) _ _].
      -- by eapply voiture_neuve_coherente.
    * rewrite length_app. simpl. lia.
    * apply Forall_app. split; [done|]. constructor; [|done].
      by eapply HP.
    * split; [done|]. split; [done|]. split; [done|].
      rewrite length_app in G4. simpl in G4. lia.
  + destruct Hc as [Hs' _].
    destruct (IH s' initial) as (G1 & G2 & G3 & G4); [by rewrite Hs'|done..|].
    split; [done|]. split; [done|]. split; [done|]. lia.
Qed.

(** X22 — The initial cars. Whatever the draws,
    [generer_voitures_initiales] returns at most [n_voitures] cars, with
    distinct identifiers numbered from [prochain_id_voiture] on, which it
    advances by the number of cars made; the cars have not arrived, stand on
    pairwise distinct road cells with no light on them, and have coherent
    stored paths. *)
Theorem generer_voitures_initiales_coherentes
    (tirage : nat → Position) (horloge : nat → float) (s : Source)
    (taille_x taille_y : Z) (feux : list Feu.t) (g : Grille)
    (directions_lignes colonnes_directions : gmap Z string)
    (n_voitures : nat) :
  flotte_coherente directions_lignes colonnes_directions
    (generer_voitures_initiales tirage horloge s taille_x taille_y feux g
       directions_lignes colonnes_directions n_voitures).1
    (prochain_id_voiture
       (generer_voitures_initiales tirage horloge s taille_x taille_y feux
          g directions_lignes colonnes_directions n_voitures).2)
  ∧ (length (generer_voitures_initiales tirage horloge s taille_x taille_y
               feux g directions_lignes colonnes_directions n_voitures).1
     ≤ n_voitures)%nat
  ∧ Forall (λ v, Voiture.en_route v = true
                 ∧ est_route g (Voiture.position v) = true
                 ∧ Voiture.position v ∉ positions_feux feux)
      (generer_voitures_initiales tirage horloge s taille_x taille_y feux g
         directions_lignes colonnes_directions n_voitures).1
  ∧ prochain_id_voiture
      (generer_voitures_initiales tirage horloge s taille_x taille_y feux g
         directions_lignes colonnes_directions n_voitures).2
    = prochain_id_voiture s
      + Z.of_nat
          (length (generer_voitures_initiales tirage horloge s taille_x
                     taille_y feux g directions_lignes colonnes_directions
                     n_voitures).1).
Proof.
unfold generer_voitures_initiales.
destruct (boucle_generation_initiale_inv (n_voitures * 2) tirage horloge s
            taille_x taille_y feux g directions_lignes colonnes_directions
            n_voitures
            (λ v, Voiture.en_route v = true
                  ∧ est_route g (Voiture.position v) = true
                  ∧ Voiture.position v ∉ positions_feux feux) [])
  as (H1 & H2 & H3 & H4).
- intros voitures v [(Ht & _) (_ & Hr & _ & Hf & _) _ _].
  unfold Voiture.en_route. by rewrite Ht.
- split; simpl.
  + constructor.
  + intros v Hv. by apply elem_of_nil in Hv.
  + constructor.
  + constructor.
- simpl. lia.
- constructor.
- split; [done|]. split; [done|]. split; [done|]. simpl in H4. lia.
Qed.

Lemma boucle_regeneration_inv restant tirage horloge s taille_x taille_y
    feux g dl dc voitures :
  flotte_coherente dl dc voitures (prochain_id_voiture s) →
  flotte_coherente dl dc
    (boucle_regeneration restant tirage horloge s taille_x taille_y feux g
       dl dc voitures).1
    (prochain_id_voiture
       (boucle_regeneration restant tirage horloge s taille_x taille_y feux
          g dl dc voitures).2)
  ∧ voitures `prefix_of`
      (boucle_regeneration restant tirage horloge s taille_x taille_y feux
         g dl dc voitures).1
  ∧ (length (boucle_regeneration restant tirage horloge s taille_x taille_y
               feux g dl dc voitures).1
     ≤ length voitures + restant)%nat.
Proof.
revert s voitures.
induction restant as [|restant IH]; intros s voitures Hfl.
- simpl. split; [done|]. split; [done|]. lia.
- cbn [boucle_regeneration].
  pose proof (generer_une_nouvelle_voiture_cas tirage horloge s
                taille_x taille_y feux g dl dc voitures) as Hc.
  destruct (generer_une_nouvelle_voiture _ _ _ _ _ _ _ _ _ _)
    as [[v|] s'].
  + destruct Hc as (Hid & Hs' & _ & _ & Hn).
    destruct (IH s' (voitures ++ [v])) as (G1 & G2 & G3).
    * rewrite Hs'. apply flotte_ajout; [done..| |].
      -- by destruct Hn as [_ (_ & _ & _ & _ & ?) _ _].
      -- by eapply voiture_neuve_coherente.
    * split; [done|]. split.
      -- etrans; [|exact G2]. by apply prefix_app_r.
      -- rewrite length_app in G3. simpl in G3. lia.
  + destruct Hc as [Hs' _]. cbn [fst snd]. rewrite Hs'.
    split; [done|]. split; [done|]. lia.
Qed.

(** X23 — Regeneration. The regeneration loop of the main loop keeps the
    cars it finds, in order, and appends new ones: if the cars had distinct
    identifiers below the counter, no two in route on one cell and coherent
    paths, the same holds afterwards for the new counter, and the list has
    at most [NOMBRE_VOITURES_CIBLE] cars unless it already had more. *)
Theorem regenerer_coherent
    (tirage : nat → Position) (horloge : nat → float) (s : Source)
    (taille_x taille_y : Z) (feux : list Feu.t) (g : Grille)
    (directions_lignes colonnes_directions : gmap Z string)
    (voitures : list Voiture.t) :
  flotte_coherente directions_lignes colonnes_directions voitures
    (prochain_id_voiture s) →
  flotte_coherente directions_lignes colonnes_directions
    (regenerer tirage horloge s taille_x taille_y feux g
       directions_lignes colonnes_directions voitures).1
    (prochain_id_voiture
       (regenerer tirage horloge s taille_x taille_y feux g
          directions_lignes colonnes_directions voitures).2)
  ∧ voitures `prefix_of`
      (regenerer tirage horloge s taille_x taille_y feux g
         directions_lignes colonnes_directions voitures).1
  ∧ (length (regenerer tirage horloge s taille_x taille_y feux g
               directions_lignes colonnes_directions voitures).1
     ≤ length voitures `max` NOMBRE_VOITURES_CIBLE)%nat.
Proof.
intros Hfl. unfold regenerer.
destruct (boucle_regeneration_inv
            (NOMBRE_VOITURES_CIBLE - length voitures) tirage horloge s
            taille_x taille_y feux g directions_lignes colonnes_directions
            voitures Hfl) as (H1 & H2 & H3).
split; [done|]. split; [done|]. lia.
Qed.

Lemma regenerer_coherent_witness :
  flotte_coherente Exemple.lignes_croix Exemple.colonnes_croix
    [Scenario.voiture_centre] 3
  ∧ Voiture.position
      <$> (regenerer (λ k, match k with O => (0, 2) | _ => (2, 4) end)
             (λ _, 7%float)
             {| tirages_faits := 0; prochain_id_voiture := 3 |} 5 5 []
             Exemple.grille_croix Exemple.lignes_croix
             Exemple.colonnes_croix [Scenario.voiture_centre]).1
    = [(1, 2); (0, 2)]
  ∧ flotte_coherente Exemple.lignes_croix Exemple.colonnes_croix
      (regenerer (λ k, match k with O => (0, 2) | _ => (2, 4) end)
         (λ _, 7%float)
         {| tirages_faits := 0; prochain_id_voiture := 3 |} 5 5 []
         Exemple.grille_croix Exemple.lignes_croix
         Exemple.colonnes_croix [Scenario.voiture_centre]).1
      (prochain_id_voiture
         (regenerer (λ k, match k with O => (0, 2) | _ => (2, 4) end)
            (λ _, 7%float)
            {| tirages_faits := 0; prochain_id_voiture := 3 |} 5 5 []
            Exemple.grille_croix Exemple.lignes_croix
            Exemple.colonnes_croix [Scenario.voiture_centre]).2).
Proof.
assert (H : flotte_coherente Exemple.lignes_croix Exemple.colonnes_croix
              [Scenario.voiture_centre] 3).
{ split.
  - compute_done.
  - intros v Hv. apply list_elem_of_singleton in Hv as ->. simpl. lia.
  - unfold exclusion_mutuelle. compute_done.
  - constructor; [|constructor]. split; [|by right].
    split; [left; split; reflexivity|].
    split; [right; right; left; split; reflexivity|].
    split; [right; right; left; split; reflexivity|exact I]. }
split; [exact H|]. split; [vm_compute; reflexivity|].
exact (proj1 (regenerer_coherent
                (λ k, match k with O => (0, 2) | _ => (2, 4) end)
                (λ _, 7%float)
                {| tirages_faits := 0; prochain_id_voiture := 3 |} 5 5 []
                Exemple.grille_croix Exemple.lignes_croix
                Exemple.colonnes_croix [Scenario.voiture_centre] H)).
Defined.

(** ** Invariant de la simulation *)

(** *** Modifications de la grille *)

Lemma forcer_recalcul_memes x y voitures :
  Forall2 (λ v v',
             meme_voiture v v'
             ∧ (Voiture.chemin v' = Voiture.chemin v
                ∨ Voiture.chemin v' = []))
          voitures (forcer_recalcul_si_affecte x y voitures).
Proof.
unfold forcer_recalcul_si_affecte.
apply Forall2_fmap_r, Forall_Forall2_diag, Forall_forall. intros v _.
simpl. destruct (_ && _); [|split; [reflexivity|by left]].
destruct (_ || _); [|split; [reflexivity|by left]].
split; [|by right]. unfold meme_voiture. simpl. auto 10.
Qed.

Lemma forcer_recalcul_flotte dl dc x y voitures p :
  flotte_coherente dl dc voitures p →
  flotte_coherente dl dc (forcer_recalcul_si_affecte x y voitures) p
  ∧ length (forcer_recalcul_si_affecte x y voitures) = length voitures.
Proof.
intros [H1 H2 H3 H4].
pose proof (forcer_recalcul_memes x y voitures) as HF.
assert (HM : Forall2 meme_voiture voitures
               (forcer_recalcul_si_affecte x y voitures)).
{ eapply Forall2_impl; [exact HF|]. by intros v v' [? _]. }
destruct (meme_voiture_positions _ _ HM) as [Hpos Hids].
split; [|symmetry; by eapply Forall2_length].
split.
- by rewrite Hids.
- intros v' Hv'. apply list_elem_of_lookup in Hv' as [i Hi].
  destruct (Forall2_lookup_r _ _ _ _ _ HF Hi) as (v & Hv & (Hid & _) & _).
  rewrite Hid. apply H2. by eapply list_elem_of_lookup_2.
- unfold exclusion_mutuelle. by rewrite Hpos.
- apply Forall_lookup. intros i v' Hi.
  destruct (Forall2_lookup_r _ _ _ _ _ HF Hi)
    as (v & Hv & (_ & Hp & Hd & _) & Hc).
  pose proof (proj1 (Forall_lookup _ _) H4 i v Hv) as [Hch Hl].
  unfold chemin_coherent. rewrite Hp, Hd.
  destruct Hc as [-> | ->]; [done|]. split; [done|by left].
Qed.

Lemma edition_voitures taille_x taille_y feux ed e :
  (appliquer_edition taille_x taille_y feux ed e).2 = e.2
  ∨ ∃ x y, (appliquer_edition taille_x taille_y feux ed e).2
           = forcer_recalcul_si_affecte x y e.2.
Proof.
destruct e as [g vs]. destruct ed as [cx cy|cx cy|choix|choix]; simpl.
- unfold clic_gauche. simpl. destruct (dans_limites _ _ _); [|by left].
  destruct (ajouter_obstacle_manuel g cx cy feux) as [[] g']; simpl;
    [right; eauto|by left].
- unfold clic_droit. simpl. destruct (dans_limites _ _ _); [|by left].
  case_bool_decide; by left.
- unfold obstacle_auto_ajout. simpl.
  destruct (possible_add_positions _ _ _ _ !! choix) as [[ox oy]|];
    [|by left].
  destruct (ajouter_obstacle_auto g ox oy feux) as [[] g']; simpl;
    [right; eauto|by left].
- unfold obstacle_auto_retrait. simpl.
  destruct (current_obstacle_auto_positions _ _ _ !! choix); by left.
Qed.

Lemma edition_coherente taille_x taille_y dl dc feux p n ed e :
  etat_coherent taille_x taille_y dl dc feux p n e →
  etat_coherent taille_x taille_y dl dc feux p n
    (appliquer_edition taille_x taille_y feux ed e).
Proof.
intros [H1 [H2 H2'] H3 H4 H5 H6].
assert (Hv : flotte_coherente dl dc
               (appliquer_edition taille_x taille_y feux ed e).2 p
             ∧ length (appliquer_edition taille_x taille_y feux ed e).2 = n).
{ destruct (edition_voitures taille_x taille_y feux ed e)
    as [->|(x & y & ->)]; [done|].
  destruct (forcer_recalcul_flotte dl dc x y e.2 p H5) as [? ?].
  split; [done|congruence]. }
destruct Hv as [Hv1 Hv2].
destruct (appliquer_edition_cas taille_x taille_y feux ed e)
  as [Heq|(c & s & Heq & Hlim & Hcas)].
{ split; rewrite ?Heq; done. }
destruct (ecrire_case_dims e.1 c s) as [Hl Hh].
assert (Hc0 : ∃ s0, case_grille e.1 c = Some s0).
{ destruct Hcas as [(? & _)|[[?|?] _]]; eauto. }
destruct Hc0 as [s0 Hs0].
split; rewrite ?Heq; try done.
- by apply ecrire_case_rect.
- split; congruence.
- intros q Hq. specialize (H3 q Hq).
  destruct (decide (q = c)) as [->|Hne].
  + rewrite (ecrire_case_ici _ _ _ s Hs0).
    destruct ((c.1 mod 3 =? 0) || (c.2 mod 3 =? 0)).
    * destruct Hcas as [(_ & _ & [->| ->])|[_ ->]]; auto.
    * exfalso. rewrite H3 in Hs0.
      destruct Hcas as [(Hc & _)|[[Hc|Hc] _]]; rewrite H3 in Hc; done.
  + by rewrite (ecrire_case_ailleurs _ _ s0 s q Hs0 Hne).
- intros f Hf. specialize (H4 f Hf).
  destruct (decide (Feu.position f = c)) as [Hfc|Hne].
  + exfalso. rewrite Hfc in H4.
    destruct Hcas as [(_ & Hnf & _)|[[Hc|Hc] _]].
    * apply Hnf. unfold positions_feux. apply elem_of_list_to_set.
      apply list_elem_of_fmap. by exists f.
    * rewrite H4 in Hc. done.
    * rewrite H4 in Hc. done.
  + by rewrite (ecrire_case_ailleurs _ _ s0 s _ Hs0 Hne).
Qed.

Lemma traiter_clic_coherent taille_x taille_y dl dc feux p n e c :
  etat_coherent taille_x taille_y dl dc feux p n e →
  etat_coherent taille_x taille_y dl dc feux p n
    (Simulation.traiter_clic taille_x taille_y feux e c).
Proof.
intros He. unfold Simulation.traiter_clic.
destruct (Simulation.bouton c =? 1).
- by apply (edition_coherente _ _ _ _ _ _ _
              (ClicGauche (Simulation.cx c) (Simulation.cy c))).
- destruct (Simulation.bouton c =? 3); [|done].
  by apply (edition_coherente _ _ _ _ _ _ _
              (ClicDroit (Simulation.cx c) (Simulation.cy c))).
Qed.

Lemma clics_coherents taille_x taille_y dl dc feux p n l e :
  etat_coherent taille_x taille_y dl dc feux p n e →
  etat_coherent taille_x taille_y dl dc feux p n
    (foldl (Simulation.traiter_clic taille_x taille_y feux) e l).
Proof.
revert e. induction l as [|c l IH]; intros e He; [done|].
simpl. by apply IH, traiter_clic_coherent.
Qed.

Lemma obstacles_automatiques_coherents taille_x taille_y dl dc feux p n
    inp timer e :
  etat_coherent taille_x taille_y dl dc feux p n e →
  etat_coherent taille_x taille_y dl dc feux p n
    (Simulation.obstacles_automatiques taille_x taille_y feux inp timer e).2.
Proof.
intros He. unfold Simulation.obstacles_automatiques.
destruct (_ <=? _)%float; [|done]. simpl.
case_bool_decide.
- by apply (edition_coherente _ _ _ _ _ _ _
              (AutoAjout (Simulation.choix_obstacle inp))).
- case_bool_decide; [|done].
  by apply (edition_coherente _ _ _ _ _ _ _
              (AutoRetrait (Simulation.choix_obstacle inp))).
Qed.

(** *** Feux *)

Lemma mettre_a_jour_feu_position t feu :
  Feu.position (mettre_a_jour_feu t feu) = Feu.position feu.
Proof.
unfold mettre_a_jour_feu. destruct (_ <? _)%float; [|done].
repeat case_bool_decide; done.
Qed.

Lemma mettre_a_jour_feu_phase t feu :
  phase_valide (Feu.etat feu) →
  phase_valide (Feu.etat (mettre_a_jour_feu t feu)).
Proof.
intros Hv. unfold mettre_a_jour_feu. destruct (_ <? _)%float; [|done].
unfold phase_valide.
repeat case_bool_decide; simpl; auto.
Qed.

Lemma mettre_a_jour_feux_coherents g t feux :
  feux_coherents g feux → feux_coherents g (mettre_a_jour_feux t feux).
Proof.
intros [H1 H2 H3]. unfold mettre_a_jour_feux. split.
- rewrite <- list_fmap_compose.
  rewrite (list_fmap_ext _ Feu.position feux); [done|].
  intros i f _. simpl. apply mettre_a_jour_feu_position.
- intros f' Hf'. apply list_elem_of_fmap in Hf' as (f & -> & Hf).
  rewrite mettre_a_jour_feu_position. by apply H2.
- intros f' Hf'. apply list_elem_of_fmap in Hf' as (f & -> & Hf).
  by apply mettre_a_jour_feu_phase, H3.
Qed.

(** *** Voitures *)

Lemma tick_flotte shuffle t voitures g feux dl dc taille_x taille_y
    pietons p :
  (∀ l, shuffle l ≡ₚ l) →
  flotte_coherente dl dc voitures p →
  flotte_coherente dl dc
    (mettre_a_jour_voitures shuffle t voitures g feux dl dc
       taille_x taille_y pietons) p
  ∧ (length (mettre_a_jour_voitures shuffle t voitures g feux dl dc
               taille_x taille_y pietons) ≤ length voitures)%nat.
Proof.
intros Hperm [H1 H2 H3 H4].
pose proof (mettre_a_jour_voitures_ids shuffle t voitures g feux dl dc
              taille_x taille_y pietons) as Hids.
pose proof (phase_arrivees_ids t voitures) as Hsub.
split; [split|].
- rewrite Hids. by eapply sublist_NoDup.
- intros v' Hv'.
  assert (Hin : Voiture.id v' ∈ Voiture.id <$> voitures).
  { eapply elem_of_sublist; [|exact Hsub]. rewrite <- Hids.
    apply list_elem_of_fmap. by exists v'. }
  apply list_elem_of_fmap in Hin as (v & -> & Hv). by apply H2.
- unfold exclusion_mutuelle in *.
  eapply (exclusion_apres_application
            (approved_moves
               (resolution_du_tick shuffle t voitures g feux dl dc pietons))
            (positions_actives (phase_arrivees t voitures))).
  + eapply Forall2_impl;
      [apply (mettre_a_jour_voitures_suivi shuffle t voitures g feux dl dc
                taille_x taille_y pietons)|].
    intros v v' (G1 & _ & G3 & _ & G5). split; [done|]. by split.
  + intros i q Hi. by eapply resolution_du_tick_approved.
  + apply resolution_du_tick_injectif.
  + done.
  + by eapply sublist_NoDup.
  + eapply sublist_NoDup; [exact H3|]. apply phase_arrivees_positions.
- pose proof (tick_longueur shuffle t voitures g feux dl dc
                taille_x taille_y pietons) as Hlen.
  apply Forall_lookup. intros i v' Hv'.
  destruct (lookup_lt_is_Some_2
              (phase_recalcul t g dl dc
                 (voitures_en_route (phase_arrivees t voitures))
                 (phase_arrivees t voitures)) i) as [v1 Hv1].
  { rewrite Hlen. by eapply lookup_lt_Some. }
  by destruct (tick_voiture_coherent shuffle t voitures g feux dl dc
                 taille_x taille_y pietons i v1 v' Hperm H1 H4 Hv1 Hv').
- rewrite <- (length_fmap Voiture.id), Hids, <- (length_fmap Voiture.id voitures).
  by apply sublist_length.
Qed.

(** *** Une itération *)

Lemma iteration_coherente taille_x taille_y dl dc inp m :
  (∀ l, Simulation.melange inp l ≡ₚ l) →
  monde_coherent taille_x taille_y dl dc m →
  monde_coherent taille_x taille_y dl dc
    (Simulation.iteration taille_x taille_y dl dc inp m).
Proof.
intros Hperm [H1 H2 H3 [F1 F2 F3] H5 H6 H7].
unfold Simulation.iteration.
set (e1 := foldl (Simulation.traiter_clic taille_x taille_y
                    (Simulation.feux m))
                 (Simulation.grille m, Simulation.voitures m)
                 (Simulation.clics inp)).
set (te := Simulation.obstacles_automatiques taille_x taille_y
             (Simulation.feux m) inp
             (Simulation.obstacle_automatique_timer m) e1).
set (feux' := mettre_a_jour_feux (Simulation.temps_feux inp)
                (Simulation.feux m)).
set (pp := mettre_a_jour_pietons (Simulation.alea_pieton inp)
             (Simulation.choix_pieton inp) (Simulation.prochain_id_pieton m)
             (Simulation.passages_pietons m) (Simulation.pietons_actifs m)
             te.2.2).
set (voitures' := mettre_a_jour_voitures (Simulation.melange inp)
                    (Simulation.temps_voitures inp) te.2.2 te.2.1 feux'
                    dl dc taille_x taille_y pp.1).
assert (He1 : etat_coherent taille_x taille_y dl dc (Simulation.feux m)
                (prochain_id_voiture (Simulation.source m))
                (length (Simulation.voitures m)) e1).
{ apply clics_coherents. by split. }
assert (He2 : etat_coherent taille_x taille_y dl dc (Simulation.feux m)
                (prochain_id_voiture (Simulation.source m))
                (length (Simulation.voitures m)) te.2).
{ by apply obstacles_automatiques_coherents. }
destruct He2 as [G1 G2 G3 G4 G5 G6].
destruct (tick_flotte (Simulation.melange inp)
            (Simulation.temps_voitures inp) te.2.2 te.2.1 feux' dl dc
            taille_x taille_y pp.1
            (prochain_id_voiture (Simulation.source m)) Hperm G5)
  as [T1 T2].
fold voitures' in T1, T2.
destruct (boucle_regeneration_inv
            (NOMBRE_VOITURES_CIBLE - length voitures')
            (Simulation.tirage inp) (Simulation.horloge inp)
            (Simulation.source m) taille_x taille_y feux' te.2.1 dl dc
            voitures' T1) as (R1 & _ & R3).
split; cbn [Simulation.grille Simulation.voitures Simulation.feux
            Simulation.passages_pietons Simulation.pietons_actifs
            Simulation.source Simulation.prochain_id_pieton].
- done.
- done.
- done.
- apply mettre_a_jour_feux_coherents. by split.
- exact R1.
- unfold regenerer. lia.
- unfold pp, mettre_a_jour_pietons.
  by apply faire_apparaitre_coherents, faire_avancer_coherents.
Qed.

(** *** État initial *)

Lemma case_grille_dans_limites g p s :
  grille_rect g → case_grille g p = Some s →
  dans_limites (largeur g) (hauteur g) p = true.
Proof.
intros [_ HF] Hs.
apply case_grille_Some in Hs as (Hp1 & Hp2 & row & Hrow & Hcol).
pose proof (proj1 (Forall_lookup _ _) HF _ _ Hrow) as Hlen.
apply lookup_lt_Some in Hrow, Hcol.
unfold dans_limites, largeur, hauteur. simpl in *. lia.
Qed.

Lemma reseau_initial_inv taille_x taille_y :
  0 ≤ taille_x → 0 < taille_y →
  grille_rect
    (definir_reseau_routier
       (creer_grille (Z.to_nat taille_x) (Z.to_nat taille_y))
       taille_x taille_y)
  ∧ largeur
      (definir_reseau_routier
         (creer_grille (Z.to_nat taille_x) (Z.to_nat taille_y))
         taille_x taille_y) = taille_x
  ∧ hauteur
      (definir_reseau_routier
         (creer_grille (Z.to_nat taille_x) (Z.to_nat taille_y))
         taille_x taille_y) = taille_y
  ∧ ∀ p, dans_limites taille_x taille_y p = true →
      case_grille
        (definir_reseau_routier
           (creer_grille (Z.to_nat taille_x) (Z.to_nat taille_y))
           taille_x taille_y) p
      = Some (if (p.1 mod 3 =? 0) || (p.2 mod 3 =? 0) then ROUTE
              else NON_ROUTIER).
Proof.
intros Hx Hy.
destruct (ecritures_conditionnelles
            (λ p, (p.1 mod 3 =? 0) || (p.2 mod 3 =? 0))
            (toutes_positions taille_x taille_y)
            (creer_grille (Z.to_nat taille_x) (Z.to_nat taille_y)))
  as (H1 & H2 & H3 & H4).
{ intros q Hq. apply toutes_positions_elem in Hq.
  rewrite creer_grille_case, !Z2Nat.id by lia. by rewrite Hq. }
destruct (creer_grille_dims (Z.to_nat taille_x) (Z.to_nat taille_y))
  as [G1 G2]; [lia|].
split; [apply H3, creer_grille_rect; lia|].
split; [etrans; [apply H1|]; rewrite G1; lia|].
split; [etrans; [apply H2|]; rewrite G2; lia|].
intros p Hl. etrans; [apply H4|].
rewrite creer_grille_case, !Z2Nat.id by lia. rewrite Hl.
rewrite bool_decide_eq_true_2 by (by apply toutes_positions_elem).
simpl. by destruct (_ || _).
Qed.

Lemma initialiser_feux_coherents shuffle temps phase taille_x taille_y g :
  (∀ l, shuffle l ≡ₚ l) →
  feux_coherents g
    (initialiser_feux_repartis_sur_routes shuffle temps phase
       taille_x taille_y g).
Proof.
intros Hperm. unfold initialiser_feux_repartis_sur_routes.
set (candidats := intersections_candidates taille_x taille_y g).
case_bool_decide as Hvide.
{ split; [constructor|intros f Hf; by apply elem_of_nil in Hf..]. }
destruct (placer_feux_inv (Z.max 1 (taille_x / 15))
            (Z.max 1 (taille_y / 8)) g candidats temps phase 0
            (shuffle candidats)
            {| feux_places := []; positions_occupees := ∅;
               feux_par_ligne := ∅; feux_par_colonne := ∅ |})
  as [_ H2 _ _ _ _ H7].
- intros p Hp. by rewrite (Hperm candidats) in Hp.
- split; simpl.
  + intros p. rewrite elem_of_empty. split; [done|].
    intros Hp. by apply elem_of_nil in Hp.
  + constructor.
  + done.
  + done.
  + intros y. unfold feux_sur_ligne. simpl. lia.
  + intros x. unfold feux_sur_colonne. simpl. lia.
  + intros f Hf. by apply elem_of_nil in Hf.
- split; [done| |].
  + intros f Hf. destruct (H7 f Hf) as (Hc & _ & _).
    apply intersections_candidates_elem in Hc as [_ Hr].
    by apply bool_decide_eq_true in Hr.
  + intros f Hf. by destruct (H7 f Hf) as (_ & _ & ?).
Qed.

Lemma monde_initial_inv ini taille_x taille_y :
  0 ≤ taille_x → 0 < taille_y →
  (∀ l, Simulation.melange_feux ini l ≡ₚ l) →
  monde_coherent taille_x taille_y
    (creer_directions_routes taille_x taille_y).1
    (creer_directions_routes taille_x taille_y).2
    (Simulation.monde_initial ini taille_x taille_y).
Proof.
intros Hx Hy Hperm.
destruct (reseau_initial_inv taille_x taille_y Hx Hy)
  as (G1 & G2 & G3 & G4).
unfold Simulation.monde_initial.
split; cbn [Simulation.grille Simulation.voitures Simulation.feux
            Simulation.passages_pietons Simulation.pietons_actifs
            Simulation.source Simulation.prochain_id_pieton].
- done.
- done.
- intros p Hp. rewrite (G4 p Hp). destruct (_ || _); auto.
- by apply initialiser_feux_coherents.
- unfold generer_voitures_initiales.
  apply (boucle_generation_initiale_inv _ _ _ _ _ _ _ _ _ _ _
           (λ _, True)); [done| |simpl; lia|constructor].
  split; simpl.
  + constructor.
  + intros v Hv. by apply elem_of_nil in Hv.
  + constructor.
  + constructor.
- unfold generer_voitures_initiales.
  apply (boucle_generation_initiale_inv _ _ _ _ _ _ _ _ _ _ _
           (λ _, True)); [done| |simpl; lia|constructor].
  split; simpl.
  + constructor.
  + intros v Hv. by apply elem_of_nil in Hv.
  + constructor.
  + constructor.
- split; simpl; try constructor; intros p Hp; by apply elem_of_nil in Hp.
Qed.

(** X24 — The invariant of the simulation. Take a state in which the grid
    is rectangular with the dimensions of the simulation and follows the
    initial network (off the network every cell is non-road, on it a cell is
    road or obstacle), the lights stand on distinct road cells in valid
    phases, the cars carry distinct identifiers below
    [prochain_id_voiture], no two cars in route share a cell, every stored
    path is coherent, there are at most [NOMBRE_VOITURES_CIBLE] cars, and
    the pedestrians are coherent. Then, whatever the clicks, the clock and
    the random draws, the state after any number of iterations of the main
    loop is such a state again. *)
Theorem simulation_coherente
    (taille_x taille_y : Z)
    (lignes_directions colonnes_directions : gmap Z string)
    (entrees : list Simulation.Entrees) (m : Simulation.Monde) :
  monde_coherent taille_x taille_y lignes_directions colonnes_directions m →
  Forall (λ inp, ∀ l, Simulation.melange inp l ≡ₚ l) entrees →
  monde_coherent taille_x taille_y lignes_directions colonnes_directions
    (foldl (λ m inp,
              Simulation.iteration taille_x taille_y
                lignes_directions colonnes_directions inp m)
           m entrees).
Proof.
intros Hm Hperm. revert m Hm.
induction Hperm as [|inp entrees Hinp _ IH]; intros m Hm; [done|].
simpl. apply IH. by apply iteration_coherente.
Qed.

Lemma simulation_coherente_witness :
  let ini :=
    {| Simulation.melange_feux := λ l, l;
       Simulation.temps_initial := λ _, 100%float;
       Simulation.phase_initiale := λ _, 12%float;
       Simulation.tirage_passages := λ _, (1, 0);
       Simulation.tirage_voitures :=
         λ k, match k with O => (0, 0) | _ => (3, 3) end;
       Simulation.horloge_initiale := λ _, 100%float |} in
  let inp :=
    {| Simulation.dt := 1%float;
       Simulation.clics := [Simulation.Build_Clic 1 3 1];
       Simulation.action := "add";
       Simulation.choix_obstacle := 0;
       Simulation.temps_feux := 101%float;
       Simulation.alea_pieton := 0%float;
       Simulation.choix_pieton := 0;
       Simulation.temps_voitures := 101%float;
       Simulation.melange := λ l, l;
       Simulation.tirage := λ _, (0, 3);
       Simulation.horloge := λ _, 101%float |} in
  monde_coherent 4 4
    (creer_directions_routes 4 4).1 (creer_directions_routes 4 4).2
    (Simulation.monde_initial ini 4 4)
  ∧ Forall (λ inp, ∀ l, Simulation.melange inp l ≡ₚ l) [inp]
  ∧ monde_coherent 4 4
      (creer_directions_routes 4 4).1 (creer_directions_routes 4 4).2
      (foldl (λ m inp,
                Simulation.iteration 4 4
                  (creer_directions_routes 4 4).1
                  (creer_directions_routes 4 4).2 inp m)
             (Simulation.monde_initial ini 4 4) [inp]).
Proof.
intros ini inp.
assert (H1 : monde_coherent 4 4
               (creer_directions_routes 4 4).1
               (creer_directions_routes 4 4).2
               (Simulation.monde_initial ini 4 4)).
{ apply monde_initial_inv; [lia|lia|done]. }
assert (H2 : Forall (λ inp, ∀ l, Simulation.melange inp l ≡ₚ l) [inp]).
{ constructor; [done|constructor]. }
split; [exact H1|]. split; [exact H2|].
exact (simulation_coherente 4 4 _ _ [inp] _ H1 H2).
Defined.

(** X25 — The state the script starts from. For a grid with at least one
    row, and a [random.shuffle] that permutes, the state built before the
    main loop (network, directions, lights, crossings, cars) satisfies the
    invariant of the simulation; moreover it has no pedestrian and no
    obstacle, and every car has not arrived and stands on a road cell that
    carries no light. *)
Theorem monde_initial_coherent
    (ini : Simulation.EntreesInitiales) (taille_x taille_y : Z) :
  0 ≤ taille_x → 0 < taille_y →
  (∀ l, Simulation.melange_feux ini l ≡ₚ l) →
  monde_coherent taille_x taille_y
    (creer_directions_routes taille_x taille_y).1
    (creer_directions_routes taille_x taille_y).2
    (Simulation.monde_initial ini taille_x taille_y)
  ∧ Simulation.pietons_actifs (Simulation.monde_initial ini taille_x taille_y)
    = []
  ∧ (∀ p, est_obstacle
            (Simulation.grille
               (Simulation.monde_initial ini taille_x taille_y)) p = false)
  ∧ Forall (λ v, Voiture.en_route v = true
                 ∧ est_route
                     (Simulation.grille
                        (Simulation.monde_initial ini taille_x taille_y))
                     (Voiture.position v) = true
                 ∧ Voiture.position v
                   ∉ positions_feux
                       (Simulation.feux
                          (Simulation.monde_initial ini taille_x taille_y)))
      (Simulation.voitures (Simulation.monde_initial ini taille_x taille_y)).
Proof.
intros Hx Hy Hperm.
split; [by apply monde_initial_inv|]. split; [done|]. split.
- intros p. unfold Simulation.monde_initial. cbn [Simulation.grille].
  destruct (reseau_initial_inv taille_x taille_y Hx Hy)
    as (G1 & G2 & G3 & G4).
  unfold est_obstacle.
  destruct (case_grille _ p) as [s|] eqn:Hs; [|done].
  pose proof (case_grille_dans_limites _ _ _ G1 Hs) as Hl.
  rewrite G2, G3 in Hl.
  rewrite (G4 p Hl) in Hs. injection Hs as <-.
  apply bool_decide_eq_false. intros Hin.
  destruct (_ || _);
    by apply elem_of_cons in Hin as [|Hin%list_elem_of_singleton].
- unfold Simulation.monde_initial.
  cbn [Simulation.grille Simulation.voitures Simulation.feux].
  unfold generer_voitures_initiales.
  apply (boucle_generation_initiale_inv _ _ _ _ _ _ _ _ _ _ _
           (λ v, Voiture.en_route v = true ∧ _ ∧ _));
    [|split; simpl|simpl; lia|constructor].
  + intros voitures v [(Ht & _) (_ & Hr & _ & Hf & _) _ _].
    unfold Voiture.en_route. by rewrite Ht.
  + constructor.
  + intros v Hv. by apply elem_of_nil in Hv.
  + constructor.
  + constructor.
Qed.

Lemma monde_initial_coherent_witness :
  let ini :=
    {| Simulation.melange_feux := λ l, l;
       Simulation.temps_initial := λ _, 100%float;
       Simulation.phase_initiale := λ _, 12%float;
       Simulation.tirage_passages := λ _, (1, 0);
       Simulation.tirage_voitures :=
         λ k, match k with O => (0, 0) | _ => (3, 0) end;
       Simulation.horloge_initiale := λ _, 100%float |} in
  0 ≤ 4 ∧ 0 < 4
  ∧ (∀ l, Simulation.melange_feux ini l ≡ₚ l)
  ∧ monde_coherent 4 4
      (creer_directions_routes 4 4).1 (creer_directions_routes 4 4).2
      (Simulation.monde_initial ini 4 4).
Proof.
intros ini.
assert (H : ∀ l, Simulation.melange_feux ini l ≡ₚ l) by done.
split; [lia|]. split; [lia|]. split; [exact H|].
exact (proj1 (monde_initial_coherent ini 4 4 ltac:(lia) ltac:(lia) H)).
Defined.
(** ** États atteints : chemins sur la route, arrivées hors des passages *)

(** *** Chemins rendus par le planificateur *)

Lemma trouver_chemin_sur_route g dl dc u w a l :
  trouver_chemin g u w dl dc = Chemin (a :: l) →
  a = u ∧ NoDup (u :: l) ∧ ∀ c, c ∈ l → case_grille g c = Some ROUTE.
Proof.
intros Hp.
pose proof (trouver_chemin_correct g dl dc u w) as H. rewrite Hp in H.
destruct H as [Hit Hmin].
pose proof (itineraire_tete _ _ _ _ _ _ Hit) as Ht. injection Ht as ->.
split; [done|]. split.
- destruct (decide (NoDup (u :: l))) as [|Hn]; [done|].
  destruct (itineraire_raccourci _ _ _ _ _ _ Hit Hn) as (l' & Hl' & Hlen).
  specialize (Hmin l' Hl'). lia.
- intros c Hc.
  assert (Hin : c ∈ u :: l) by (by apply elem_of_cons; right).
  by destruct (itineraire_praticable _ _ _ _ _ _ _ Hit Hin).
Qed.

Lemma plus_court_sur_route g dl dc u w l :
  plus_court_itineraire g dl dc u w (u :: l) →
  NoDup (u :: l) ∧ ∀ c, c ∈ l → case_grille g c = Some ROUTE.
Proof.
intros [Hit Hmin]. split.
- destruct (decide (NoDup (u :: l))) as [|Hn]; [done|].
  destruct (itineraire_raccourci _ _ _ _ _ _ Hit Hn) as (l' & Hl' & Hlen).
  pose proof (itineraire_tete _ _ _ _ _ _ Hl') as Ht.
  specialize (Hmin l' Hl'). destruct l'; [done|]. simpl in *. lia.
- intros c Hc.
  assert (Hin : c ∈ u :: l) by (by apply elem_of_cons; right).
  by destruct (itineraire_praticable _ _ _ _ _ _ _ Hit Hin).
Qed.

(** *** Le tick des voitures *)

Lemma recalculer_sur_route t g dl dc v :
  chemin_sur_route g (recalculer t g dl dc v).
Proof.
unfold recalculer, chemin_sur_route.
destruct (trouver_chemin g (Voiture.position v) (Voiture.destination v)
            dl dc) as [[|a [|p reste]]| |] eqn:Hp.
1, 2, 4, 5:
  destruct (Voiture.bloquee_depuis v); simpl; intros _;
  (split; [apply NoDup_singleton|by intros c Hc%elem_of_nil]).
simpl. intros _.
by destruct (trouver_chemin_sur_route _ _ _ _ _ _ _ Hp) as (_ & ? & ?).
Qed.

Lemma marquer_arrivee_sur_route t g v :
  chemin_sur_route g v → chemin_sur_route g (marquer_arrivee t v).
Proof.
unfold marquer_arrivee. destruct (_ && _); [|done].
intros _ He. done.
Qed.

Lemma phase_arrivees_sur_route t g voitures :
  Forall (chemin_sur_route g) voitures →
  Forall (chemin_sur_route g) (phase_arrivees t voitures).
Proof.
intros H. apply Forall_forall. intros v' Hv'.
apply phase_arrivees_origine in Hv' as (v & Hv & ->).
apply marquer_arrivee_sur_route. by eapply (proj1 (Forall_forall _ _) H).
Qed.

Lemma phase_recalcul_sur_route t g dl dc en_route voitures :
  Forall (chemin_sur_route g) voitures →
  Forall (chemin_sur_route g) (phase_recalcul t g dl dc en_route voitures).
Proof.
unfold phase_recalcul. generalize (selectionner (a_besoin_de_chemin t)
                                     voitures en_route).
intros l. revert voitures. induction l as [|i l IH]; intros vs Hvs; [done|].
simpl. apply IH. destruct (vs !! i) as [v|]; [|done].
apply Forall_insert; [done|]. apply recalculer_sur_route.
Qed.

(** A move pops the head of a path that stays on the road. *)
Lemma tick_sur_route shuffle t voitures g feux dl dc taille_x taille_y
    pietons :
  (∀ l, shuffle l ≡ₚ l) →
  NoDup (Voiture.id <$> voitures) →
  Forall (chemin_sur_route g) voitures →
  Forall (chemin_sur_route g)
    (mettre_a_jour_voitures shuffle t voitures g feux dl dc
       taille_x taille_y pietons).
Proof.
intros Hperm Hid Hs.
pose proof (phase_recalcul_sur_route t g dl dc
              (voitures_en_route (phase_arrivees t voitures)) _
              (phase_arrivees_sur_route t g _ Hs)) as Hs1.
pose proof (tick_longueur shuffle t voitures g feux dl dc
              taille_x taille_y pietons) as Hlen.
apply Forall_lookup. intros i v' Hv'.
destruct (lookup_lt_is_Some_2
            (phase_recalcul t g dl dc
               (voitures_en_route (phase_arrivees t voitures))
               (phase_arrivees t voitures)) i) as [v1 Hv1].
{ rewrite Hlen. by eapply lookup_lt_Some. }
pose proof (proj1 (Forall_lookup _ _) Hs1 i v1 Hv1) as Hsv1.
destruct (tick_voiture shuffle t voitures g feux dl dc taille_x taille_y
            pietons Hperm Hid i v1 Hv1)
  as [[_ H]|(p & reste & Ha & Hc & He & _ & H)];
  rewrite H in Hv'; injection Hv' as <-; [done|].
destruct (appliquer_approuve t _ (Voiture.set_bloquee_depuis None v1)
            p reste Ha Hc) as (_ & G2 & _ & G4 & _).
destruct (Hsv1 He) as [Hnd Hr]. rewrite Hc in Hnd, Hr.
intros _. rewrite G2, G4. split.
- by apply NoDup_cons in Hnd as [_ ?].
- intros c Hin. apply Hr. by apply elem_of_cons; right.
Qed.

(** A car that ends the tick arrived, or on its destination, either stood
    there already or drove onto a cell no pedestrian is crossing. *)
Lemma tick_hors_passages shuffle t voitures g feux dl dc taille_x taille_y
    pietons :
  (∀ p, p ∈ pietons → en_traversee p = true) →
  Forall (hors_passages pietons) voitures →
  Forall (hors_passages pietons)
    (mettre_a_jour_voitures shuffle t voitures g feux dl dc
       taille_x taille_y pietons).
Proof.
intros Htr Hh.
pose proof (mettre_a_jour_voitures_suivi shuffle t voitures g feux dl dc
              taille_x taille_y pietons) as HF.
apply Forall_lookup. intros i v' Hv'.
destruct (Forall2_lookup_r _ _ _ _ _ HF Hv')
  as (v0 & Hv0 & _ & Hd & Ht & _ & Hp).
apply list_elem_of_lookup_2, phase_arrivees_origine in Hv0 as (v & Hv & ->).
pose proof (proj1 (Forall_forall _ _) Hh v Hv) as Hhv.
destruct (marquer_arrivee_champs t v) as (_ & Mp & Md & _).
intros Hant p Hin Hpos.
destruct Hp as [Hp|Hp].
- rewrite Hp, Mp in Hpos. revert Hpos. apply Hhv; [|done].
  destruct Hant as [He|He].
  + unfold Voiture.en_route in He. rewrite Ht in He.
    unfold marquer_arrivee in *.
    destruct (Voiture.en_route v) eqn:Ev; [|by left]. simpl in *.
    case_bool_decide; [by right|].
    unfold Voiture.en_route in Ev. by rewrite Ev in He.
  + right. by rewrite <- Mp, <- Md, <- Hp, <- Hd.
- apply (resolution_du_tick_approved shuffle t voitures g feux dl dc
           pietons) in Hp as [_ Hp].
  apply est_deplacement_valide_spec in Hp as [_ Hp]. apply Hp.
  right. exists p. split; [done|]. split; [done|].
  apply Htr in Hin. by unfold en_traversee in Hin.
Qed.

(** *** Piétons *)

(** A pedestrian appears on a crossing only when no car at all stands on
    it. *)
Lemma pietons_hors_passages alea choix prochain passages pietons voitures :
  Forall (hors_passages pietons) voitures →
  Forall (hors_passages
            (mettre_a_jour_pietons alea choix prochain passages pietons
               voitures).1) voitures.
Proof.
intros Hh. apply Forall_forall. intros v Hv Hant p' Hp' Hpos.
pose proof (proj1 (Forall_forall _ _) Hh v Hv Hant) as Hhv.
apply mettre_a_jour_pietons_origine in Hp' as [_ [(p & Hp & Heq)|Hnv]].
- apply (Hhv p Hp). by rewrite <- Heq.
- by apply (Hnv v Hv).
Qed.

(** *** Modifications de la grille *)

(** The four edits: nothing, an obstacle written on a road cell with the
    hook called for that cell, or an obstacle turned back into road with the
    cars left alone. *)
Lemma appliquer_edition_effet taille_x taille_y feux ed e :
  appliquer_edition taille_x taille_y feux ed e = e
  ∨ (∃ x y s,
       case_grille e.1 (x, y) = Some ROUTE
       ∧ (s = OBSTACLE_MANUEL ∨ s = OBSTACLE_AUTO_SYM)
       ∧ appliquer_edition taille_x taille_y feux ed e
         = (ecrire_case e.1 (x, y) s, forcer_recalcul_si_affecte x y e.2))
  ∨ (∃ c,
       (case_grille e.1 c = Some OBSTACLE_MANUEL
        ∨ case_grille e.1 c = Some OBSTACLE_AUTO_SYM)
       ∧ appliquer_edition taille_x taille_y feux ed e
         = (ecrire_case e.1 c ROUTE, e.2)).
Proof.
destruct e as [g vs]. destruct ed as [cx cy|cx cy|choix|choix]; simpl.
- unfold clic_gauche. simpl.
  destruct (dans_limites _ _ _) eqn:Hlim; [|by left].
  destruct (ajouter_obstacle_manuel g cx cy feux) as [[] g'] eqn:Ha; simpl.
  + destruct (ajouter_obstacle_succes g cx cy feux g' (or_introl Ha))
      as (Hc & Hf & s & Hs & ->).
    right; left. exists cx, cy, s. eauto.
  + left. pose proof (ajouter_obstacle_echec g cx cy feux) as H.
    rewrite Ha in H. by injection (H eq_refl) as ->.
- unfold clic_droit. simpl.
  destruct (dans_limites _ _ _) eqn:Hlim; [|by left].
  case_bool_decide as Hc; [|by left].
  right; right. exists (cx, cy). eauto.
- unfold obstacle_auto_ajout. simpl.
  destruct (possible_add_positions _ _ _ _ !! choix) as [[ox oy]|] eqn:Hp;
    [|by left].
  destruct (ajouter_obstacle_auto g ox oy feux) as [[] g'] eqn:Ha; simpl.
  + destruct (ajouter_obstacle_succes g ox oy feux g' (or_intror Ha))
      as (Hc & Hf & s & Hs & ->).
    right; left. exists ox, oy, s. eauto.
  + left. revert Ha. unfold ajouter_obstacle_auto.
    destruct (case_grille g (ox, oy)); [|congruence].
    destruct (_ && _); congruence.
- unfold obstacle_auto_retrait. simpl.
  destruct (current_obstacle_auto_positions _ _ _ !! choix) as [c|] eqn:Hp;
    [|by left].
  apply list_elem_of_lookup_2, list_elem_of_filter in Hp as [Hc Hlim].
  right; right. exists c. eauto.
Qed.

(** The hook keeps the paths on the road when an obstacle is written. *)
Lemma forcer_recalcul_sur_route g x y s voitures :
  case_grille g (x, y) = Some ROUTE →
  Forall (chemin_sur_route g) voitures →
  Forall (chemin_sur_route (ecrire_case g (x, y) s))
    (forcer_recalcul_si_affecte x y voitures).
Proof.
intros Hc Hs. unfold forcer_recalcul_si_affecte.
apply Forall_fmap, Forall_forall. intros v Hv. simpl.
pose proof (proj1 (Forall_forall _ _) Hs v Hv) as Hsv.
destruct (Voiture.en_route v) eqn:He; simpl; [|intros He'; congruence].
destruct (Hsv He) as [Hnd Hr].
assert (Hgarde : (x, y) ∉ Voiture.chemin v →
                 chemin_sur_route (ecrire_case g (x, y) s) v).
{ intros Hnin _. split; [done|]. intros c Hin.
  rewrite (ecrire_case_ailleurs g (x, y) ROUTE s c Hc); [by apply Hr|].
  intros ->. done. }
case_bool_decide as Hpos; simpl.
- case_bool_decide as Hin; simpl.
  + intros _. simpl. split; [apply NoDup_singleton|].
    by intros c Hc'%elem_of_nil.
  + case_bool_decide; [|by apply Hgarde].
    intros _. simpl. split; [apply NoDup_singleton|].
    by intros c Hc'%elem_of_nil.
- apply Hgarde. rewrite <- Hpos.
  by apply NoDup_cons in Hnd as [? _].
Qed.

Lemma forcer_recalcul_hors_passages pietons x y voitures :
  Forall (hors_passages pietons) voitures →
  Forall (hors_passages pietons) (forcer_recalcul_si_affecte x y voitures).
Proof.
intros Hh. apply Forall_lookup. intros i v' Hv'.
destruct (Forall2_lookup_r _ _ _ _ _ (forcer_recalcul_memes x y voitures)
            Hv') as (v & Hv & Hm & _).
pose proof (proj1 (Forall_lookup _ _) Hh i v Hv) as Hhv.
pose proof (meme_voiture_active _ _ Hm) as He.
destruct Hm as (_ & Hp & Hd & _).
unfold hors_passages. rewrite He, Hp, Hd. exact Hhv.
Qed.

Lemma edition_sure taille_x taille_y feux pietons ed e :
  Forall (voiture_sure e.1 pietons) e.2 →
  Forall (voiture_sure (appliquer_edition taille_x taille_y feux ed e).1
            pietons)
    (appliquer_edition taille_x taille_y feux ed e).2.
Proof.
intros Hs.
assert (H1 : Forall (chemin_sur_route e.1) e.2)
  by (eapply Forall_impl; [exact Hs|by intros v [? _]]).
assert (H2 : Forall (hors_passages pietons) e.2)
  by (eapply Forall_impl; [exact Hs|by intros v [_ ?]]).
destruct (appliquer_edition_effet taille_x taille_y feux ed e)
  as [->|[(x & y & s & Hc & _ & ->)|(c & Hc & ->)]]; [done| |]; simpl.
- apply Forall_and. split.
  + by apply forcer_recalcul_sur_route.
  + by apply forcer_recalcul_hors_passages.
- eapply Forall_impl; [exact Hs|]. intros v [Hv1 Hv2]. split; [|done].
  intros He. destruct (Hv1 He) as [Hnd Hr]. split; [done|].
  intros q Hq. specialize (Hr q Hq).
  assert (Hc0 : ∃ s0, case_grille e.1 c = Some s0)
    by (destruct Hc; eauto).
  destruct Hc0 as [s0 Hs0].
  destruct (decide (q = c)) as [->|Hne].
  + by rewrite (ecrire_case_ici _ _ _ ROUTE Hs0).
  + by rewrite (ecrire_case_ailleurs _ _ s0 ROUTE q Hs0 Hne).
Qed.

Lemma etat_edite_coherent taille_x taille_y dl dc feux p n eds e :
  etat_coherent taille_x taille_y dl dc feux p n e →
  etat_coherent taille_x taille_y dl dc feux p n
    (etat_edite taille_x taille_y feux eds e).
Proof.
revert e. induction eds as [|ed eds IH]; intros e He; [done|].
simpl. by apply IH, edition_coherente.
Qed.

Lemma etat_edite_sur taille_x taille_y feux pietons eds e :
  Forall (voiture_sure e.1 pietons) e.2 →
  Forall (voiture_sure (etat_edite taille_x taille_y feux eds e).1 pietons)
    (etat_edite taille_x taille_y feux eds e).2.
Proof.
revert e. induction eds as [|ed eds IH]; intros e He; [done|].
simpl. by apply IH, edition_sure.
Qed.

(** The edits of one iteration are edits of the list. *)
Lemma traiter_clic_edition taille_x taille_y feux e c :
  Simulation.traiter_clic taille_x taille_y feux e c = e
  ∨ ∃ ed, Simulation.traiter_clic taille_x taille_y feux e c
          = appliquer_edition taille_x taille_y feux ed e.
Proof.
unfold Simulation.traiter_clic. destruct (Simulation.bouton c =? 1).
- right. by exists (ClicGauche (Simulation.cx c) (Simulation.cy c)).
- destruct (Simulation.bouton c =? 3); [|by left].
  right. by exists (ClicDroit (Simulation.cx c) (Simulation.cy c)).
Qed.

Lemma etat_edite_app taille_x taille_y feux eds eds' e :
  etat_edite taille_x taille_y feux (eds ++ eds') e
  = etat_edite taille_x taille_y feux eds'
      (etat_edite taille_x taille_y feux eds e).
Proof. unfold etat_edite. by rewrite foldl_app. Qed.

Lemma clics_editions taille_x taille_y feux l e :
  ∃ eds, foldl (Simulation.traiter_clic taille_x taille_y feux) e l
         = etat_edite taille_x taille_y feux eds e.
Proof.
revert e. induction l as [|c l IH]; intros e; [by exists []|].
simpl. destruct (traiter_clic_edition taille_x taille_y feux e c)
  as [->|[ed ->]].
- apply IH.
- destruct (IH (appliquer_edition taille_x taille_y feux ed e)) as [eds ->].
  by exists (ed :: eds).
Qed.

(** The cars and the grid the updates of an iteration work on are those of
    the state it starts from, after a list of edits. *)
Lemma iteration_editions taille_x taille_y inp m :
  ∃ eds,
    (Simulation.obstacles_automatiques taille_x taille_y
       (Simulation.feux m) inp (Simulation.obstacle_automatique_timer m)
       (foldl (Simulation.traiter_clic taille_x taille_y
                 (Simulation.feux m))
              (Simulation.grille m, Simulation.voitures m)
              (Simulation.clics inp))).2
    = etat_edite taille_x taille_y (Simulation.feux m) eds
        (Simulation.grille m, Simulation.voitures m).
Proof.
destruct (clics_editions taille_x taille_y (Simulation.feux m)
            (Simulation.clics inp)
            (Simulation.grille m, Simulation.voitures m)) as [eds ->].
unfold Simulation.obstacles_automatiques.
destruct (_ <=? _)%float; [|by exists eds]. simpl.
case_bool_decide.
- exists (eds ++ [AutoAjout (Simulation.choix_obstacle inp)]).
  by rewrite etat_edite_app.
- case_bool_decide; [|by exists eds].
  exists (eds ++ [AutoRetrait (Simulation.choix_obstacle inp)]).
  by rewrite etat_edite_app.
Qed.

(** *** Voitures engendrées *)

Lemma voiture_neuve_sure taille_x taille_y feux g dl dc voitures pietons v :
  voiture_neuve taille_x taille_y feux g dl dc voitures v →
  voiture_sure g pietons v.
Proof.
intros [(Ht & _) _ (Hne & _) (_ & Hpc)]. split.
- intros _. by eapply plus_court_sur_route.
- intros [He|He]; [|congruence].
  unfold Voiture.en_route in He. by rewrite Ht in He.
Qed.

Lemma boucle_regeneration_forall (P : Voiture.t → Prop) restant tirage
    horloge s taille_x taille_y feux g dl dc voitures :
  (∀ voitures v,
     voiture_neuve taille_x taille_y feux g dl dc voitures v → P v) →
  Forall P voitures →
  Forall P
    (boucle_regeneration restant tirage horloge s taille_x taille_y feux g
       dl dc voitures).1.
Proof.
intros HP. revert s voitures.
induction restant as [|restant IH]; intros s voitures HF; [done|].
cbn [boucle_regeneration].
pose proof (generer_une_nouvelle_voiture_cas tirage horloge s
              taille_x taille_y feux g dl dc voitures) as Hc.
destruct (generer_une_nouvelle_voiture _ _ _ _ _ _ _ _ _ _) as [[v|] s'];
  [|done].
destruct Hc as (_ & _ & _ & _ & Hn).
apply IH. apply Forall_app. split; [done|].
constructor; [by eapply HP|constructor].
Qed.

(** *** Une itération *)

Lemma monde_etat_coherent taille_x taille_y dl dc m :
  monde_coherent taille_x taille_y dl dc m →
  etat_coherent taille_x taille_y dl dc (Simulation.feux m)
    (prochain_id_voiture (Simulation.source m))
    (length (Simulation.voitures m))
    (Simulation.grille m, Simulation.voitures m).
Proof. intros [H1 H2 H3 [F1 F2 F3] H5 H6 H7]. by split. Qed.

Lemma iteration_sure taille_x taille_y dl dc inp m :
  (∀ l, Simulation.melange inp l ≡ₚ l) →
  monde_coherent taille_x taille_y dl dc m →
  Forall (voiture_sure (Simulation.grille m) (Simulation.pietons_actifs m))
    (Simulation.voitures m) →
  Forall (voiture_sure
            (Simulation.grille
               (Simulation.iteration taille_x taille_y dl dc inp m))
            (Simulation.pietons_actifs
               (Simulation.iteration taille_x taille_y dl dc inp m)))
    (Simulation.voitures
       (Simulation.iteration taille_x taille_y dl dc inp m)).
Proof.
intros Hperm Hm Hs.
destruct (iteration_editions taille_x taille_y inp m) as [eds Heds].
unfold Simulation.iteration. cbv zeta.
cbn [Simulation.grille Simulation.voitures Simulation.pietons_actifs].
rewrite Heds.
pose proof (etat_edite_coherent taille_x taille_y dl dc _ _ _ eds _
              (monde_etat_coherent _ _ _ _ _ Hm)) as He.
pose proof (etat_edite_sur taille_x taille_y (Simulation.feux m)
              (Simulation.pietons_actifs m) eds
              (Simulation.grille m, Simulation.voitures m) Hs) as Hse.
revert He Hse.
generalize (etat_edite taille_x taille_y (Simulation.feux m) eds
              (Simulation.grille m, Simulation.voitures m)).
intros e [_ _ _ _ [Hid _ _ _] _] Hse.
set (pp := mettre_a_jour_pietons (Simulation.alea_pieton inp)
             (Simulation.choix_pieton inp) (Simulation.prochain_id_pieton m)
             (Simulation.passages_pietons m) (Simulation.pietons_actifs m)
             e.2).
assert (H1 : Forall (chemin_sur_route e.1) e.2)
  by (eapply Forall_impl; [exact Hse|by intros v [? _]]).
assert (H2 : Forall (hors_passages (Simulation.pietons_actifs m)) e.2)
  by (eapply Forall_impl; [exact Hse|by intros v [_ ?]]).
assert (H3 : Forall (hors_passages pp.1) e.2)
  by (by apply pietons_hors_passages).
assert (Htr : ∀ p, p ∈ pp.1 → en_traversee p = true).
{ intros p Hp. by apply mettre_a_jour_pietons_origine in Hp as [? _]. }
unfold regenerer. apply boucle_regeneration_forall.
- intros vs v Hv. by eapply voiture_neuve_sure.
- apply Forall_and. split.
  + by apply tick_sur_route.
  + by apply tick_hors_passages.
Qed.

(** *** États atteints *)

Lemma monde_initial_sur ini taille_x taille_y :
  Forall (voiture_sure
            (Simulation.grille (Simulation.monde_initial ini taille_x taille_y))
            (Simulation.pietons_actifs
               (Simulation.monde_initial ini taille_x taille_y)))
    (Simulation.voitures (Simulation.monde_initial ini taille_x taille_y)).
Proof.
unfold Simulation.monde_initial.
cbn [Simulation.grille Simulation.voitures Simulation.pietons_actifs].
unfold generer_voitures_initiales.
apply (boucle_generation_initiale_inv _ _ _ _ _ _ _ _ _ _ _
         (voiture_sure _ [])); [|split; simpl|simpl; lia|constructor].
- intros vs v Hv. by eapply voiture_neuve_sure.
- constructor.
- intros v Hv. by apply elem_of_nil in Hv.
- constructor.
- constructor.
Qed.

Lemma iterations_sures taille_x taille_y dl dc entrees m :
  Forall (λ inp, ∀ l, Simulation.melange inp l ≡ₚ l) entrees →
  monde_coherent taille_x taille_y dl dc m →
  Forall (voiture_sure (Simulation.grille m) (Simulation.pietons_actifs m))
    (Simulation.voitures m) →
  monde_coherent taille_x taille_y dl dc
    (foldl (λ m inp, Simulation.iteration taille_x taille_y dl dc inp m)
           m entrees)
  ∧ Forall (voiture_sure
              (Simulation.grille
                 (foldl (λ m inp,
                           Simulation.iteration taille_x taille_y dl dc
                             inp m) m entrees))
              (Simulation.pietons_actifs
                 (foldl (λ m inp,
                           Simulation.iteration taille_x taille_y dl dc
                             inp m) m entrees)))
      (Simulation.voitures
         (foldl (λ m inp,
                   Simulation.iteration taille_x taille_y dl dc inp m)
                m entrees)).
Proof.
intros Hperm. revert m.
induction Hperm as [|inp entrees Hinp _ IH]; intros m Hm Hs; [done|].
simpl. apply IH; [by apply iteration_coherente|by apply iteration_sure].
Qed.

(** Every state the simulation reaches satisfies the invariant, has its
    paths on the road and its arrived cars off the crossings in use. *)
Lemma monde_atteint_inv ini taille_x taille_y entrees :
  0 ≤ taille_x → 0 < taille_y → entrees_admises ini entrees →
  monde_coherent taille_x taille_y
    (creer_directions_routes taille_x taille_y).1
    (creer_directions_routes taille_x taille_y).2
    (monde_atteint ini taille_x taille_y entrees)
  ∧ Forall (voiture_sure
              (Simulation.grille (monde_atteint ini taille_x taille_y entrees))
              (Simulation.pietons_actifs
                 (monde_atteint ini taille_x taille_y entrees)))
      (Simulation.voitures (monde_atteint ini taille_x taille_y entrees)).
Proof.
intros Hx Hy [Hini Hent]. unfold monde_atteint.
apply iterations_sures; [done|by apply monde_initial_inv|].
apply monde_initial_sur.
Qed.

(** The same for the states the edits of an iteration go through. *)
Lemma etat_atteint_inv ini taille_x taille_y entrees eds :
  0 ≤ taille_x → 0 < taille_y → entrees_admises ini entrees →
  etat_coherent taille_x taille_y
    (creer_directions_routes taille_x taille_y).1
    (creer_directions_routes taille_x taille_y).2
    (Simulation.feux (monde_atteint ini taille_x taille_y entrees))
    (prochain_id_voiture
       (Simulation.source (monde_atteint ini taille_x taille_y entrees)))
    (length
       (Simulation.voitures (monde_atteint ini taille_x taille_y entrees)))
    (etat_edite taille_x taille_y
       (Simulation.feux (monde_atteint ini taille_x taille_y entrees)) eds
       (Simulation.grille (monde_atteint ini taille_x taille_y entrees),
        Simulation.voitures (monde_atteint ini taille_x taille_y entrees)))
  ∧ Forall (voiture_sure
              (etat_edite taille_x taille_y
                 (Simulation.feux
                    (monde_atteint ini taille_x taille_y entrees)) eds
                 (Simulation.grille
                    (monde_atteint ini taille_x taille_y entrees),
                  Simulation.voitures
                    (monde_atteint ini taille_x taille_y entrees))).1
              (Simulation.pietons_actifs
                 (monde_atteint ini taille_x taille_y entrees)))
      (etat_edite taille_x taille_y
         (Simulation.feux (monde_atteint ini taille_x taille_y entrees)) eds
         (Simulation.grille (monde_atteint ini taille_x taille_y entrees),
          Simulation.voitures
            (monde_atteint ini taille_x taille_y entrees))).2.
Proof.
intros Hx Hy Hadm.
destruct (monde_atteint_inv ini taille_x taille_y entrees Hx Hy Hadm)
  as [Hm Hs].
split.
- by apply etat_edite_coherent, monde_etat_coherent.
- by apply etat_edite_sur.
Qed.
(** ** Énoncés sur les états atteints *)

(** *** Exclusion mutuelle *)

(** C2 — Mutual exclusion. When the cars carry pairwise distinct
    identifiers and no two cars that have not arrived share a cell as
    [mettre_a_jour_voitures] is called, no two cars that have not arrived
    share a cell when it returns. The reserved set holds the cells of the
    cars not yet arrived and every approved target; every approved target
    lies outside the cells the cars not yet arrived occupied when the
    resolution started, and no two approved moves share a target. The
    hypotheses hold wherever the main loop calls the function: in every
    state the simulation reaches, after any edits of the grid, the
    identifiers are distinct and no two cars that have not arrived share a
    cell. *)
Theorem exclusion_mutuelle_preservee
    (shuffle : list nat → list nat) (temps_actuel : float)
    (voitures : list Voiture.t) (g : Grille) (feux : list Feu.t)
    (directions_lignes colonnes_directions : gmap Z string)
    (taille_x taille_y : Z) (pietons : list Pieton.t) :
  NoDup (Voiture.id <$> voitures) →
  exclusion_mutuelle voitures →
  exclusion_mutuelle
    (mettre_a_jour_voitures shuffle temps_actuel voitures g feux
       directions_lignes colonnes_directions taille_x taille_y pietons)
  ∧ (∀ p,
       p ∈ positions_actives (phase_arrivees temps_actuel voitures)
       ∨ (∃ k, approved_moves
                 (resolution_du_tick shuffle temps_actuel voitures g feux
                    directions_lignes colonnes_directions pietons) !! k
               = Some p) →
       p ∈ projected_occupied_cells
             (resolution_du_tick shuffle temps_actuel voitures g feux
                directions_lignes colonnes_directions pietons))
  ∧ (∀ k p,
       approved_moves
         (resolution_du_tick shuffle temps_actuel voitures g feux
            directions_lignes colonnes_directions pietons) !! k = Some p →
       p ∉ positions_actives (phase_arrivees temps_actuel voitures))
  ∧ (∀ k k' p,
       approved_moves
         (resolution_du_tick shuffle temps_actuel voitures g feux
            directions_lignes colonnes_directions pietons) !! k = Some p →
       approved_moves
         (resolution_du_tick shuffle temps_actuel voitures g feux
            directions_lignes colonnes_directions pietons) !! k' = Some p →
       k = k')
  ∧ (∀ ini tx ty entrees eds,
       0 ≤ tx → 0 < ty → entrees_admises ini entrees →
       let m := monde_atteint ini tx ty entrees in
       let e :=
         etat_edite tx ty (Simulation.feux m) eds
           (Simulation.grille m, Simulation.voitures m) in
       NoDup (Voiture.id <$> e.2) ∧ exclusion_mutuelle e.2).
Proof.
intros Hid Hex.
split; [|split; [apply resolution_du_tick_projected|split; [|split]]].
- unfold exclusion_mutuelle in *.
  eapply (exclusion_apres_application
            (approved_moves
               (resolution_du_tick shuffle temps_actuel voitures g feux
                  directions_lignes colonnes_directions pietons))
            (positions_actives (phase_arrivees temps_actuel voitures))).
  + eapply Forall2_impl;
      [apply (mettre_a_jour_voitures_suivi shuffle temps_actuel voitures g
                feux directions_lignes colonnes_directions
                taille_x taille_y pietons)|].
    intros v v' (H1 & _ & H3 & _ & H5). split; [done|]. by split.
  + intros i p Hi. by eapply resolution_du_tick_approved.
  + apply resolution_du_tick_injectif.
  + done.
  + eapply sublist_NoDup; [exact Hid|]. apply phase_arrivees_ids.
  + eapply sublist_NoDup; [exact Hex|]. apply phase_arrivees_positions.
- intros k p Hk. by eapply resolution_du_tick_approved.
- apply resolution_du_tick_injectif.
- intros ini tx ty entrees eds Hx Hy Hadm. cbv zeta.
  destruct (etat_atteint_inv ini tx ty entrees eds Hx Hy Hadm)
    as [[_ _ _ _ [H5 _ H7 _] _] _].
  done.
Qed.

Lemma exclusion_mutuelle_preservee_witness :
  NoDup (Voiture.id <$> [Scenario.voiture_ouest; Scenario.voiture_centre])
  ∧ exclusion_mutuelle [Scenario.voiture_ouest; Scenario.voiture_centre]
  ∧ exclusion_mutuelle
      (mettre_a_jour_voitures (λ l, l) 10%float
         [Scenario.voiture_ouest; Scenario.voiture_centre]
         Exemple.grille_croix [] Exemple.lignes_croix Exemple.colonnes_croix
         5 5 [])
  ∧ Voiture.position
      <$> mettre_a_jour_voitures (λ l, l) 10%float
            [Scenario.voiture_ouest; Scenario.voiture_centre]
            Exemple.grille_croix [] Exemple.lignes_croix
            Exemple.colonnes_croix 5 5 []
    = [(0, 2); (2, 2)].
Proof.
assert (H1 : NoDup (Voiture.id
                      <$> [Scenario.voiture_ouest; Scenario.voiture_centre]))
  by compute_done.
assert (H2 : exclusion_mutuelle
               [Scenario.voiture_ouest; Scenario.voiture_centre])
  by compute_done.
split; [exact H1|]. split; [exact H2|].
split; [|vm_compute; reflexivity].
exact (proj1 (exclusion_mutuelle_preservee (λ l, l) 10%float
                [Scenario.voiture_ouest; Scenario.voiture_centre]
                Exemple.grille_croix [] Exemple.lignes_croix
                Exemple.colonnes_croix 5 5 [] H1 H2)).
Defined.

(** *** Replanification forcée *)

(** On a cell that is not a road cell, no car in route has its path or a
    reachable destination: the cars the hook would reset have an empty path
    already. *)
Lemma replanification_acquise dl dc g c voitures :
  case_grille g c ≠ Some ROUTE →
  Forall (chemin_sur_route g) voitures →
  Forall (chemin_coherent dl dc) voitures →
  replanification_forcee c voitures voitures.
Proof.
intros Hc Hs Hcoh. apply Forall_Forall2_diag, Forall_forall.
intros v Hv He _ Haff.
destruct (proj1 (Forall_forall _ _) Hs v Hv He) as [_ Hr].
destruct (proj1 (Forall_forall _ _) Hcoh v Hv) as [_ Hl].
split; [|done].
destruct Haff as [Hin|Hd]; [by destruct (Hc (Hr c Hin))|].
destruct Hl as [Hl|Hl]; [done|].
rewrite Hd in Hl. apply last_Some_elem_of in Hl. by destruct (Hc (Hr c Hl)).
Qed.

(** C5 — Forced-replan hook. In every state the simulation reaches, after
    any edits of the grid: when an obstacle, manual or automatic, is placed
    on a cell or removed from it, every car that has not arrived, does not
    stand on that cell and has the cell on its stored path or as its
    destination has an empty path afterwards, and its [bloquee_depuis] is
    left as it was. On a placement the hook empties the path; on a removal
    no hook is called and the path of such a car is empty already, since no
    stored path goes through an obstacle. *)
Theorem obstacle_force_la_replanification
    (ini : Simulation.EntreesInitiales) (taille_x taille_y : Z)
    (entrees : list Simulation.Entrees) (eds : list Edition) :
  0 ≤ taille_x → 0 < taille_y → entrees_admises ini entrees →
  let m := monde_atteint ini taille_x taille_y entrees in
  let feux := Simulation.feux m in
  let e :=
    etat_edite taille_x taille_y feux eds
      (Simulation.grille m, Simulation.voitures m) in
  (∀ cx cy,
     dans_limites taille_x taille_y (cx, cy) = true →
     (ajouter_obstacle_manuel e.1 cx cy feux).1 = true →
     replanification_forcee (cx, cy) e.2
       (clic_gauche taille_x taille_y feux cx cy e).2)
  ∧ (∀ choix ox oy,
       possible_add_positions taille_x taille_y feux e.1 !! choix
       = Some (ox, oy) →
       (ajouter_obstacle_auto e.1 ox oy feux).1 = true →
       replanification_forcee (ox, oy) e.2
         (obstacle_auto_ajout taille_x taille_y feux choix e).2)
  ∧ (∀ cx cy,
       dans_limites taille_x taille_y (cx, cy) = true →
       case_grille e.1 (cx, cy) = Some OBSTACLE_MANUEL →
       case_grille (clic_droit taille_x taille_y cx cy e).1 (cx, cy)
       = Some ROUTE
       ∧ replanification_forcee (cx, cy) e.2
           (clic_droit taille_x taille_y cx cy e).2)
  ∧ (∀ choix c,
       current_obstacle_auto_positions taille_x taille_y e.1 !! choix
       = Some c →
       case_grille e.1 c = Some OBSTACLE_AUTO_SYM
       ∧ case_grille (obstacle_auto_retrait taille_x taille_y choix e).1 c
         = Some ROUTE
       ∧ replanification_forcee c e.2
           (obstacle_auto_retrait taille_x taille_y choix e).2).
Proof.
intros Hx Hy Hadm. cbv zeta.
destruct (etat_atteint_inv ini taille_x taille_y entrees eds Hx Hy Hadm)
  as [[_ _ _ _ [_ _ _ Hcoh] _] Hs].
assert (Hsr : Forall (chemin_sur_route
                        (etat_edite taille_x taille_y
                           (Simulation.feux
                              (monde_atteint ini taille_x taille_y entrees))
                           eds
                           (Simulation.grille
                              (monde_atteint ini taille_x taille_y entrees),
                            Simulation.voitures
                              (monde_atteint ini taille_x taille_y
                                 entrees))).1)
                (etat_edite taille_x taille_y
                   (Simulation.feux
                      (monde_atteint ini taille_x taille_y entrees))
                   eds
                   (Simulation.grille
                      (monde_atteint ini taille_x taille_y entrees),
                    Simulation.voitures
                      (monde_atteint ini taille_x taille_y entrees))).2)
  by (eapply Forall_impl; [exact Hs|by intros v [? _]]).
clear Hs. revert Hcoh Hsr.
generalize (etat_edite taille_x taille_y
              (Simulation.feux (monde_atteint ini taille_x taille_y entrees))
              eds
              (Simulation.grille
                 (monde_atteint ini taille_x taille_y entrees),
               Simulation.voitures
                 (monde_atteint ini taille_x taille_y entrees))).
generalize (Simulation.feux (monde_atteint ini taille_x taille_y entrees)).
intros feux e Hcoh Hsr.
split; [|split; [|split]].
- intros cx cy Hl Hok. unfold clic_gauche. rewrite Hl.
  destruct (ajouter_obstacle_manuel e.1 cx cy feux) as [ok g].
  simpl in Hok. subst ok. simpl. apply forcer_recalcul_si_affecte_spec.
- intros choix ox oy Hc Hok. unfold obstacle_auto_ajout. rewrite Hc.
  destruct (ajouter_obstacle_auto e.1 ox oy feux) as [ok g].
  simpl in Hok. subst ok. simpl. apply forcer_recalcul_si_affecte_spec.
- intros cx cy Hl Hc. unfold clic_droit. rewrite Hl.
  rewrite bool_decide_eq_true_2 by done. simpl. split.
  + by eapply ecrire_case_ici.
  + eapply replanification_acquise; [|done..]. by rewrite Hc.
- intros choix c Hp. unfold obstacle_auto_retrait. rewrite Hp. simpl.
  apply list_elem_of_lookup_2, list_elem_of_filter in Hp as [Hc _].
  split; [done|]. split.
  + by eapply ecrire_case_ici.
  + eapply replanification_acquise; [|done..]. by rewrite Hc.
Qed.

Lemma obstacle_force_la_replanification_witness :
  let ini :=
    {| Simulation.melange_feux := λ l, l;
       Simulation.temps_initial := λ _, 1700000000%float;
       Simulation.phase_initiale := λ _, 6%float;
       Simulation.tirage_passages := λ _, (2, 3);
       Simulation.tirage_voitures :=
         λ k, match k with O => (2, 0) | 1%nat => (3, 0) | _ => (1, 1) end;
       Simulation.horloge_initiale := λ _, 1700000000%float |} in
  let m := monde_atteint ini 7 7 [] in
  let e :=
    etat_edite 7 7 (Simulation.feux m) [ClicGauche 3 0]
      (Simulation.grille m, Simulation.voitures m) in
  0 ≤ 7 ∧ 0 < 7 ∧ entrees_admises ini []
  ∧ dans_limites 7 7 (3, 0) = true
  ∧ case_grille e.1 (3, 0) = Some OBSTACLE_MANUEL
  ∧ case_grille (clic_droit 7 7 3 0 e).1 (3, 0) = Some ROUTE
  ∧ replanification_forcee (3, 0) e.2 (clic_droit 7 7 3 0 e).2.
Proof.
intros ini m e.
assert (Hadm : entrees_admises ini []) by (split; [done|constructor]).
assert (Hg : Simulation.grille m
             = [[" "; " "; " "; " "; " "; " "; " "];
                [" "; "N"; "N"; " "; "N"; "N"; " "];
                [" "; "N"; "N"; " "; "N"; "N"; " "];
                [" "; " "; " "; " "; " "; " "; " "];
                [" "; "N"; "N"; " "; "N"; "N"; " "];
                [" "; "N"; "N"; " "; "N"; "N"; " "];
                [" "; " "; " "; " "; " "; " "; " "]]).
{ subst m. unfold monde_atteint, Simulation.monde_initial.
  cbn [foldl Simulation.grille]. vm_compute. reflexivity. }
assert (Hf : Feu.position <$> Simulation.feux m
             = [(0, 0); (3, 1); (6, 2); (1, 3); (2, 6)]).
{ subst m. unfold monde_atteint, Simulation.monde_initial.
  cbn [foldl Simulation.feux]. vm_compute. reflexivity. }
assert (Ha : ajouter_obstacle_manuel (Simulation.grille m) 3 0
               (Simulation.feux m)
             = (true, [[" "; " "; " "; "X"; " "; " "; " "];
                       [" "; "N"; "N"; " "; "N"; "N"; " "];
                       [" "; "N"; "N"; " "; "N"; "N"; " "];
                       [" "; " "; " "; " "; " "; " "; " "];
                       [" "; "N"; "N"; " "; "N"; "N"; " "];
                       [" "; "N"; "N"; " "; "N"; "N"; " "];
                       [" "; " "; " "; " "; " "; " "; " "]])).
{ unfold ajouter_obstacle_manuel, positions_feux. rewrite Hg, Hf.
  vm_compute. reflexivity. }
assert (Hc : case_grille e.1 (3, 0) = Some OBSTACLE_MANUEL).
{ subst e. unfold etat_edite. cbn [foldl appliquer_edition].
  unfold clic_gauche.
  replace (dans_limites 7 7 (3, 0)) with true by reflexivity.
  cbn [fst snd]. rewrite Ha. cbn [fst]. vm_compute. reflexivity. }
split; [lia|]. split; [lia|]. split; [exact Hadm|].
split; [reflexivity|]. split; [exact Hc|].
exact (proj1 (proj2 (proj2
         (obstacle_force_la_replanification ini 7 7 [] [ClicGauche 3 0]
            ltac:(lia) ltac:(lia) Hadm))) 3 0 eq_refl Hc).
Defined.

(** *** Piétons *)



(** *** Feux : la durée de la phase en cours *)

(** C7, as stated, fails on a light the initialisation creates part-way
    through its green phase. With the clock at 1700000000 and the light 6
    seconds into its cycle, the first light of the 30 x 15 grid is green
    with [dernier_changement] 1699999994 and [duree_actuelle] 4; the update
    at 1700000000.03 turns it orange although 6.03 seconds, less than the 10
    seconds of the green phase, have passed since [dernier_changement]. *)
Lemma feu_initial_change_avant_la_duree_de_phase :
  let ini :=
    {| Simulation.melange_feux := λ l, l;
       Simulation.temps_initial := λ _, 1700000000%float;
       Simulation.phase_initiale := λ _, 6%float;
       Simulation.tirage_passages := λ _, (2, 3);
       Simulation.tirage_voitures := λ _, (1, 1);
       Simulation.horloge_initiale := λ _, 1700000000%float |} in
  let feux := Simulation.feux (Simulation.monde_initial ini 30 15) in
  head feux
  = Some (Feu.mk (0, 0) "vert" 10%float 3%float 7%float 4%float
            1699999994%float)
  ∧ head (mettre_a_jour_feux 1700000000.03%float feux)
    = Some (Feu.mk (0, 0) "orange" 10%float 3%float 7%float 3%float
              1700000000.03%float)
  ∧ (10 <? 1700000000.03 - 1699999994)%float = false
  ∧ ¬ Forall2 (transition_a_la_duree_de_phase 1700000000.03%float)
        feux (mettre_a_jour_feux 1700000000.03%float feux).
Proof.
intros ini feux.
assert (H1 : head feux
             = Some (Feu.mk (0, 0) "vert" 10%float 3%float 7%float 4%float
                       1699999994%float)).
{ subst feux. unfold Simulation.monde_initial. cbn [Simulation.feux].
  vm_compute. reflexivity. }
assert (H2 : head (mettre_a_jour_feux 1700000000.03%float feux)
             = Some (Feu.mk (0, 0) "orange" 10%float 3%float 7%float
                       3%float 1700000000.03%float)).
{ subst feux. unfold Simulation.monde_initial. cbn [Simulation.feux].
  vm_compute. reflexivity. }
split; [exact H1|]. split; [exact H2|]. split; [reflexivity|].
intros HF. revert H1 H2.
destruct HF as [|feu feu' l l' H _]; [done|].
simpl. intros [= ->] [= ->].
unfold transition_a_la_duree_de_phase in H. simpl in H.
by specialize (H ltac:(done)).
Qed.
